(** * A shallow embedding of the ray tracer core and of the calculator

    [raytracer_logic.cpp] is embedded over an abstract geometry substrate
    (the headers [vector.h], [ray.h], [intersection.h], [geometry.h],
    [scene.h], [render_options.h] are collaborators of the renderer and are
    taken as parameters).  [calculator.cpp] is embedded over 64-bit
    integers represented in [Z]. *)

From Stdlib Require Import ZArith List Bool Lia Ascii String.
Import ListNotations.

Set Implicit Arguments.

(* ================================================================== *)
(** ** Effects of the renderer *)
(* ================================================================== *)

(** What can go wrong while a value is computed.  [EmptyOptional] is the
    access through [operator->] or [value()] of a [std::optional] that
    holds nothing. *)
Inductive Fault : Type :=
| EmptyOptional.

(** The accessors of [Scene] that the renderer calls. *)
Inductive Query : Type :=
| QObjects        (* scene.GetObjects()       *)
| QSphereObjects  (* scene.GetSphereObjects() *)
| QLights.        (* scene.GetLights()        *)

Inductive Outcome (A : Type) : Type :=
| Ok (a : A)
| UB (f : Fault)
| OutOfFuel.

Arguments Ok {A} a.
Arguments UB {A} f.
Arguments OutOfFuel {A}.

(** A computation yields the scene queries it made, in order, and its
    outcome. *)
Definition M (A : Type) : Type := (list Query * Outcome A)%type.

Definition queries {A} (m : M A) : list Query := fst m.
Definition outcome {A} (m : M A) : Outcome A := snd m.

Definition ret {A} (a : A) : M A := ([], Ok a).
Definition fault {A} (f : Fault) : M A := ([], UB f).
Definition out_of_fuel {A} : M A := ([], OutOfFuel).
Definition ask (q : Query) : M unit := ([q], Ok tt).

Definition bind {A B} (m : M A) (k : A -> M B) : M B :=
  match m with
  | (qs, Ok a) => let '(qs', o) := k a in (qs ++ qs', o)
  | (qs, UB f) => (qs, UB f)
  | (qs, OutOfFuel) => (qs, OutOfFuel)
  end.

Declare Scope rt_scope.
Delimit Scope rt_scope with rt.
Notation "x <- m ;; k" := (bind m (fun x => k))
  (at level 61, m at next level, right associativity) : rt_scope.
Notation "' pat <- m ;; k" := (bind m (fun x => match x with pat => k end))
  (at level 61, pat pattern, m at next level, right associativity) : rt_scope.
Notation "m ;;; k" := (bind m (fun _ => k))
  (at level 61, right associativity) : rt_scope.
Open Scope rt_scope.

(* ================================================================== *)
(** ** The geometry substrate *)
(* ================================================================== *)

(** The types and functions that [raytracer_logic.cpp] takes from its
    headers.  [scalar] stands for [double]. *)
Class Substrate : Type := {
  scalar : Type;
  Vector : Type;
  Ray : Type;
  Intersection : Type;
  (* double: the literals 0.0, 1.0, 1e-5, 1e-6 and the operators used *)
  r0 : scalar;
  r1 : scalar;
  eps5 : scalar;
  eps6 : scalar;
  rlt : scalar -> scalar -> bool;          (* a < b *)
  rmax : scalar -> scalar -> scalar;       (* std::max *)
  rpow : scalar -> scalar -> scalar;       (* std::pow *)
  rdiv : scalar -> scalar -> scalar;       (* a / b    *)
  (* vector.h *)
  vzero : Vector;                          (* Vector() *)
  mkVector : scalar -> scalar -> scalar -> Vector;   (* {a, b, c} *)
  vnth : Vector -> nat -> scalar;          (* v[i] *)
  vadd : Vector -> Vector -> Vector;       (* u + v *)
  vsub : Vector -> Vector -> Vector;       (* u - v *)
  vneg : Vector -> Vector;                 (* -v *)
  smul : scalar -> Vector -> Vector;       (* a * v *)
  muls : Vector -> scalar -> Vector;       (* v * a *)
  vmul : Vector -> Vector -> Vector;       (* u * v *)
  Normalize : Vector -> Vector;            (* v.Normalize(), in place *)
  Length : Vector -> scalar;
  DotProduct : Vector -> Vector -> scalar;
  (* ray.h *)
  mkRay : Vector -> Vector -> Ray;         (* Ray(origin, direction) *)
  GetDirection : Ray -> Vector;
  (* intersection.h *)
  default_intersection : Intersection;     (* Intersection best; *)
  GetDistance : Intersection -> scalar;
  GetPosition : Intersection -> Vector;
  GetNormal : Intersection -> Vector;
  (* geometry.h *)
  Reflect : Vector -> Vector -> Vector;
  Refract : Vector -> Vector -> scalar -> option Vector
}.

(** [a > b] on doubles. *)
Definition rgt `{Substrate} (a b : scalar) : bool := rlt b a.

(** [a <= b] read as "not [b < a]": the two agree on every pair of doubles
    neither of which is a NaN. *)
Definition rle `{Substrate} (a b : scalar) : bool := negb (rlt b a).

Section Data.
Context `{Substrate}.

Record Material : Type := {
  ambient_color : Vector;
  diffuse_color : Vector;
  specular_color : Vector;
  intensity : Vector;
  specular_exponent : scalar;
  refraction_index : scalar;
  albedo : Vector
}.

(** [struct Light]: the fields [position] and [intensity]. *)
Record Light : Type := {
  light_position : Vector;
  light_intensity : Vector
}.

(** [enum class RenderMode]: the source names [kDepth] and [kNormal] and
    treats every other mode as the shaded one, here [kFull]. *)
Inductive RenderMode : Type := kDepth | kNormal | kFull.

(** [RenderOptions]: [depth] is an [int], represented by an integer of
    [Z]; the renderer only decrements it and compares it with [0].  The
    bounds of [int] are left out: a counter that starts at a value that is
    not negative stays between [0] and that value. *)
Record RenderOptions : Type := {
  depth : Z;
  mode : RenderMode
}.

(** What the templates [FindNearestIntersection<T>] and [GetColor<T>]
    ask of [T]: [obj.GetObject()] with the overload of [GetIntersection]
    for its result, [obj.material] and [obj.IsInside(dir, normal)]. *)
Class Primitive (T : Type) : Type := {
  Geom : Type;
  GetObject : T -> Geom;
  GetIntersection : Ray -> Geom -> option Intersection;
  material : T -> Material;
  IsInside : T -> Vector -> Vector -> bool
}.
End Data.

Arguments Primitive {_} T.

(** The two kinds of primitives of a scene, and [DefineNormal], which
    exists for the first kind only. *)
Class World `{Substrate} : Type := {
  Tri : Type;
  Sph : Type;
  Tri_Primitive :: Primitive Tri;
  Sph_Primitive :: Primitive Sph;
  DefineNormal : Tri -> Intersection -> Intersection
}.

Section Renderer.
Context `{W : World}.

Record Scene : Type := {
  objects : list Tri;
  sphere_objects : list Sph;
  lights : list Light
}.

Definition GetObjects (s : Scene) : M (list Tri) :=
  ask QObjects ;;; ret (objects s).
Definition GetSphereObjects (s : Scene) : M (list Sph) :=
  ask QSphereObjects ;;; ret (sphere_objects s).
Definition GetLights (s : Scene) : M (list Light) :=
  ask QLights ;;; ret (lights s).

Definition is_some {A} (o : option A) : bool :=
  match o with Some _ => true | None => false end.

(** *** FindNearestIntersection

    The loop of the function, with the two variables it assigns,
    [best_intersection] (a reference of the caller) and [target_object],
    passed along. *)
Fixpoint FindNearestIntersection_loop {T} {P : Primitive T}
    (objs : list T) (ray : Ray) (flag : bool)
    (best_intersection : Intersection) (target_object : option T)
  : Intersection * option T :=
  match objs with
  | [] => (best_intersection, target_object)
  | obj :: rest =>
      match GetIntersection ray (GetObject obj) with
      | Some intersection =>
          if (negb flag && negb (is_some target_object))
             || rlt (GetDistance intersection) (GetDistance best_intersection)
          then FindNearestIntersection_loop rest ray flag intersection (Some obj)
          else FindNearestIntersection_loop rest ray flag best_intersection
                                            target_object
      | None =>
          FindNearestIntersection_loop rest ray flag best_intersection
                                       target_object
      end
  end.

Definition FindNearestIntersection {T} {P : Primitive T}
    (objs : list T) (ray : Ray) (best_intersection : Intersection)
    (flag : bool) : Intersection * option T :=
  FindNearestIntersection_loop objs ray flag best_intersection None.

(** *** IsInShadow *)
Definition IsInShadow (scene : Scene) (light : Light) (pos : Vector)
  : M bool :=
  let light_vector := Normalize (vsub pos (light_position light)) in
  let light_ray := mkRay (light_position light) light_vector in
  let best_intersection := default_intersection in
  let triangle_f := false in
  objs <- GetObjects scene ;;
  let '(best_intersection, triangle) :=
    FindNearestIntersection objs light_ray best_intersection triangle_f in
  let triangle_f := is_some triangle in
  sphs <- GetSphereObjects scene ;;
  let '(best_intersection, _) :=
    FindNearestIntersection sphs light_ray best_intersection triangle_f in
  ret (rgt (Length (vsub pos (GetPosition best_intersection))) eps6).

(** *** GetColor

    The loop over the lights of the shaded mode, with the two vectors it
    accumulates passed along. *)
Fixpoint GetColor_lights {T} {P : Primitive T}
    (scene : Scene) (view_ray : Ray) (vis_intersection : Intersection)
    (vis_obj : T) (ls : list Light) (diffusion specular : Vector)
  : M (Vector * Vector) :=
  match ls with
  | [] => ret (diffusion, specular)
  | light :: rest =>
      let light_vector :=
        Normalize (vsub (GetPosition vis_intersection) (light_position light)) in
      let light_ray := mkRay (light_position light) light_vector in
      shadow <- IsInShadow scene light (GetPosition vis_intersection) ;;
      if (shadow : bool) then
        GetColor_lights scene view_ray vis_intersection vis_obj rest
                        diffusion specular
      else
        let l_d :=
          rmax r0 (DotProduct (vneg (GetDirection light_ray))
                              (GetNormal vis_intersection)) in
        let l_s :=
          rpow (rmax r0 (DotProduct (vneg (GetDirection view_ray))
                                    (Reflect (GetDirection light_ray)
                                             (GetNormal vis_intersection))))
               (specular_exponent (material vis_obj)) in
        let diffusion :=
          vadd diffusion (vmul (smul l_d (light_intensity light))
                               (diffuse_color (material vis_obj))) in
        let specular :=
          vadd specular (vmul (smul l_s (light_intensity light))
                              (specular_color (material vis_obj))) in
        GetColor_lights scene view_ray vis_intersection vis_obj rest
                        diffusion specular
  end.

(** [opt.depth -= 1] *)
Definition decrement (opt : RenderOptions) : RenderOptions :=
  {| depth := depth opt - 1; mode := mode opt |}.

(** [GetColor] calls [RayCast], which calls it back: the callee is the
    parameter [RayCast] here, and the knot is tied in [RayCast] below.
    The out-parameter [result] is the value returned. *)
Definition GetColor {T} {P : Primitive T}
    (RayCast : Scene -> Ray -> RenderOptions -> M Vector)
    (scene : Scene) (view_ray : Ray) (opt : RenderOptions)
    (vis_intersection : Intersection) (vis_obj : T) : M Vector :=
  match mode opt with
  | kDepth =>
      let d := GetDistance vis_intersection in
      ret (mkVector d d d)
  | kNormal =>
      let norm := GetNormal vis_intersection in
      ret (mkVector (vnth norm 0) (vnth norm 1) (vnth norm 2))
  | kFull =>
      let general :=
        vadd (intensity (material vis_obj)) (ambient_color (material vis_obj)) in
      (* Specular and diffusion *)
      ls <- GetLights scene ;;
      '(diffusion, specular) <-
        GetColor_lights scene view_ray vis_intersection vis_obj ls vzero vzero ;;
      (* Refraction *)
      let opt := decrement opt in
      let inside :=
        IsInside vis_obj (GetDirection view_ray) (GetNormal vis_intersection) in
      refracted <-
        (if rgt (vnth (albedo (material vis_obj)) 2) r0 then
           let eta := rdiv r1 (refraction_index (material vis_obj)) in
           let refracted_ray :=
             Refract (GetDirection view_ray) (GetNormal vis_intersection) eta in
           (* refracted_ray->Normalize(), ahead of the test of refracted_ray *)
           match refracted_ray with
           | None => fault EmptyOptional
           | Some v =>
               let refracted_ray := Normalize v in
               let origin :=
                 vadd (GetPosition vis_intersection) (smul eps5 refracted_ray) in
               refracted <- RayCast scene (mkRay origin refracted_ray) opt ;;
               ret (if negb inside
                    then muls refracted (vnth (albedo (material vis_obj)) 2)
                    else refracted)
           end
         else ret vzero) ;;
      (* Reflection *)
      reflected <-
        (if rgt (vnth (albedo (material vis_obj)) 1) r0 && negb inside then
           let origin :=
             vadd (GetPosition vis_intersection)
                  (smul eps5 (GetNormal vis_intersection)) in
           let reflected_ray :=
             Normalize (Reflect (GetDirection view_ray)
                                (GetNormal vis_intersection)) in
           RayCast scene (mkRay origin reflected_ray) opt
         else ret vzero) ;;
      ret (vadd (vadd (vadd general
                            (smul (vnth (albedo (material vis_obj)) 0)
                                  (vadd diffusion specular)))
                      (smul (vnth (albedo (material vis_obj)) 1) reflected))
                refracted)
  end.

(** *** RayCast

    One activation of [RayCast]; [self] stands for the function itself in
    the calls that [GetColor] makes. *)
Definition RayCast_body
    (self : Scene -> Ray -> RenderOptions -> M Vector)
    (scene : Scene) (view_ray : Ray) (opt : RenderOptions) : M Vector :=
  if (depth opt =? 0)%Z then
    ret vzero
  else
    (* Find visible object *)
    let best_intersection := default_intersection in
    let triangle_f := false in
    objs <- GetObjects scene ;;
    let '(best_intersection, triangle) :=
      FindNearestIntersection objs view_ray best_intersection triangle_f in
    let triangle_f := is_some triangle in
    sphs <- GetSphereObjects scene ;;
    let '(best_intersection, sphere) :=
      FindNearestIntersection sphs view_ray best_intersection triangle_f in
    match sphere with
    | Some sphere =>
        GetColor self scene view_ray opt best_intersection sphere
    | None =>
        match triangle with
        | Some triangle =>
            let best_intersection := DefineNormal triangle best_intersection in
            GetColor self scene view_ray opt best_intersection triangle
        | None => ret vzero
        end
    end.

(** [RayCast] with a bound [fuel] on the nesting of its activations; the
    outcome is [OutOfFuel] when the bound is reached. *)
Fixpoint RayCast (fuel : nat) (scene : Scene) (view_ray : Ray)
    (opt : RenderOptions) : M Vector :=
  match fuel with
  | O => out_of_fuel
  | S fuel' => RayCast_body (RayCast fuel') scene view_ray opt
  end.

(** A valid intersection of [ray] with a primitive of the collection. *)
Definition hit_in {T} {P : Primitive T} (objs : list T) (ray : Ray)
    (i : Intersection) : Prop :=
  exists obj, In obj objs /\ GetIntersection ray (GetObject obj) = Some i.

(** A valid intersection of [ray] with a primitive of the scene. *)
Definition hit_in_scene (scene : Scene) (ray : Ray) (i : Intersection) : Prop :=
  hit_in (objects scene) ray i \/ hit_in (sphere_objects scene) ray i.

(** The ray that [IsInShadow] builds. *)
Definition light_ray_of (light : Light) (pos : Vector) : Ray :=
  mkRay (light_position light)
        (Normalize (vsub pos (light_position light))).

(** A nearest valid intersection of [ray] with the scene. *)
Definition nearest_hit (scene : Scene) (ray : Ray) (b : Intersection) : Prop :=
  hit_in_scene scene ray b /\
  forall i, hit_in_scene scene ray i ->
    rle (GetDistance b) (GetDistance i) = true.

(** The ray that [GetColor] follows for the refracted direction [v]. *)
Definition refraction_ray (vis_intersection : Intersection) (v : Vector) : Ray :=
  mkRay (vadd (GetPosition vis_intersection) (smul eps5 (Normalize v)))
        (Normalize v).

(** The ray that [GetColor] follows for the reflection of [view_ray]. *)
Definition reflection_ray (vis_intersection : Intersection) (view_ray : Ray)
  : Ray :=
  mkRay (vadd (GetPosition vis_intersection)
              (smul eps5 (GetNormal vis_intersection)))
        (Normalize (Reflect (GetDirection view_ray)
                            (GetNormal vis_intersection))).

(** The computation returns, with a value or a fault, within its fuel. *)
Definition terminates {A} (m : M A) : Prop := outcome m <> OutOfFuel.

(** Whether [IsInShadow] answers that the point is in shadow. *)
Definition shadowed (scene : Scene) (pos : Vector) (light : Light) : bool :=
  match outcome (IsInShadow scene light pos) with
  | Ok b => b
  | _ => false
  end.

(** A bound on the scene queries of a call at depth [d] in a scene with
    [n] lights: a call makes at most [3 + 2 * n] of its own and two nested
    calls. *)
Definition query_bound (n d : nat) : nat := (3 + 2 * n) * (2 ^ d - 1).

End Renderer.

(* ================================================================== *)
(** ** The render loop *)
(* ================================================================== *)

(** What [Render] takes from [scene.h], [image.h], [camera_options.h],
    [transformer.h] and [postprocessing.h]: the scene of a file, the image
    of a camera with its numbers of rows and columns, the view ray of a
    pixel and the post-processing of the colour map into the image. *)
Class Studio `{W : World} : Type := {
  CameraOptions : Type;
  Image : Type;
  ReadScene : string -> Scene;
  newImage : CameraOptions -> Image;      (* Image img(width, height) *)
  Height : Image -> nat;
  Width : Image -> nat;
  MakeRay : CameraOptions -> nat -> nat -> Ray;  (* transformer.MakeRay(i, j) *)
  PostProc : Image -> list (list Vector) -> RenderOptions -> Image
}.

Section RenderLoop.
Context `{St : Studio}.

(** [l[i] = x]; the loops of [Render] keep [i] below the length. *)
Fixpoint set_nth {A} (i : nat) (x : A) (l : list A) : list A :=
  match l, i with
  | [], _ => []
  | _ :: t, O => x :: t
  | h :: t, S i' => h :: set_nth i' x t
  end.

(** [color_map[i][j]] *)
Definition pixel (color_map : list (list Vector)) (i j : nat) : Vector :=
  nth j (nth i color_map []) vzero.

(** [color_map[i][j] = v] *)
Definition set_pixel (color_map : list (list Vector)) (i j : nat) (v : Vector)
  : list (list Vector) :=
  set_nth i (set_nth j v (nth i color_map [])) color_map.

(** The inner loop of [Render], from the column [j] on, with [todo]
    columns left. *)
Fixpoint Render_row (fuel : nat) (scene : Scene) (camera_options : CameraOptions)
    (render_options : RenderOptions) (i todo j : nat)
    (color_map : list (list Vector)) : M (list (list Vector)) :=
  match todo with
  | O => ret color_map
  | S todo' =>
      let view_ray := MakeRay camera_options i j in
      v <- RayCast fuel scene view_ray render_options ;;
      Render_row fuel scene camera_options render_options i todo' (S j)
                 (set_pixel color_map i j v)
  end.

(** The outer loop, from the row [i] on, with [todo] rows left. *)
Fixpoint Render_rows (fuel : nat) (scene : Scene)
    (camera_options : CameraOptions) (render_options : RenderOptions)
    (width todo i : nat) (color_map : list (list Vector))
  : M (list (list Vector)) :=
  match todo with
  | O => ret color_map
  | S todo' =>
      color_map <- Render_row fuel scene camera_options render_options
                              i width 0 color_map ;;
      Render_rows fuel scene camera_options render_options width todo' (S i)
                  color_map
  end.

(** [Render]; [fuel] bounds the nesting of each call of [RayCast]. *)
Definition Render (fuel : nat) (filename : string)
    (camera_options : CameraOptions) (render_options : RenderOptions)
  : M Image :=
  let scene := ReadScene filename in
  let img := newImage camera_options in
  let color_map := repeat (repeat vzero (Width img)) (Height img) in
  color_map <- Render_rows fuel scene camera_options render_options
                           (Width img) (Height img) 0 color_map ;;
  ret (PostProc img color_map render_options).

(** A colour map of [h] rows of [w] colours. *)
Definition map_shape (color_map : list (list Vector)) (h w : nat) : Prop :=
  List.length color_map = h /\
  forall i, (i < h)%nat -> List.length (nth i color_map []) = w.

End RenderLoop.

(* ================================================================== *)
(** ** The calculator *)
(* ================================================================== *)

Module Calculator.

(** [int64_t]: an integer of [Z] in the range from [-2^63] to [2^63 - 1];
    the arithmetic operators wrap around. *)
Definition wrap64 (z : Z) : Z := ((z + 2 ^ 63) mod 2 ^ 64 - 2 ^ 63)%Z.

(** The least [int64_t]. *)
Definition INT64_MIN : Z := (- 2 ^ 63)%Z.

(** The result of an evaluation: a value, or one of the three ways in
    which the evaluation stops with none.  The division by zero and the
    division of [INT64_MIN] by [-1], whose quotient is no [int64_t], are
    both undefined, and both the trap of the division instruction; the
    call of [Evaluate] through a null pointer is undefined as well. *)
Inductive Result (A : Type) : Type :=
| Val (a : A)
| DivisionByZero
| DivisionOverflow
| NullPointer.

Arguments Val {A} a.
Arguments DivisionByZero {A}.
Arguments DivisionOverflow {A}.
Arguments NullPointer {A}.

(** An evaluation yields the numbers it wrote to [std::cout], one per line,
    and its result. *)
Definition E (A : Type) : Type := (list Z * Result A)%type.

Definition printed {A} (m : E A) : list Z := fst m.
Definition result {A} (m : E A) : Result A := snd m.

Definition eret {A} (a : A) : E A := ([], Val a).
Definition raise {A} : E A := ([], DivisionByZero).
Definition overflow {A} : E A := ([], DivisionOverflow).
Definition null_dereference {A} : E A := ([], NullPointer).
Definition print (z : Z) : E unit := ([z], Val tt).

Definition ebind {A B} (m : E A) (k : A -> E B) : E B :=
  match m with
  | (out, Val a) => let '(out', r) := k a in (out ++ out', r)
  | (out, DivisionByZero) => (out, DivisionByZero)
  | (out, DivisionOverflow) => (out, DivisionOverflow)
  | (out, NullPointer) => (out, NullPointer)
  end.

Declare Scope calc_scope.
Delimit Scope calc_scope with calc.
Notation "x <- m ;; k" := (ebind m (fun x => k))
  (at level 61, m at next level, right associativity) : calc_scope.
Notation "m ;;; k" := (ebind m (fun _ => k))
  (at level 61, right associativity) : calc_scope.

(** The four operators of [int64_t] that [Operation::Evaluate] applies. *)
Definition mul64 (a b : Z) : E Z := eret (wrap64 (a * b)).
Definition add64 (a b : Z) : E Z := eret (wrap64 (a + b)).
Definition sub64 (a b : Z) : E Z := eret (wrap64 (a - b)).
(** [a / b] has no test of [a] or [b] in the source: the division stops
    the evaluation when [b] is zero, and when [a] is [INT64_MIN] and [b]
    is [-1]; it is the quotient, truncated towards zero, otherwise. *)
Definition div64 (a b : Z) : E Z :=
  if (b =? 0)%Z then raise
  else if ((a =? INT64_MIN) && (b =? -1))%Z then overflow
  else eret (wrap64 (Z.quot a b)).

(** [class Expression] with its two subclasses [Const] and [Operation]:
    a tree whose operands are all there.  The trees with a null pointer
    for an operand are those of [ExpressionPtr], below. *)
Inductive Expression : Type :=
| Const (val_ : Z)
| Operation (op_type_ : ascii) (left_ right_ : Expression).

(** [left_->Evaluate() op right_->Evaluate()], the left operand first. *)
Definition operands (op : Z -> Z -> E Z) (l r : E Z) : E Z :=
  (a <- l ;; b <- r ;; op a b)%calc.

(** One [case] of the [switch]: the value is computed and printed, then
    computed again and returned. *)
Definition print_and_return (op : Z -> Z -> E Z) (l r : E Z) : E Z :=
  ((v <- operands op l r ;; print v) ;;; operands op l r)%calc.

Fixpoint Evaluate (e : Expression) : E Z :=
  match e with
  | Const val_ => eret val_
  | Operation op_type_ left_ right_ =>
      if (op_type_ =? "*")%char then
        print_and_return mul64 (Evaluate left_) (Evaluate right_)
      else if (op_type_ =? "/")%char then
        print_and_return div64 (Evaluate left_) (Evaluate right_)
      else if (op_type_ =? "+")%char then
        print_and_return add64 (Evaluate left_) (Evaluate right_)
      else if (op_type_ =? "-")%char then
        print_and_return sub64 (Evaluate left_) (Evaluate right_)
      else
        (* default: assert("Unsupported operation") holds; return 0 *)
        eret 0%Z
  end.

(** [IsOperation] *)
Definition IsOperation (op : ascii) : bool :=
  ((op =? "*") || (op =? "/") || (op =? "+") || (op =? "-"))%char.

(** *** The tokenizer *)

(** [IsScope] *)
Definition IsScope (c : ascii) : bool := ((c =? "(") || (c =? ")"))%char.

(** [EOF] once stored in a [char]: the byte 255, [char] being signed. *)
Definition EOF_char : ascii := ascii_of_nat 255.

(** [std::isdigit] on a [char]: a character from ['0'] to ['9'], and no
    character above 127. *)
Definition isdigit (c : ascii) : bool :=
  ((48 <=? nat_of_ascii c) && (nat_of_ascii c <=? 57))%nat.

(** [char c = in_->peek()], the stream being the characters left to read:
    the next character, or [EOF] at the end of the input. *)
Definition peek (input : list ascii) : ascii :=
  match input with
  | [] => EOF_char
  | c :: _ => c
  end.

Inductive TokenType : Type := kUnknown | kNumber | kSymbol | kEnd.

(** [class Tokenizer]: the stream and the three fields.  [number_] and
    [symbol_] have no initial value in the source; a tokenizer is made
    with whatever they hold. *)
Record Tokenizer : Type := {
  in_ : list ascii;
  type_ : TokenType;
  number_ : Z;
  symbol_ : ascii
}.

Definition new_Tokenizer (input : list ascii) (number0 : Z) (symbol0 : ascii)
  : Tokenizer :=
  {| in_ := input; type_ := kUnknown; number_ := number0; symbol_ := symbol0 |}.

Definition WatchNext (input : list ascii) : TokenType :=
  let c := peek input in
  if isdigit c then kNumber
  else if IsOperation c || IsScope c then kSymbol
  else if (c =? EOF_char)%char then kEnd
  else kUnknown.

(** The loop that opens [NextSub] and [Consume]: characters are read as
    long as the next one is of no known kind. *)
Fixpoint skip_unknown (input : list ascii) : list ascii :=
  match input with
  | [] => []
  | c :: rest =>
      match WatchNext (c :: rest) with
      | kUnknown => skip_unknown rest
      | _ => c :: rest
      end
  end.

Definition NextSub (tok : Tokenizer) : bool * Tokenizer :=
  let input := skip_unknown (in_ tok) in
  ((peek input =? "-")%char,
   {| in_ := input; type_ := type_ tok; number_ := number_ tok;
      symbol_ := symbol_ tok |}).

(** The loop of [Consume] over the digits of a number. *)
Fixpoint read_digits (input : list ascii) (number : Z) : Z * list ascii :=
  match input with
  | [] => (number, [])
  | c :: rest =>
      if isdigit c
      then read_digits rest
             (wrap64 (wrap64 (number * 10) + (Z.of_nat (nat_of_ascii c) - 48)))
      else (number, c :: rest)
  end.

Definition Consume (tok : Tokenizer) : Tokenizer :=
  let input := skip_unknown (in_ tok) in
  match WatchNext input with
  | kSymbol =>
      {| in_ := tl input; type_ := kSymbol; number_ := number_ tok;
         symbol_ := peek input |}
  | kNumber =>
      let '(number, rest) := read_digits input 0 in
      {| in_ := rest; type_ := kNumber; number_ := number;
         symbol_ := symbol_ tok |}
  | _ =>
      {| in_ := input; type_ := kEnd; number_ := number_ tok;
         symbol_ := symbol_ tok |}
  end.

(** *** The parser *)

(** An [Expression*]: null, or the address of a new [Const] or
    [Operation], whose operands are such pointers. *)
Inductive ExpressionPtr : Type :=
| null_ptr
| new_Const (value : Z)
| new_Operation (op_type : ascii) (lhs rhs : ExpressionPtr).

(** The tree behind a pointer, when no pointer in it is null. *)
Fixpoint expression_of (p : ExpressionPtr) : option Expression :=
  match p with
  | null_ptr => None
  | new_Const v => Some (Const v)
  | new_Operation op l r =>
      match expression_of l, expression_of r with
      | Some l', Some r' => Some (Operation op l' r')
      | _, _ => None
      end
  end.

(** [p->Evaluate()]: the call of [Evaluate] through a pointer, which has
    no test of the pointer; [left_] and [right_] are such pointers.  It is
    [Evaluate] on the tree behind [p] when no pointer in it is null. *)
Fixpoint Evaluate_ptr (p : ExpressionPtr) : E Z :=
  match p with
  | null_ptr => null_dereference
  | new_Const val_ => eret val_
  | new_Operation op_type_ left_ right_ =>
      if (op_type_ =? "*")%char then
        print_and_return mul64 (Evaluate_ptr left_) (Evaluate_ptr right_)
      else if (op_type_ =? "/")%char then
        print_and_return div64 (Evaluate_ptr left_) (Evaluate_ptr right_)
      else if (op_type_ =? "+")%char then
        print_and_return add64 (Evaluate_ptr left_) (Evaluate_ptr right_)
      else if (op_type_ =? "-")%char then
        print_and_return sub64 (Evaluate_ptr left_) (Evaluate_ptr right_)
      else
        (* default: assert("Unsupported operation") holds; return 0 *)
        eret 0%Z
  end.

(** [n] is a node of the tree at [p]. *)
Inductive node_of : ExpressionPtr -> ExpressionPtr -> Prop :=
| node_root p : node_of p p
| node_left op l r n : node_of l n -> node_of (new_Operation op l r) n
| node_right op l r n : node_of r n -> node_of (new_Operation op l r) n.

(** [n] is a node of the tree at [p] that the evaluation visits unless it
    stops before: the root, and the nodes visited below the operands of a
    node that carries one of the four operators. *)
Inductive visited : ExpressionPtr -> ExpressionPtr -> Prop :=
| visited_root p : visited p p
| visited_left op l r n :
    IsOperation op = true -> visited l n -> visited (new_Operation op l r) n
| visited_right op l r n :
    IsOperation op = true -> visited r n -> visited (new_Operation op l r) n.

(** The evaluation of the tree at [p] divides by zero nowhere. *)
Definition division_safe (p : ExpressionPtr) : Prop :=
  result (Evaluate_ptr p) <> DivisionByZero.

(** The evaluation of the tree at [p] returns a value. *)
Definition returns (p : ExpressionPtr) : Prop :=
  exists v, result (Evaluate_ptr p) = Val v.

(** The right subexpression of the division node [n] evaluates to a value
    that is not zero. *)
Definition divisor_nonzero (n : ExpressionPtr) : Prop :=
  forall l r, n = new_Operation "/" l r ->
    exists v, result (Evaluate_ptr r) = Val v /\ v <> 0%Z.

(** A tree whose root carries a character that is not an operator, above
    a division by the constant zero. *)
Definition unsupported_above_division : ExpressionPtr :=
  new_Operation "x" (new_Operation "/" (new_Const 1) (new_Const 0))
                (new_Const 1).

(** [1 / (INT64_MIN / -1)]: a division whose divisor is a division that
    stops the evaluation, with no zero in it. *)
Definition division_by_overflow : ExpressionPtr :=
  new_Operation "/" (new_Const 1)
                (new_Operation "/" (new_Const INT64_MIN) (new_Const (-1))).

(** The tree that the parser builds for [1/]: a division whose divisor is
    the null pointer. *)
Definition division_by_null : ExpressionPtr :=
  new_Operation "/" (new_Const 1) null_ptr.

Definition is_symbol (tok : Tokenizer) (a b : ascii) : bool :=
  match type_ tok with
  | kSymbol => ((symbol_ tok =? a) || (symbol_ tok =? b))%char
  | _ => false
  end.

Definition at_end (tok : Tokenizer) : bool :=
  match type_ tok with kEnd => true | _ => false end.

(** The four functions of the parser and the two [while] loops, with a
    bound [fuel] on the nesting of their calls and iterations; the result
    is [None] when the bound is reached.  Each returns the pointer and
    the tokenizer as it leaves it.  [lhs] and [rhs] are the [left] and
    [right] of the source. *)
Fixpoint ParserE (fuel : nat) (tok : Tokenizer)
  : option (ExpressionPtr * Tokenizer) :=
  match fuel with
  | O => None
  | S fuel =>
      match ParserT1 fuel tok with
      | None => None
      | Some (lhs, tok) =>
          if at_end tok then Some (lhs, tok)
          else ParserE_loop fuel lhs tok
      end
  end
with ParserE_loop (fuel : nat) (lhs : ExpressionPtr) (tok : Tokenizer)
  : option (ExpressionPtr * Tokenizer) :=
  match fuel with
  | O => None
  | S fuel =>
      if is_symbol tok "-" "+" then
        let op := symbol_ tok in
        match ParserT1 fuel tok with
        | None => None
        | Some (rhs, tok) =>
            let vertex := new_Operation op lhs rhs in
            ParserE_loop fuel vertex tok
        end
      else Some (lhs, tok)
  end
with ParserT1 (fuel : nat) (tok : Tokenizer)
  : option (ExpressionPtr * Tokenizer) :=
  match fuel with
  | O => None
  | S fuel =>
      match ParserT2 fuel tok with
      | None => None
      | Some (lhs, tok) =>
          let tok := Consume tok in
          if at_end tok then Some (lhs, tok)
          else ParserT1_loop fuel lhs tok
      end
  end
with ParserT1_loop (fuel : nat) (lhs : ExpressionPtr) (tok : Tokenizer)
  : option (ExpressionPtr * Tokenizer) :=
  match fuel with
  | O => None
  | S fuel =>
      if is_symbol tok "*" "/" then
        let op := symbol_ tok in
        match ParserT2 fuel tok with
        | None => None
        | Some (rhs, tok) =>
            let vertex := new_Operation op lhs rhs in
            let tok := Consume tok in
            ParserT1_loop fuel vertex tok
        end
      else Some (lhs, tok)
  end
with ParserT2 (fuel : nat) (tok : Tokenizer)
  : option (ExpressionPtr * Tokenizer) :=
  match fuel with
  | O => None
  | S fuel =>
      let '(sub, tok) := NextSub tok in
      if sub then
        let lhs := new_Const 0 in
        let tok := Consume tok in
        match ParserT3 fuel tok with
        | None => None
        | Some (rhs, tok) => Some (new_Operation "-" lhs rhs, tok)
        end
      else ParserT3 fuel tok
  end
with ParserT3 (fuel : nat) (tok : Tokenizer)
  : option (ExpressionPtr * Tokenizer) :=
  match fuel with
  | O => None
  | S fuel =>
      let tok := Consume tok in
      match type_ tok with
      | kNumber => Some (new_Const (number_ tok), tok)
      | _ =>
          if is_symbol tok "(" ")" then ParserE fuel tok
          else Some (null_ptr, tok)
      end
  end.

Definition ParseExpression (fuel : nat) (tok : Tokenizer)
  : option (ExpressionPtr * Tokenizer) :=
  ParserE fuel tok.

(** The characters of a string. *)
Definition chars (s : string) : list ascii := list_ascii_of_string s.

(** The number that a list of decimal digits writes. *)
Definition digits_value (ds : list ascii) : Z :=
  fold_left (fun n c => (n * 10 + (Z.of_nat (nat_of_ascii c) - 48))%Z) ds 0%Z.

(** The number of lines that [Evaluate] prints for a tree whose
    evaluation returns a value. *)
Fixpoint lines_printed (p : ExpressionPtr) : nat :=
  match p with
  | new_Operation op l r =>
      if IsOperation op
      then 1 + 2 * (lines_printed l + lines_printed r)
      else 0
  | _ => 0
  end.

(** The number of operation nodes of a tree. *)
Fixpoint operations (p : ExpressionPtr) : nat :=
  match p with
  | new_Operation _ l r => 1 + operations l + operations r
  | _ => 0
  end.

(** A value of [int64_t]. *)
Definition in_int64 (z : Z) : Prop := (- 2 ^ 63 <= z < 2 ^ 63)%Z.

(** A character of no known kind: [WatchNext] answers [kUnknown] on it. *)
Definition unknown (c : ascii) : bool :=
  match WatchNext [c] with kUnknown => true | _ => false end.

(** The tokenizer [tok] with [input] left to read. *)
Definition with_input (tok : Tokenizer) (input : list ascii) : Tokenizer :=
  {| in_ := input; type_ := type_ tok; number_ := number_ tok;
     symbol_ := symbol_ tok |}.

(** *** Sums of products of numbers, as texts and as trees *)

(** A number written in decimal digits. *)
Definition numeral_ok (ds : list ascii) : bool :=
  negb (Nat.eqb (List.length ds) 0) && forallb isdigit ds.

(** A product: a number, then operators [*] or [/], each with a number. *)
Definition Product : Type := (list ascii * list (ascii * list ascii))%type.

(** A sum: a product, then operators [+] or [-], each with a product. *)
Definition Sum : Type := (Product * list (ascii * Product))%type.

Definition factor_ok (item : ascii * list ascii) : bool :=
  (((fst item =? "*") || (fst item =? "/"))%char && numeral_ok (snd item)).

Definition product_ok (p : Product) : bool :=
  numeral_ok (fst p) && forallb factor_ok (snd p).

Definition term_ok (item : ascii * Product) : bool :=
  (((fst item =? "+") || (fst item =? "-"))%char && product_ok (snd item)).

Definition sum_ok (s : Sum) : bool :=
  product_ok (fst s) && forallb term_ok (snd s).

Definition factors_text (items : list (ascii * list ascii)) : list ascii :=
  flat_map (fun item => fst item :: snd item) items.

Definition product_text (p : Product) : list ascii :=
  fst p ++ factors_text (snd p).

Definition terms_text (items : list (ascii * Product)) : list ascii :=
  flat_map (fun item => fst item :: product_text (snd item)) items.

Definition sum_text (s : Sum) : list ascii :=
  product_text (fst s) ++ terms_text (snd s).

Definition numeral_ptr (ds : list ascii) : ExpressionPtr :=
  new_Const (wrap64 (digits_value ds)).

(** The operators of one level group to the left. *)
Definition factors_ptr (lhs : ExpressionPtr)
    (items : list (ascii * list ascii)) : ExpressionPtr :=
  fold_left (fun acc item => new_Operation (fst item) acc (numeral_ptr (snd item)))
            items lhs.

Definition product_ptr (p : Product) : ExpressionPtr :=
  factors_ptr (numeral_ptr (fst p)) (snd p).

Definition terms_ptr (lhs : ExpressionPtr) (items : list (ascii * Product))
  : ExpressionPtr :=
  fold_left (fun acc item => new_Operation (fst item) acc (product_ptr (snd item)))
            items lhs.

Definition sum_ptr (s : Sum) : ExpressionPtr :=
  terms_ptr (product_ptr (fst s)) (snd s).

(** The tokenizer has just consumed the first token of [rest], an
    operator, or has met the end of an empty [rest]. *)
Definition follows (tok : Tokenizer) (rest : list ascii) : Prop :=
  match rest with
  | [] => type_ tok = kEnd /\ in_ tok = []
  | c :: more => type_ tok = kSymbol /\ symbol_ tok = c /\ in_ tok = more
  end.

(** [rest] is empty or begins with an operator or a parenthesis. *)
Definition symbol_next (rest : list ascii) : bool :=
  match rest with
  | [] => true
  | c :: _ => IsOperation c || IsScope c
  end.

(** [rest] is empty or begins with a parenthesis. *)
Definition scope_next (rest : list ascii) : bool :=
  match rest with
  | [] => true
  | c :: _ => IsScope c
  end.

(** [rest] is empty or begins with [+], [-] or a parenthesis: a product
    ends there. *)
Definition product_end (rest : list ascii) : bool :=
  match rest with
  | [] => true
  | c :: _ => ((c =? "+") || (c =? "-"))%char || IsScope c
  end.

(** The trees of a product and of a sum, with no pointer in between. *)
Definition numeral_expression (ds : list ascii) : Expression :=
  Const (wrap64 (digits_value ds)).

Definition product_expression (p : Product) : Expression :=
  fold_left
    (fun acc item => Operation (fst item) acc (numeral_expression (snd item)))
    (snd p) (numeral_expression (fst p)).

Definition sum_expression (s : Sum) : Expression :=
  fold_left
    (fun acc item => Operation (fst item) acc (product_expression (snd item)))
    (snd s) (product_expression (fst s)).

(** The value of [a op b] on [int64_t], for the four operators: no value
    for a division by zero and for [INT64_MIN / -1]. *)
Definition apply_op (op : ascii) (a b : Z) : Result Z :=
  if (op =? "*")%char then Val (wrap64 (a * b))
  else if (op =? "/")%char then
    if (b =? 0)%Z then DivisionByZero
    else if ((a =? INT64_MIN) && (b =? -1))%Z then DivisionOverflow
    else Val (wrap64 (Z.quot a b))
  else if (op =? "+")%char then Val (wrap64 (a + b))
  else if (op =? "-")%char then Val (wrap64 (a - b))
  else Val 0%Z.

(** [a op b] for two operands that may have no value: the left operand
    first, and nothing after an operand with no value. *)
Definition apply_results (op : ascii) (a b : Result Z) : Result Z :=
  match a with
  | Val x => match b with Val y => apply_op op x y | stop => stop end
  | stop => stop
  end.

(** The operators of one level applied from the left to the right. *)
Definition fold_values {A} (value : A -> Result Z) (items : list (ascii * A))
    (first : Result Z) : Result Z :=
  fold_left
    (fun acc item => apply_results (fst item) acc (value (snd item)))
    items first.

(** The sum [9223372036854775808/18446744073709551615], whose two numbers
    are read as [INT64_MIN] and [-1]. *)
Definition overflowing_sum : Sum :=
  ((chars "9223372036854775808",
    [("/"%char, chars "18446744073709551615")]), []).

Definition numeral_value (ds : list ascii) : Result Z :=
  Val (wrap64 (digits_value ds)).

Definition product_value (p : Product) : Result Z :=
  fold_values numeral_value (snd p) (numeral_value (fst p)).

Definition sum_value (s : Sum) : Result Z :=
  fold_values product_value (snd s) (product_value (fst s)).

(** A tokenizer on the characters of a string. *)
Definition tokenizer_of (s : string) : Tokenizer :=
  new_Tokenizer (chars s) 0 "?".

(** The sum [1*2+3/4]. *)
Definition small_sum : Sum :=
  ((chars "1", [("*"%char, chars "2")]),
   [("+"%char, (chars "3", [("/"%char, chars "4")]))]).

End Calculator.

(* ================================================================== *)
(** ** A small world to run the renderer in *)
(* ================================================================== *)

(** An instance of the substrate over the integers: vectors are triples,
    rays run along the axes, and the primitives are planes across the
    first axis.  The two offsets [1e-5] and [1e-6] are [0] on this grid:
    a plane does not meet a ray that starts on it. *)
Module AxisWorld.

Open Scope Z_scope.

Definition V3 : Type := (Z * Z * Z)%type.

Definition v_x (v : V3) : Z := fst (fst v).
Definition v_nth (v : V3) (i : nat) : Z :=
  match v, i with
  | (x, _, _), 0%nat => x
  | (_, y, _), 1%nat => y
  | (_, _, z), _ => z
  end.
Definition v_add (u v : V3) : V3 :=
  let '(a, b, c) := u in let '(x, y, z) := v in (a + x, b + y, c + z).
Definition v_sub (u v : V3) : V3 :=
  let '(a, b, c) := u in let '(x, y, z) := v in (a - x, b - y, c - z).
Definition v_neg (v : V3) : V3 :=
  let '(x, y, z) := v in (- x, - y, - z).
Definition v_scale (a : Z) (v : V3) : V3 :=
  let '(x, y, z) := v in (a * x, a * y, a * z).
Definition v_mul (u v : V3) : V3 :=
  let '(a, b, c) := u in let '(x, y, z) := v in (a * x, b * y, c * z).
Definition v_dot (u v : V3) : Z :=
  let '(a, b, c) := u in let '(x, y, z) := v in a * x + b * y + c * z.
(** The direction of a vector along an axis. *)
Definition v_normalize (v : V3) : V3 :=
  let '(x, y, z) := v in (Z.sgn x, Z.sgn y, Z.sgn z).
Definition v_length (v : V3) : Z :=
  let '(x, y, z) := v in Z.abs x + Z.abs y + Z.abs z.
Definition v_reflect (d n : V3) : V3 :=
  v_sub d (v_scale (2 * v_dot d n) n).
(** A ray passes straight through when the ratio is not [0], and is
    reflected totally when it is. *)
Definition v_refract (d n : V3) (eta : Z) : option V3 :=
  if eta =? 0 then None else Some d.

Record Hit : Type := {
  hit_distance : Z;
  hit_position : V3;
  hit_normal : V3
}.

Definition substrate : Substrate := {|
  scalar := Z;
  Vector := V3;
  Ray := V3 * V3;
  Intersection := Hit;
  r0 := 0;
  r1 := 1;
  eps5 := 0;
  eps6 := 0;
  rlt := Z.ltb;
  rmax := Z.max;
  rpow := Z.pow;
  rdiv := Z.div;
  vzero := (0, 0, 0);
  mkVector := fun a b c => (a, b, c);
  vnth := v_nth;
  vadd := v_add;
  vsub := v_sub;
  vneg := v_neg;
  smul := v_scale;
  muls := fun v a => v_scale a v;
  vmul := v_mul;
  Normalize := v_normalize;
  Length := v_length;
  DotProduct := v_dot;
  mkRay := fun o d => (o, d);
  GetDirection := snd;
  default_intersection :=
    {| hit_distance := 0; hit_position := (0, 0, 0); hit_normal := (0, 0, 0) |};
  GetDistance := hit_distance;
  GetPosition := hit_position;
  GetNormal := hit_normal;
  Reflect := v_reflect;
  Refract := v_refract
|}.

Definition vec (x y z : Z) : @Vector substrate := ((x, y, z) : V3).
Definition ray_of (o d : V3) : @Ray substrate := ((o, d) : V3 * V3).

(** The plane of the points whose first coordinate is [plane_x]. *)
Record Plane : Type := {
  plane_x : Z;
  plane_material : @Material substrate
}.

(** The plane is met ahead of the origin of a ray that runs along the
    first axis; the normal faces the ray. *)
Definition plane_intersection (ray : V3 * V3) (x : Z) : option Hit :=
  let '(o, d) := ray in
  let t := (x - v_x o) * v_x d in
  if 0 <? t
  then Some {| hit_distance := t;
               hit_position := v_add o (v_scale t d);
               hit_normal := (- v_x d, 0, 0) |}
  else None.

Definition plane_primitive : @Primitive substrate Plane := {|
  Geom := Z;
  GetObject := plane_x;
  GetIntersection :=
    (plane_intersection
     : @Ray substrate -> Z -> option (@Intersection substrate));
  material := plane_material;
  IsInside := fun _ _ _ => false
|}.

Definition world : @World substrate := {|
  Tri := Plane;
  Sph := Plane;
  Tri_Primitive := plane_primitive;
  Sph_Primitive := plane_primitive;
  DefineNormal := fun _ i => i
|}.

Definition plain (a0 a1 a2 : Z) (index : Z) : @Material substrate := {|
  ambient_color := vec 1 1 1;
  diffuse_color := vec 2 2 2;
  specular_color := vec 3 3 3;
  intensity := vec 4 4 4;
  specular_exponent := (1 : Z);
  refraction_index := (index : Z);
  albedo := vec a0 a1 a2
|}.

Definition matte : @Material substrate := plain 1 0 0 1.
Definition mirror : @Material substrate := plain 0 1 0 1.
(** Transparent, with a refraction ratio [1 / 2] that is [0]. *)
Definition dense_glass : @Material substrate := plain 0 0 1 2.
Definition thin_glass : @Material substrate := plain 1 1 1 1.

Definition lamp : @Light substrate :=
  {| light_position := vec 3 0 0; light_intensity := vec 1 1 1 |}.

Definition plane_at (x : Z) (m : @Material substrate) : Plane :=
  {| plane_x := x; plane_material := m |}.
Definition tri_at (x : Z) (m : @Material substrate) : @Tri substrate world :=
  (plane_at x m : Plane).
Definition sph_at (x : Z) (m : @Material substrate) : @Sph substrate world :=
  (plane_at x m : Plane).

(** A matte plane lit by a lamp. *)
Definition lit_wall : @Scene substrate world :=
  {| objects := [tri_at 10 matte]; sphere_objects := []; lights := [lamp] |}.

(** Planes of the two kinds at several distances. *)
Definition four_planes : @Scene substrate world :=
  {| objects := [tri_at 8 matte; tri_at 6 matte];
     sphere_objects := [sph_at 7 matte; sph_at 5 mirror];
     lights := [lamp] |}.

(** Two mirrors that face each other. *)
Definition two_mirrors : @Scene substrate world :=
  {| objects := [tri_at 0 mirror; tri_at 10 mirror];
     sphere_objects := [];
     lights := [] |}.

(** A scene with a lamp and nothing else. *)
Definition empty_scene : @Scene substrate world :=
  {| objects := []; sphere_objects := []; lights := [lamp] |}.

(** A plane of dense glass. *)
Definition glass_wall : @Scene substrate world :=
  {| objects := []; sphere_objects := [sph_at 10 dense_glass];
     lights := [lamp] |}.

Definition forward : @Ray substrate := ray_of (5, 0, 0) (1, 0, 0).
Definition backward : @Ray substrate := ray_of (5, 0, 0) (-1, 0, 0).

(** Where [forward] meets the plane at 10. *)
Definition wall_hit : @Intersection substrate :=
  {| hit_distance := 5; hit_position := (10, 0, 0); hit_normal := (-1, 0, 0) |}.

(** A callee that returns one colour for every ray. *)
Definition constant (c : @Vector substrate)
  : @Scene substrate world -> @Ray substrate -> RenderOptions
    -> M (@Vector substrate) :=
  fun _ _ _ => ret c.

Definition options (d : Z) (m : RenderMode) : RenderOptions :=
  {| depth := d; mode := m |}.

Definition render (fuel : nat) (s : @Scene substrate world)
    (r : @Ray substrate) (o : RenderOptions) : M (@Vector substrate) :=
  @RayCast substrate world fuel s r o.

(** A plane of each kind at the same place. *)
Definition coincident : @Scene substrate world :=
  {| objects := [tri_at 8 matte]; sphere_objects := [sph_at 8 mirror];
     lights := [lamp] |}.

(** Where [forward] meets the plane at 6. *)
Definition near_hit : @Intersection substrate :=
  {| hit_distance := 1; hit_position := (6, 0, 0); hit_normal := (-1, 0, 0) |}.

(** A studio for the render loop: the camera is the numbers of rows and
    columns, the image keeps them with its colours, every file holds the
    scene [lit_wall], and the view ray of the pixel of row [i] and column
    [j] leaves the point [(j, i, 0)] along the first axis. *)
Definition studio : @Studio substrate world := {|
  CameraOptions := (nat * nat)%type;
  Image := ((nat * nat) * list (list V3))%type;
  ReadScene := fun _ => lit_wall;
  newImage := fun camera => (camera, []);
  Height := fun image => fst (fst image);
  Width := fun image => snd (fst image);
  MakeRay := fun _ i j => ray_of (Z.of_nat j, Z.of_nat i, 0) (1, 0, 0);
  PostProc := fun image color_map _ => (fst image, color_map)
|}.

Definition small_camera : @CameraOptions substrate world studio :=
  ((2, 3)%nat : nat * nat).

(** The image of [lit_wall] in the depth mode: the plane is at 10. *)
Definition depth_image : @Image substrate world studio :=
  (((2, 3)%nat, [[(10, 10, 10); (9, 9, 9); (8, 8, 8)];
                 [(10, 10, 10); (9, 9, 9); (8, 8, 8)]])
   : (nat * nat) * list (list V3)).

End AxisWorld.

(* ================================================================== *)
(** ** Facts about the effects *)
(* ================================================================== *)

Lemma outcome_bind_Ok A B (m : M A) (k : A -> M B) a :
  outcome m = Ok a -> outcome (bind m k) = outcome (k a).
Proof.
  destruct m as [qs o]; simpl; intros ->.
  unfold bind; destruct (k a); reflexivity.
Qed.

Lemma outcome_bind_UB A B (m : M A) (k : A -> M B) f :
  outcome m = UB f -> outcome (bind m k) = UB f.
Proof.
  destruct m as [qs o]; simpl; intros ->; reflexivity.
Qed.

Lemma outcome_bind_OutOfFuel A B (m : M A) (k : A -> M B) :
  outcome m = OutOfFuel -> outcome (bind m k) = OutOfFuel.
Proof.
  destruct m as [qs o]; simpl; intros ->; reflexivity.
Qed.

Lemma bind_ext A B (m : M A) (k k' : A -> M B) :
  (forall a, k a = k' a) -> bind m k = bind m k'.
Proof.
  intros E; destruct m as [qs [a | f | ]]; simpl; try reflexivity.
  rewrite E; reflexivity.
Qed.

Lemma bind_terminates A B (m : M A) (k : A -> M B) :
  terminates m -> (forall a, terminates (k a)) -> terminates (bind m k).
Proof.
  unfold terminates; intros Hm Hk.
  destruct (outcome m) as [a | f | ] eqn:E.
  - rewrite (outcome_bind_Ok _ _ E); apply Hk.
  - rewrite (outcome_bind_UB _ _ E); discriminate.
  - contradiction.
Qed.

Lemma ret_terminates A (a : A) : terminates (ret a).
Proof. discriminate. Qed.

Lemma fault_terminates A (f : Fault) : terminates (@fault A f).
Proof. discriminate. Qed.

Lemma queries_bind A B (m : M A) (k : A -> M B) :
  queries (bind m k) =
  queries m ++ match outcome m with Ok a => queries (k a) | _ => [] end.
Proof.
  destruct m as [qs [a | f | ]]; simpl; try (rewrite app_nil_r; reflexivity).
  destruct (k a); reflexivity.
Qed.

Lemma queries_bind_le A B (m : M A) (k : A -> M B) (n : nat) :
  (forall a, List.length (queries (k a)) <= n)%nat ->
  (List.length (queries (bind m k)) <= List.length (queries m) + n)%nat.
Proof.
  intros Hk; rewrite queries_bind, List.length_app.
  destruct (outcome m) as [a | f | ]; [specialize (Hk a) | simpl | simpl]; lia.
Qed.

Lemma queries_bind_bound A B (m : M A) (k : A -> M B) (a b : nat) :
  (List.length (queries m) <= a)%nat ->
  (forall x, List.length (queries (k x)) <= b)%nat ->
  (List.length (queries (bind m k)) <= a + b)%nat.
Proof.
  intros Hm Hk; pose proof (queries_bind_le m k Hk); lia.
Qed.

Lemma bind_ret_l A B (a : A) (k : A -> M B) : bind (ret a) k = k a.
Proof. unfold bind, ret; destruct (k a); reflexivity. Qed.

Lemma bind_assoc A B C (m : M A) (k : A -> M B) (h : B -> M C) :
  bind (bind m k) h = bind m (fun a => bind (k a) h).
Proof.
  destruct m as [qs [a | f | ]]; simpl; try reflexivity.
  destruct (k a) as [qs' [b | f | ]]; simpl; try reflexivity.
  destruct (h b) as [qs'' o]; rewrite app_assoc; reflexivity.
Qed.

(* ================================================================== *)
(** ** The nearest-intersection search *)
(* ================================================================== *)

Section Search.
Context `{W : World}.

(** What the search needs of [<] on distances: both hold of [<] on
    doubles. *)
Hypothesis rlt_irrefl : forall a : scalar, rlt a a = false.
Hypothesis rlt_trans :
  forall a b c : scalar, rlt a b = true -> rlt b c = true -> rlt a c = true.

Lemma rle_refl (a : scalar) : rle a a = true.
Proof. unfold rle; rewrite rlt_irrefl; reflexivity. Qed.

Lemma rlt_rle (a b : scalar) : rlt a b = true -> rle a b = true.
Proof.
  unfold rle; intros Hab.
  destruct (rlt b a) eqn:Hba; [ | reflexivity].
  pose proof (rlt_trans _ _ _ Hab Hba) as Haa.
  rewrite rlt_irrefl in Haa; discriminate.
Qed.

Lemma rlt_rle_trans (a b c : scalar) :
  rlt a b = true -> rle b c = true -> rle a c = true.
Proof.
  unfold rle; intros Hab Hbc.
  destruct (rlt c a) eqn:Hca; [ | reflexivity].
  rewrite (rlt_trans _ _ _ Hca Hab) in Hbc; discriminate.
Qed.

Lemma hit_in_cons T (P : Primitive T) (obj : T) rest ray i :
  hit_in (obj :: rest) ray i <->
  GetIntersection ray (GetObject obj) = Some i \/ hit_in rest ray i.
Proof.
  unfold hit_in; split.
  - intros (o & [-> | Hin] & Hi); [left; exact Hi | right; eauto].
  - intros [Hi | (o & Hin & Hi)];
      [exists obj; split; [left; reflexivity | exact Hi]
      | exists o; split; [right; exact Hin | exact Hi]].
Qed.

(** A collection that the ray misses leaves both variables as they are. *)
Lemma FindNearestIntersection_loop_miss T (P : Primitive T)
    (objs : list T) ray flag best target :
  (forall i, ~ hit_in objs ray i) ->
  FindNearestIntersection_loop objs ray flag best target = (best, target).
Proof.
  induction objs as [ | obj rest IH]; intros Hmiss; simpl; [reflexivity | ].
  destruct (GetIntersection ray (GetObject obj)) as [i | ] eqn:Hi.
  - exfalso; apply (Hmiss i); apply hit_in_cons; left; exact Hi.
  - apply IH; intros i Hin; apply (Hmiss i); apply hit_in_cons; right; exact Hin.
Qed.

(** Once a candidate exists, from an earlier collection ([flag]) or from
    this one ([target_object]), the record changes only to a valid
    intersection of this collection that is strictly nearer, and it ends
    no farther than every valid intersection of the collection. *)
Lemma FindNearestIntersection_loop_prior T (P : Primitive T)
    (objs : list T) ray flag best target :
  flag || is_some target = true ->
  let r := FindNearestIntersection_loop objs ray flag best target in
  (r = (best, target) \/
   (rlt (GetDistance (fst r)) (GetDistance best) = true /\
    hit_in objs ray (fst r) /\ is_some (snd r) = true)) /\
  (forall i, hit_in objs ray i ->
     rle (GetDistance (fst r)) (GetDistance i) = true).
Proof.
  revert best target.
  induction objs as [ | obj rest IH]; intros best target Hprior; simpl.
  - split; [left; reflexivity | intros i (o & [] & _)].
  - assert (Hcond : negb flag && negb (is_some target) = false).
    { destruct flag; simpl in *; [reflexivity | rewrite Hprior; reflexivity]. }
    destruct (GetIntersection ray (GetObject obj)) as [x | ] eqn:Hx.
    + rewrite Hcond; simpl.
      destruct (rlt (GetDistance x) (GetDistance best)) eqn:Hlt.
      * destruct (IH x (Some obj)) as [Hchg Hmin];
          [destruct flag; reflexivity | ].
        set (r := FindNearestIntersection_loop rest ray flag x (Some obj)) in *.
        split.
        -- right. destruct Hchg as [E | (Hlt' & Hhit & Hsome)].
           ++ rewrite E; simpl. repeat split; [exact Hlt | ].
              apply hit_in_cons; left; exact Hx.
           ++ repeat split; [eapply rlt_trans; eassumption | | exact Hsome].
              apply hit_in_cons; right; exact Hhit.
        -- intros i Hi; apply hit_in_cons in Hi; destruct Hi as [Hi | Hi];
             [ | apply Hmin; exact Hi].
           assert (i = x) by congruence; subst i.
           destruct Hchg as [E | (Hlt' & _)];
             [rewrite E; apply rle_refl | apply rlt_rle; exact Hlt'].
      * destruct (IH best target Hprior) as [Hchg Hmin].
        set (r := FindNearestIntersection_loop rest ray flag best target) in *.
        split.
        -- destruct Hchg as [E | (Hlt' & Hhit & Hsome)]; [left; exact E | ].
           right; repeat split; [exact Hlt' | | exact Hsome].
           apply hit_in_cons; right; exact Hhit.
        -- intros i Hi; apply hit_in_cons in Hi; destruct Hi as [Hi | Hi];
             [ | apply Hmin; exact Hi].
           assert (i = x) by congruence; subst i.
           destruct Hchg as [E | (Hlt' & _)].
           ++ rewrite E; simpl; unfold rle; rewrite Hlt; reflexivity.
           ++ eapply rlt_rle_trans; [exact Hlt' | ].
              unfold rle; rewrite Hlt; reflexivity.
    + destruct (IH best target Hprior) as [Hchg Hmin].
      set (r := FindNearestIntersection_loop rest ray flag best target) in *.
      split.
      * destruct Hchg as [E | (Hlt' & Hhit & Hsome)]; [left; exact E | ].
        right; repeat split; [exact Hlt' | | exact Hsome].
        apply hit_in_cons; right; exact Hhit.
      * intros i Hi; apply hit_in_cons in Hi; destruct Hi as [Hi | Hi];
          [congruence | apply Hmin; exact Hi].
Qed.

(** With no candidate from an earlier collection, the search of a
    collection either misses everything and changes nothing, or it ends
    with a winner and a nearest valid intersection of the collection. *)
Lemma FindNearestIntersection_first T (P : Primitive T)
    (objs : list T) ray best :
  let r := FindNearestIntersection objs ray best false in
  (r = (best, None) /\ forall i, ~ hit_in objs ray i) \/
  (is_some (snd r) = true /\ hit_in objs ray (fst r) /\
   forall i, hit_in objs ray i ->
     rle (GetDistance (fst r)) (GetDistance i) = true).
Proof.
  unfold FindNearestIntersection.
  induction objs as [ | obj rest IH]; simpl.
  - left; split; [reflexivity | intros i (o & [] & _)].
  - destruct (GetIntersection ray (GetObject obj)) as [x | ] eqn:Hx; simpl.
    + right.
      destruct (@FindNearestIntersection_loop_prior T P rest ray false x
                  (Some obj) eq_refl) as [Hchg Hmin].
      set (r := FindNearestIntersection_loop rest ray false x (Some obj)) in *.
      assert (Hle : rle (GetDistance (fst r)) (GetDistance x) = true).
      { destruct Hchg as [E | (Hlt & _)];
          [rewrite E; apply rle_refl | apply rlt_rle; exact Hlt]. }
      repeat split.
      * destruct Hchg as [E | (_ & _ & Hsome)];
          [rewrite E; reflexivity | exact Hsome].
      * apply hit_in_cons.
        destruct Hchg as [E | (_ & Hhit & _)];
          [left; rewrite E; exact Hx | right; exact Hhit].
      * intros i Hi; apply hit_in_cons in Hi; destruct Hi as [Hi | Hi];
          [ | apply Hmin; exact Hi].
        assert (i = x) by congruence; subst i; exact Hle.
    + destruct IH as [(E & Hmiss) | (Hsome & Hhit & Hmin)].
      * left; split; [exact E | ].
        intros i Hi; apply hit_in_cons in Hi; destruct Hi as [Hi | Hi];
          [congruence | exact (Hmiss i Hi)].
      * right; repeat split; [exact Hsome | | ].
        -- apply hit_in_cons; right; exact Hhit.
        -- intros i Hi; apply hit_in_cons in Hi; destruct Hi as [Hi | Hi];
             [congruence | apply Hmin; exact Hi].
Qed.

(** The two searches in sequence, the flag of the second being whether the
    first found a winner: either the ray misses both collections and the
    record is the initial one, or the record is a valid intersection of
    one of the collections and no valid intersection is nearer. *)
Lemma FindNearestIntersection_twice T1 T2 (P1 : Primitive T1) (P2 : Primitive T2)
    (objs1 : list T1) (objs2 : list T2) ray best :
  let first := FindNearestIntersection objs1 ray best false in
  let second :=
    FindNearestIntersection objs2 ray (fst first) (is_some (snd first)) in
  ((forall i, ~ hit_in objs1 ray i) /\ (forall i, ~ hit_in objs2 ray i) /\
   first = (best, None) /\ second = (best, None)) \/
  ((hit_in objs1 ray (fst second) \/ hit_in objs2 ray (fst second)) /\
   forall i, hit_in objs1 ray i \/ hit_in objs2 ray i ->
     rle (GetDistance (fst second)) (GetDistance i) = true).
Proof.
  cbv zeta.
  destruct (FindNearestIntersection_first P1 objs1 ray best)
    as [(E1 & Hmiss1) | (Hsome1 & Hhit1 & Hmin1)].
  - rewrite E1; simpl.
    destruct (FindNearestIntersection_first P2 objs2 ray best)
      as [(E2 & Hmiss2) | (Hsome2 & Hhit2 & Hmin2)].
    + left; repeat split; assumption.
    + right; split; [right; exact Hhit2 | ].
      intros i [Hi | Hi]; [destruct (Hmiss1 i Hi) | apply Hmin2; exact Hi].
  - right.
    set (first := FindNearestIntersection objs1 ray best false) in *.
    destruct (@FindNearestIntersection_loop_prior T2 P2 objs2 ray
                (is_some (snd first)) (fst first) None)
      as [Hchg Hmin2]; [rewrite Hsome1; reflexivity | ].
    unfold FindNearestIntersection at 1 2 3.
    set (second := FindNearestIntersection_loop objs2 ray
                     (is_some (snd first)) (fst first) None) in *.
    destruct Hchg as [E | (Hlt & Hhit2 & _)].
    + rewrite E in *; simpl in *. split; [left; exact Hhit1 | ].
      intros i [Hi | Hi]; [apply Hmin1 | apply Hmin2]; exact Hi.
    + split; [right; exact Hhit2 | ].
      intros i [Hi | Hi]; [ | apply Hmin2; exact Hi].
      eapply rlt_rle_trans; [exact Hlt | apply Hmin1; exact Hi].
Qed.

(** C2. For two collections searched in sequence over one ray and one
    best-so-far record, the first with the flag [false] and the second
    with the flag telling whether the first found a winner, the final
    record is no farther than any valid intersection of the ray with a
    primitive of either collection; and once a candidate exists (the flag
    is set, or the collection at hand has given a winner) the record is
    replaced only by an intersection with a strictly smaller distance. *)
Theorem FindNearestIntersection_global_minimum
    T1 T2 (P1 : Primitive T1) (P2 : Primitive T2)
    (objs1 : list T1) (objs2 : list T2) (ray : Ray) (best : Intersection) :
  let first := FindNearestIntersection objs1 ray best false in
  let second :=
    FindNearestIntersection objs2 ray (fst first) (is_some (snd first)) in
  (forall i, hit_in objs1 ray i \/ hit_in objs2 ray i ->
     rle (GetDistance (fst second)) (GetDistance i) = true) /\
  (is_some (snd first) = true ->
     second = (fst first, None) \/
     rlt (GetDistance (fst second)) (GetDistance (fst first)) = true) /\
  (forall (objs : list T2) flag b target,
     flag || is_some target = true ->
     let r := FindNearestIntersection_loop objs ray flag b target in
     r = (b, target) \/ rlt (GetDistance (fst r)) (GetDistance b) = true).
Proof.
  intros first second; repeat split.
  - intros i Hi.
    destruct (FindNearestIntersection_twice P1 P2 objs1 objs2 ray best)
      as [(Hmiss1 & Hmiss2 & _) | (_ & Hmin)].
    + destruct Hi as [Hi | Hi]; [destruct (Hmiss1 i Hi) | destruct (Hmiss2 i Hi)].
    + apply Hmin; exact Hi.
  - intros Hsome.
    destruct (@FindNearestIntersection_loop_prior T2 P2 objs2 ray
                (is_some (snd first)) (fst first) None)
      as [[E | (Hlt & _)] _]; [rewrite Hsome; reflexivity | | ].
    + left; exact E.
    + right; exact Hlt.
  - intros objs flag b target Hprior.
    destruct (@FindNearestIntersection_loop_prior T2 P2 objs ray flag b target
                Hprior) as [[E | (Hlt & _)] _]; [left; exact E | right; exact Hlt].
Qed.

(** *** More on the search *)

(** The winner and the record are kept in step by the loop: a winner is a
    member of [all] and the record is its intersection with the ray. *)
Lemma FindNearestIntersection_loop_winner T (P : Primitive T)
    (all objs : list T) ray flag best0 best target :
  (forall o, In o objs -> In o all) ->
  match target with
  | Some o => In o all /\ GetIntersection ray (GetObject o) = Some best
  | None => best = best0
  end ->
  let r := FindNearestIntersection_loop objs ray flag best target in
  match snd r with
  | Some o => In o all /\ GetIntersection ray (GetObject o) = Some (fst r)
  | None => fst r = best0
  end.
Proof.
  revert best target.
  induction objs as [ | obj rest IH]; intros best target Hall Hinv; simpl.
  - exact Hinv.
  - assert (Hrest : forall o, In o rest -> In o all)
      by (intros o Ho; apply Hall; right; exact Ho).
    destruct (GetIntersection ray (GetObject obj)) as [x | ] eqn:Hx;
      [ | apply IH; assumption].
    destruct (_ || _); [ | apply IH; assumption].
    apply IH; [exact Hrest | ].
    split; [apply Hall; left; reflexivity | exact Hx].
Qed.

(** X1. The primitive that a search returns is a member of the collection,
    and the record the search leaves is the intersection of the ray with
    that primitive; when the search returns no primitive, the record is
    the one it was given.  This holds for either value of the flag. *)
Theorem FindNearestIntersection_winner T (P : Primitive T)
    (objs : list T) (ray : Ray) (best : Intersection) (flag : bool) :
  let r := FindNearestIntersection objs ray best flag in
  match snd r with
  | Some obj =>
      In obj objs /\ GetIntersection ray (GetObject obj) = Some (fst r)
  | None => fst r = best
  end.
Proof.
  unfold FindNearestIntersection.
  apply (@FindNearestIntersection_loop_winner T P objs objs ray flag best best
           None); [intros o Ho; exact Ho | reflexivity].
Qed.

Lemma FindNearestIntersection_loop_some T (P : Primitive T)
    (objs : list T) ray flag best o :
  is_some (snd (FindNearestIntersection_loop objs ray flag best (Some o)))
  = true.
Proof.
  revert best o; induction objs as [ | obj rest IH]; intros best o; simpl.
  - reflexivity.
  - destruct (GetIntersection ray (GetObject obj)); [ | apply IH].
    destruct (_ || _); apply IH.
Qed.

(** A search with the flag [false] finds a primitive when there is a hit
    and only then. *)
Lemma FindNearestIntersection_some_iff T (P : Primitive T)
    (objs : list T) (ray : Ray) (best : Intersection) :
  is_some (snd (FindNearestIntersection objs ray best false)) = true <->
  exists i, hit_in objs ray i.
Proof.
  unfold FindNearestIntersection.
  induction objs as [ | obj rest IH]; simpl.
  - split; [discriminate | intros (i & o & [] & _)].
  - destruct (GetIntersection ray (GetObject obj)) as [x | ] eqn:Hx; simpl.
    + split; [intros _ | intros _; apply FindNearestIntersection_loop_some].
      exists x; apply hit_in_cons; left; exact Hx.
    + rewrite IH; split; intros (i & Hi); exists i.
      * apply hit_in_cons; right; exact Hi.
      * apply hit_in_cons in Hi; destruct Hi as [Hi | Hi];
          [congruence | exact Hi].
Qed.

(** X2. With the flag [false] a search returns a primitive exactly when the
    ray has a valid intersection with a primitive of the collection. *)
Theorem FindNearestIntersection_finds T (P : Primitive T)
    (objs : list T) (ray : Ray) (best : Intersection) :
  is_some (snd (FindNearestIntersection objs ray best false)) = true <->
  exists i, hit_in objs ray i.
Proof. apply FindNearestIntersection_some_iff. Qed.

(** A search with the flag [true] changes nothing when no valid
    intersection is strictly nearer than the record. *)
Lemma FindNearestIntersection_not_nearer T (P : Primitive T)
    (objs : list T) (ray : Ray) (best : Intersection) :
  (forall i, hit_in objs ray i ->
     rlt (GetDistance i) (GetDistance best) = false) ->
  FindNearestIntersection objs ray best true = (best, None).
Proof.
  unfold FindNearestIntersection.
  induction objs as [ | obj rest IH]; intros Hfar; simpl; [reflexivity | ].
  destruct (GetIntersection ray (GetObject obj)) as [x | ] eqn:Hx.
  - rewrite (Hfar x) by (apply hit_in_cons; left; exact Hx); simpl.
    apply IH; intros i Hi; apply Hfar, hit_in_cons; right; exact Hi.
  - apply IH; intros i Hi; apply Hfar, hit_in_cons; right; exact Hi.
Qed.

(** X3. With the flag [true] a collection none of whose valid intersections is
    strictly nearer than the record gives no winner and leaves the record
    as it is: an intersection at the same distance does not replace it. *)
Theorem FindNearestIntersection_keeps_prior T (P : Primitive T)
    (objs : list T) (ray : Ray) (best : Intersection) :
  (forall i, hit_in objs ray i ->
     rlt (GetDistance i) (GetDistance best) = false) ->
  FindNearestIntersection objs ray best true = (best, None).
Proof. apply FindNearestIntersection_not_nearer. Qed.

End Search.

(* ================================================================== *)
(** ** The shadow tester *)
(* ================================================================== *)

Section Shadow.
Context `{W : World}.

Hypothesis rlt_irrefl : forall a : scalar, rlt a a = false.
Hypothesis rlt_trans :
  forall a b c : scalar, rlt a b = true -> rlt b c = true -> rlt a c = true.
(** A point is not farther than [1e-6] from itself. *)
Hypothesis Length_at_point :
  forall p : Vector, rgt (Length (vsub p p)) eps6 = false.

(** [IsInShadow] asks the scene for its two collections and compares the
    queried point with the record left by the two searches. *)
Lemma IsInShadow_eq (scene : Scene) (light : Light) (pos : Vector) :
  let ray := light_ray_of light pos in
  let first :=
    FindNearestIntersection (objects scene) ray default_intersection false in
  let second :=
    FindNearestIntersection (sphere_objects scene) ray (fst first)
                            (is_some (snd first)) in
  IsInShadow scene light pos =
  ([QObjects; QSphereObjects],
   Ok (rgt (Length (vsub pos (GetPosition (fst second)))) eps6)).
Proof.
  cbv zeta; unfold IsInShadow, light_ray_of; simpl.
  destruct (FindNearestIntersection (objects scene) _ _ _) as [b1 t1]; simpl.
  destruct (FindNearestIntersection (sphere_objects scene) _ _ _) as [b2 t2].
  reflexivity.
Qed.

(** C7. When the ray from the light towards the queried point meets the
    scene, the shadow tester answers for a nearest valid intersection [b]
    along that ray: shadow exactly when [b] lies farther than [1e-6] from
    the point.  So a point from which no nearest hit is farther than
    [1e-6], and in particular a point that is itself the nearest hit, is
    reported as not shadowed. *)
Theorem IsInShadow_nearest_hit (scene : Scene) (light : Light) (pos : Vector) :
  (exists i, hit_in_scene scene (light_ray_of light pos) i) ->
  (exists b,
     nearest_hit scene (light_ray_of light pos) b /\
     outcome (IsInShadow scene light pos) =
     Ok (rgt (Length (vsub pos (GetPosition b))) eps6)) /\
  ((forall b, nearest_hit scene (light_ray_of light pos) b ->
              rgt (Length (vsub pos (GetPosition b))) eps6 = false) ->
   outcome (IsInShadow scene light pos) = Ok false) /\
  ((forall b, nearest_hit scene (light_ray_of light pos) b ->
              GetPosition b = pos) ->
   outcome (IsInShadow scene light pos) = Ok false).
Proof.
  intros (i0 & Hi0).
  assert (Hex : exists b,
     nearest_hit scene (light_ray_of light pos) b /\
     outcome (IsInShadow scene light pos) =
     Ok (rgt (Length (vsub pos (GetPosition b))) eps6)).
  { rewrite IsInShadow_eq; simpl.
    destruct (FindNearestIntersection_twice rlt_irrefl rlt_trans
                Tri_Primitive Sph_Primitive (objects scene)
                (sphere_objects scene) (light_ray_of light pos)
                default_intersection)
      as [(Hmiss1 & Hmiss2 & _) | (Hhit & Hmin)].
    - destruct Hi0 as [Hi | Hi];
        [destruct (Hmiss1 i0 Hi) | destruct (Hmiss2 i0 Hi)].
    - eexists; split; [split; [exact Hhit | exact Hmin] | reflexivity]. }
  split; [exact Hex | ].
  destruct Hex as (b & Hb & E); rewrite E; split.
  - intros Hnear; rewrite (Hnear b Hb); reflexivity.
  - intros Hpoint; rewrite (Hpoint b Hb), Length_at_point; reflexivity.
Qed.

(** C9. In a scene with no primitives both searches leave the record in
    its default state, and [IsInShadow] compares the queried point with the
    position of the default record: every point farther than [1e-6] from
    that position is reported as in shadow. *)
Theorem IsInShadow_empty_scene (scene : Scene) (light : Light) (pos : Vector) :
  objects scene = [] ->
  sphere_objects scene = [] ->
  FindNearestIntersection (objects scene) (light_ray_of light pos)
    default_intersection false = (default_intersection, None) /\
  FindNearestIntersection (sphere_objects scene) (light_ray_of light pos)
    default_intersection false = (default_intersection, None) /\
  outcome (IsInShadow scene light pos) =
  Ok (rgt (Length (vsub pos (GetPosition default_intersection))) eps6) /\
  (rgt (Length (vsub pos (GetPosition default_intersection))) eps6 = true ->
   outcome (IsInShadow scene light pos) = Ok true).
Proof.
  intros Ho Hs.
  assert (E : outcome (IsInShadow scene light pos) =
              Ok (rgt (Length (vsub pos (GetPosition default_intersection)))
                      eps6)).
  { rewrite IsInShadow_eq, Ho, Hs; reflexivity. }
  rewrite Ho, Hs; repeat split; [exact E | ].
  intros Hfar; rewrite E, Hfar; reflexivity.
Qed.

End Shadow.

(* ================================================================== *)
(** ** The shading evaluator *)
(* ================================================================== *)

Section Shading.
Context `{W : World}.

(** What the albedo weighting needs of the vector operators: each holds of
    the componentwise operators on doubles (a zero keeps its value, not
    always its sign, when [0.0] is added to it). *)
Hypothesis rlt_irrefl : forall a : scalar, rlt a a = false.
Hypothesis smul_one : forall v : Vector, smul r1 v = v.
Hypothesis smul_zero_zero : smul r0 vzero = vzero.
Hypothesis vadd_zero_r : forall v : Vector, vadd v vzero = v.

Lemma outcome_GetLights (scene : Scene) :
  outcome (GetLights scene) = Ok (lights scene).
Proof. reflexivity. Qed.

Lemma outcome_IsInShadow (scene : Scene) light pos :
  exists b, outcome (IsInShadow scene light pos) = Ok b.
Proof. rewrite IsInShadow_eq; simpl; eauto. Qed.

(** The loop over the lights always yields its two sums. *)
Lemma GetColor_lights_Ok T (P : Primitive T) (scene : Scene) view_ray vi
    (obj : T) ls diffusion specular :
  exists ds,
    outcome (GetColor_lights scene view_ray vi obj ls diffusion specular)
    = Ok ds.
Proof.
  revert diffusion specular.
  induction ls as [ | light rest IH]; intros diffusion specular; simpl.
  - eexists; reflexivity.
  - destruct (outcome_IsInShadow scene light (GetPosition vi)) as (b & Hb).
    rewrite (outcome_bind_Ok _ _ Hb).
    destruct b; apply IH.
Qed.

(** The loop reads three fields of the material of the object and nothing
    else of the object. *)
Lemma GetColor_lights_material T (P : Primitive T) (scene : Scene) view_ray vi
    (obj obj' : T) ls diffusion specular :
  specular_exponent (material obj') = specular_exponent (material obj) ->
  diffuse_color (material obj') = diffuse_color (material obj) ->
  specular_color (material obj') = specular_color (material obj) ->
  GetColor_lights scene view_ray vi obj' ls diffusion specular =
  GetColor_lights scene view_ray vi obj ls diffusion specular.
Proof.
  intros He Hd Hs; revert diffusion specular.
  induction ls as [ | light rest IH]; intros diffusion specular; simpl.
  - reflexivity.
  - apply bind_ext; intros [ | ]; [apply IH | ].
    rewrite He, Hd, Hs; apply IH.
Qed.

(** C1, as the source has it.  In shaded mode, when the third component of
    the albedo is positive and [Refract] returns nothing, [GetColor]
    reaches [refracted_ray->Normalize()] with an empty optional, one line
    ahead of the test [if (refracted_ray)]: the optional is accessed, and
    no colour is produced. *)
Theorem GetColor_total_internal_reflection T (P : Primitive T)
    (self : Scene -> Ray -> RenderOptions -> M Vector)
    (scene : Scene) (view_ray : Ray) (opt : RenderOptions)
    (vi : Intersection) (obj : T) :
  mode opt = kFull ->
  rgt (vnth (albedo (material obj)) 2) r0 = true ->
  Refract (GetDirection view_ray) (GetNormal vi)
          (rdiv r1 (refraction_index (material obj))) = None ->
  outcome (GetColor self scene view_ray opt vi obj) = UB EmptyOptional.
Proof.
  intros Hmode Hpos Htir; unfold GetColor; rewrite Hmode.
  rewrite (outcome_bind_Ok _ _ (outcome_GetLights scene)).
  destruct (GetColor_lights_Ok P scene view_ray vi obj (lights scene)
              vzero vzero) as ([diffusion specular] & Hl).
  rewrite (outcome_bind_Ok _ _ Hl).
  rewrite Hpos, Htir; reflexivity.
Qed.

(** C5. In shaded mode, with [c_refr] the colour that the nested call for
    the refracted ray returns and [c_refl] the one for the reflected ray,
    the colour is base + albedo[0] * (diffuse + specular)
    + albedo[1] * reflected + refracted: the refracted term is [c_refr]
    scaled by albedo[2] when the ray is not inside and [c_refr] itself
    when it is (zero when albedo[2] is not positive), and the reflected
    term is [c_refl] only when albedo[1] is positive and the ray is not
    inside, and zero otherwise. *)
Theorem GetColor_shaded T (P : Primitive T)
    (self : Scene -> Ray -> RenderOptions -> M Vector)
    (scene : Scene) (view_ray : Ray) (opt : RenderOptions)
    (vi : Intersection) (obj : T) (c_refr c_refl : Vector) :
  let m := material obj in
  let inside := IsInside obj (GetDirection view_ray) (GetNormal vi) in
  mode opt = kFull ->
  (rgt (vnth (albedo m) 2) r0 = true ->
   exists v,
     Refract (GetDirection view_ray) (GetNormal vi)
             (rdiv r1 (refraction_index m)) = Some v /\
     outcome (self scene (refraction_ray vi v) (decrement opt)) = Ok c_refr) ->
  (rgt (vnth (albedo m) 1) r0 && negb inside = true ->
   outcome (self scene (reflection_ray vi view_ray) (decrement opt))
   = Ok c_refl) ->
  exists diffusion specular,
    outcome (GetColor_lights scene view_ray vi obj (lights scene) vzero vzero)
    = Ok (diffusion, specular) /\
    outcome (GetColor self scene view_ray opt vi obj) =
    Ok (vadd
          (vadd
             (vadd (vadd (intensity m) (ambient_color m))
                   (smul (vnth (albedo m) 0) (vadd diffusion specular)))
             (smul (vnth (albedo m) 1)
                   (if rgt (vnth (albedo m) 1) r0 && negb inside
                    then c_refl else vzero)))
          (if rgt (vnth (albedo m) 2) r0
           then if inside then c_refr else muls c_refr (vnth (albedo m) 2)
           else vzero)).
Proof.
  intros m inside Hmode Hrefr Hrefl.
  destruct (GetColor_lights_Ok P scene view_ray vi obj (lights scene)
              vzero vzero) as ([diffusion specular] & Hl).
  exists diffusion, specular; split; [exact Hl | ].
  unfold GetColor; rewrite Hmode.
  rewrite (outcome_bind_Ok _ _ (outcome_GetLights scene)).
  rewrite (outcome_bind_Ok _ _ Hl).
  fold m; fold inside.
  destruct (rgt (vnth (albedo m) 2) r0) eqn:H2.
  - destruct (Hrefr eq_refl) as (v & -> & Hc).
    fold (refraction_ray vi v).
    erewrite outcome_bind_Ok by (rewrite (outcome_bind_Ok _ _ Hc); reflexivity).
    destruct (rgt (vnth (albedo m) 1) r0 && negb inside) eqn:H1.
    + fold (reflection_ray vi view_ray).
      rewrite (outcome_bind_Ok _ _ (Hrefl eq_refl)).
      destruct inside; reflexivity.
    + destruct inside; reflexivity.
  - erewrite outcome_bind_Ok by reflexivity.
    destruct (rgt (vnth (albedo m) 1) r0 && negb inside) eqn:H1.
    + fold (reflection_ray vi view_ray).
      rewrite (outcome_bind_Ok _ _ (Hrefl eq_refl)); reflexivity.
    + reflexivity.
Qed.

(** C6. In shaded mode, for a material whose albedo is (1, 0, 0), the
    colour is base + (diffuse + specular): no nested call contributes,
    whatever [RayCast] would return, and an object whose material differs
    in the refraction index only (or that answers the inside test
    differently) is given the same colour. *)
Theorem GetColor_albedo_100 T (P : Primitive T)
    (scene : Scene) (view_ray : Ray) (opt : RenderOptions)
    (vi : Intersection) (obj : T) :
  let m := material obj in
  mode opt = kFull ->
  vnth (albedo m) 0 = r1 ->
  vnth (albedo m) 1 = r0 ->
  vnth (albedo m) 2 = r0 ->
  exists diffusion specular,
    outcome (GetColor_lights scene view_ray vi obj (lights scene) vzero vzero)
    = Ok (diffusion, specular) /\
    (forall self,
       outcome (GetColor self scene view_ray opt vi obj) =
       Ok (vadd (vadd (intensity m) (ambient_color m))
                (vadd diffusion specular))) /\
    (forall self (obj' : T),
       ambient_color (material obj') = ambient_color m ->
       diffuse_color (material obj') = diffuse_color m ->
       specular_color (material obj') = specular_color m ->
       intensity (material obj') = intensity m ->
       specular_exponent (material obj') = specular_exponent m ->
       albedo (material obj') = albedo m ->
       outcome (GetColor self scene view_ray opt vi obj') =
       outcome (GetColor self scene view_ray opt vi obj)).
Proof.
  intros m Hmode H0 H1 H2.
  destruct (GetColor_lights_Ok P scene view_ray vi obj (lights scene)
              vzero vzero) as ([diffusion specular] & Hl).
  assert (Hcolor : forall self (o : T),
    ambient_color (material o) = ambient_color m ->
    diffuse_color (material o) = diffuse_color m ->
    specular_color (material o) = specular_color m ->
    intensity (material o) = intensity m ->
    specular_exponent (material o) = specular_exponent m ->
    albedo (material o) = albedo m ->
    outcome (GetColor self scene view_ray opt vi o) =
    Ok (vadd (vadd (intensity m) (ambient_color m))
             (vadd diffusion specular))).
  { intros self o Ea Ed Es Ei Ee Eal.
    unfold GetColor; rewrite Hmode.
    rewrite (outcome_bind_Ok _ _ (outcome_GetLights scene)).
    rewrite (GetColor_lights_material P scene view_ray vi obj o
               (lights scene) vzero vzero Ee Ed Es).
    rewrite (outcome_bind_Ok _ _ Hl).
    rewrite Eal, Ei, Ea, H0, H1, H2.
    unfold rgt; rewrite rlt_irrefl; simpl.
    rewrite smul_one, smul_zero_zero, !vadd_zero_r; reflexivity. }
  exists diffusion, specular; split; [exact Hl | split].
  - intros self; apply Hcolor; reflexivity.
  - intros self obj' Ea Ed Es Ei Ee Eal.
    rewrite (Hcolor self obj' Ea Ed Es Ei Ee Eal).
    symmetry; apply Hcolor; reflexivity.
Qed.

(** *** More on the loop over the lights *)

Lemma IsInShadow_shadowed (scene : Scene) light pos :
  outcome (IsInShadow scene light pos) = Ok (shadowed scene pos light).
Proof. unfold shadowed; rewrite IsInShadow_eq; reflexivity. Qed.

Lemma IsInShadow_queries (scene : Scene) light pos :
  queries (IsInShadow scene light pos) = [QObjects; QSphereObjects].
Proof. rewrite IsInShadow_eq; reflexivity. Qed.

Lemma GetColor_lights_queries T (P : Primitive T) (scene : Scene) view_ray vi
    (obj : T) ls diffusion specular :
  List.length
    (queries (GetColor_lights scene view_ray vi obj ls diffusion specular))
  = (2 * List.length ls)%nat.
Proof.
  revert diffusion specular.
  induction ls as [ | light rest IH]; intros diffusion specular; simpl;
    [reflexivity | ].
  rewrite queries_bind, List.length_app, IsInShadow_queries, IsInShadow_shadowed.
  destruct (shadowed scene (GetPosition vi) light); rewrite IH; simpl; lia.
Qed.

(** X9. The lights from which the point is in shadow add nothing to the two
    sums: the loop yields what it yields for the list without them, and
    the sums it started from when every light is shadowed.  Each light,
    shadowed or not, costs the two scene queries of its shadow test. *)
Theorem GetColor_lights_shadowed T (P : Primitive T) (scene : Scene)
    (view_ray : Ray) (vi : Intersection) (obj : T) (ls : list Light)
    (diffusion specular : Vector) :
  outcome (GetColor_lights scene view_ray vi obj ls diffusion specular) =
  outcome (GetColor_lights scene view_ray vi obj
             (filter (fun l => negb (shadowed scene (GetPosition vi) l)) ls)
             diffusion specular) /\
  ((forall l, In l ls -> shadowed scene (GetPosition vi) l = true) ->
   outcome (GetColor_lights scene view_ray vi obj ls diffusion specular)
   = Ok (diffusion, specular)) /\
  List.length
    (queries (GetColor_lights scene view_ray vi obj ls diffusion specular))
  = (2 * List.length ls)%nat.
Proof.
  split; [ | split; [ | apply GetColor_lights_queries]].
  - revert diffusion specular.
    induction ls as [ | light rest IH]; intros diffusion specular; simpl;
      [reflexivity | ].
    rewrite (outcome_bind_Ok _ _ (IsInShadow_shadowed scene light _)).
    destruct (shadowed scene (GetPosition vi) light) eqn:Hs; simpl;
      [apply IH | ].
    rewrite (outcome_bind_Ok _ _ (IsInShadow_shadowed scene light _)), Hs.
    apply IH.
  - revert diffusion specular.
    induction ls as [ | light rest IH]; intros diffusion specular Hall; simpl;
      [reflexivity | ].
    rewrite (outcome_bind_Ok _ _ (IsInShadow_shadowed scene light _)).
    rewrite (Hall light) by (left; reflexivity).
    apply IH; intros l Hl; apply Hall; right; exact Hl.
Qed.

(** X10. The loop over a list of lights in two parts: the second part goes on
    from the sums of the first. *)
Theorem GetColor_lights_app T (P : Primitive T) (scene : Scene)
    (view_ray : Ray) (vi : Intersection) (obj : T) (ls1 ls2 : list Light)
    (diffusion specular : Vector) :
  GetColor_lights scene view_ray vi obj (ls1 ++ ls2) diffusion specular =
  ' (d, s) <- GetColor_lights scene view_ray vi obj ls1 diffusion specular ;;
  GetColor_lights scene view_ray vi obj ls2 d s.
Proof.
  revert diffusion specular.
  induction ls1 as [ | light rest IH]; intros diffusion specular.
  - cbn [app GetColor_lights]; rewrite bind_ret_l; reflexivity.
  - cbn [app GetColor_lights].
    rewrite bind_assoc; apply bind_ext; intros [ | ]; apply IH.
Qed.

End Shading.

(* ================================================================== *)
(** ** The ray-cast driver *)
(* ================================================================== *)

Section Driver.
Context `{W : World}.

Lemma GetColor_lights_terminates T (P : Primitive T) (scene : Scene)
    view_ray vi (obj : T) ls diffusion specular :
  terminates (GetColor_lights scene view_ray vi obj ls diffusion specular).
Proof.
  destruct (GetColor_lights_Ok P scene view_ray vi obj ls diffusion specular)
    as (ds & E).
  unfold terminates; rewrite E; discriminate.
Qed.

(** [GetColor] calls [RayCast] with the decremented options only. *)
Lemma GetColor_ext T (P : Primitive T) self self' (scene : Scene) view_ray opt
    vi (obj : T) :
  (forall ray, self scene ray (decrement opt) = self' scene ray (decrement opt)) ->
  GetColor self scene view_ray opt vi obj
  = GetColor self' scene view_ray opt vi obj.
Proof.
  intros Hsame; unfold GetColor.
  destruct (mode opt); try reflexivity.
  apply bind_ext; intros ls.
  apply bind_ext; intros [diffusion specular].
  rewrite !Hsame.
  destruct (rgt (vnth (albedo (material obj)) 2) r0);
    [destruct (Refract _ _ _); [rewrite Hsame | ] | ]; reflexivity.
Qed.

Lemma GetColor_terminates T (P : Primitive T) self (scene : Scene) view_ray opt
    vi (obj : T) :
  (forall ray, terminates (self scene ray (decrement opt))) ->
  terminates (GetColor self scene view_ray opt vi obj).
Proof.
  intros Hself; unfold GetColor.
  destruct (mode opt); try apply ret_terminates.
  apply bind_terminates; [discriminate | intros ls].
  apply bind_terminates; [apply GetColor_lights_terminates | ].
  intros [diffusion specular].
  apply bind_terminates.
  - destruct (rgt (vnth (albedo (material obj)) 2) r0);
      [ | apply ret_terminates].
    destruct (Refract _ _ _); [ | apply fault_terminates].
    apply bind_terminates; [apply Hself | intros c; apply ret_terminates].
  - intros refracted; apply bind_terminates.
    + destruct (_ && _); [apply Hself | apply ret_terminates].
    + intros reflected; apply ret_terminates.
Qed.

Lemma RayCast_body_ext self self' (scene : Scene) view_ray opt :
  (forall ray, self scene ray (decrement opt) = self' scene ray (decrement opt)) ->
  RayCast_body self scene view_ray opt = RayCast_body self' scene view_ray opt.
Proof.
  intros Hsame; unfold RayCast_body.
  destruct (depth opt =? 0)%Z; [reflexivity | ].
  apply bind_ext; intros objs.
  destruct (FindNearestIntersection objs _ _ _) as [b1 triangle].
  apply bind_ext; intros sphs.
  destruct (FindNearestIntersection sphs _ _ _) as [b2 [sphere | ]].
  - apply GetColor_ext; exact Hsame.
  - destruct triangle; [apply GetColor_ext; exact Hsame | reflexivity].
Qed.

Lemma RayCast_body_terminates self (scene : Scene) view_ray opt :
  (forall ray, terminates (self scene ray (decrement opt))) ->
  terminates (RayCast_body self scene view_ray opt).
Proof.
  intros Hself; unfold RayCast_body.
  destruct (depth opt =? 0)%Z; [apply ret_terminates | ].
  apply bind_terminates; [discriminate | intros objs].
  destruct (FindNearestIntersection objs _ _ _) as [b1 triangle].
  apply bind_terminates; [discriminate | intros sphs].
  destruct (FindNearestIntersection sphs _ _ _) as [b2 [sphere | ]].
  - apply GetColor_terminates; exact Hself.
  - destruct triangle;
      [apply GetColor_terminates; exact Hself | apply ret_terminates].
Qed.

Lemma RayCast_body_depth_zero self (scene : Scene) view_ray opt :
  depth opt = 0%Z -> RayCast_body self scene view_ray opt = ret vzero.
Proof. intros E; unfold RayCast_body; rewrite E; reflexivity. Qed.

(** The activation at a depth that is not zero, when the two searches end
    with a primitive of the first collection and none of the second. *)
Lemma RayCast_body_triangle self (scene : Scene) view_ray opt b1 t b2 :
  depth opt <> 0%Z ->
  FindNearestIntersection (objects scene) view_ray default_intersection false
  = (b1, Some t) ->
  FindNearestIntersection (sphere_objects scene) view_ray b1 true
  = (b2, None) ->
  outcome (RayCast_body self scene view_ray opt) =
  outcome (GetColor self scene view_ray opt (DefineNormal t b2) t).
Proof.
  intros Hd E1 E2; unfold RayCast_body.
  destruct (Z.eqb_spec (depth opt) 0) as [E | _]; [contradiction | ].
  unfold GetObjects, GetSphereObjects; simpl.
  rewrite E1; simpl; rewrite E2.
  destruct (GetColor self scene view_ray opt (DefineNormal t b2) t);
    reflexivity.
Qed.

(** The same, when they end with a primitive of the second collection. *)
Lemma RayCast_body_sphere self (scene : Scene) view_ray opt b1 t b2 s :
  depth opt <> 0%Z ->
  FindNearestIntersection (objects scene) view_ray default_intersection false
  = (b1, t) ->
  FindNearestIntersection (sphere_objects scene) view_ray b1 (is_some t)
  = (b2, Some s) ->
  outcome (RayCast_body self scene view_ray opt) =
  outcome (GetColor self scene view_ray opt b2 s).
Proof.
  intros Hd E1 E2; unfold RayCast_body.
  destruct (Z.eqb_spec (depth opt) 0) as [E | _]; [contradiction | ].
  unfold GetObjects, GetSphereObjects; simpl.
  rewrite E1; simpl; rewrite E2.
  destruct (GetColor self scene view_ray opt b2 s); reflexivity.
Qed.




(** C4. With the remaining depth equal to zero, [RayCast] returns the zero
    colour for every scene and ray and makes no query of the scene: no
    collection of primitives is fetched or searched, and no light. *)
Theorem RayCast_depth_zero (scene : Scene) (view_ray : Ray)
    (opt : RenderOptions) :
  depth opt = 0%Z ->
  forall fuel,
    outcome (RayCast (S fuel) scene view_ray opt) = Ok vzero /\
    queries (RayCast (S fuel) scene view_ray opt) = [].
Proof.
  intros E fuel; simpl.
  rewrite RayCast_body_depth_zero by exact E; split; reflexivity.
Qed.

(** C8. A ray that has no valid intersection with a primitive of either
    collection is given the zero colour by [RayCast] at every positive
    depth. *)
Theorem RayCast_miss (scene : Scene) (view_ray : Ray) (opt : RenderOptions) :
  (forall i, ~ hit_in_scene scene view_ray i) ->
  (0 < depth opt)%Z ->
  forall fuel, outcome (RayCast (S fuel) scene view_ray opt) = Ok vzero.
Proof.
  intros Hmiss Hd fuel; simpl; unfold RayCast_body.
  destruct (depth opt =? 0)%Z eqn:E; [apply Z.eqb_eq in E; lia | ].
  unfold GetObjects, GetSphereObjects, FindNearestIntersection; simpl.
  rewrite FindNearestIntersection_loop_miss
    by (intros i Hi; apply (Hmiss i); left; exact Hi).
  simpl.
  rewrite FindNearestIntersection_loop_miss
    by (intros i Hi; apply (Hmiss i); right; exact Hi).
  reflexivity.
Qed.

(** *** More on the driver *)

(** X4. A primitive of the second collection is shaded only when it is
    strictly nearer than the nearest primitive of the first: when the
    first search finds [t] and no valid intersection with the second
    collection is strictly nearer, [t] is the visible object, also when a
    primitive of the second collection is met at the same distance. *)
Theorem RayCast_prefers_triangle self (scene : Scene) (view_ray : Ray)
    (opt : RenderOptions) (b1 : Intersection) (t : Tri) :
  depth opt <> 0%Z ->
  FindNearestIntersection (objects scene) view_ray default_intersection false
  = (b1, Some t) ->
  (forall i, hit_in (sphere_objects scene) view_ray i ->
     rlt (GetDistance i) (GetDistance b1) = false) ->
  outcome (RayCast_body self scene view_ray opt) =
  outcome (GetColor self scene view_ray opt (DefineNormal t b1) t).
Proof.
  intros Hd E1 Hfar.
  apply RayCast_body_triangle with (b1 := b1); [exact Hd | exact E1 | ].
  apply FindNearestIntersection_not_nearer; exact Hfar.
Qed.

Lemma GetColor_no_callee T (P : Primitive T) self self' (scene : Scene)
    view_ray opt vi (obj : T) :
  mode opt <> kFull ->
  GetColor self scene view_ray opt vi obj
  = GetColor self' scene view_ray opt vi obj.
Proof.
  intros Hmode; unfold GetColor.
  destruct (mode opt); [reflexivity | reflexivity | contradiction].
Qed.

Lemma RayCast_body_no_callee self self' (scene : Scene) view_ray opt :
  mode opt <> kFull ->
  RayCast_body self scene view_ray opt = RayCast_body self' scene view_ray opt.
Proof.
  intros Hmode; unfold RayCast_body.
  destruct (depth opt =? 0)%Z; [reflexivity | ].
  apply bind_ext; intros objs.
  destruct (FindNearestIntersection objs _ _ _) as [b1 triangle].
  apply bind_ext; intros sphs.
  destruct (FindNearestIntersection sphs _ _ _) as [b2 [sphere | ]].
  - apply GetColor_no_callee; exact Hmode.
  - destruct triangle; [apply GetColor_no_callee; exact Hmode | reflexivity].
Qed.

(** X6. In the depth and normal modes [RayCast] makes no nested call: one
    activation gives the result for every depth, a negative one too, with
    the two queries of its searches at most. *)
Theorem RayCast_visualization_modes (scene : Scene) (view_ray : Ray)
    (opt : RenderOptions) :
  mode opt <> kFull ->
  forall fuel,
    RayCast (S fuel) scene view_ray opt = RayCast 1 scene view_ray opt /\
    terminates (RayCast 1 scene view_ray opt) /\
    (List.length (queries (RayCast 1 scene view_ray opt)) <= 2)%nat.
Proof.
  intros Hmode fuel; split; [ | split].
  - simpl; apply RayCast_body_no_callee; exact Hmode.
  - simpl.
    rewrite (@RayCast_body_no_callee _ (fun _ _ _ => ret vzero) scene view_ray
               opt Hmode).
    apply RayCast_body_terminates; intros ray; apply ret_terminates.
  - simpl; unfold RayCast_body.
    destruct (depth opt =? 0)%Z; [simpl; lia | ].
    unfold GetObjects, GetSphereObjects; simpl.
    destruct (FindNearestIntersection (objects scene) _ _ _) as [b1 triangle].
    simpl.
    destruct (FindNearestIntersection (sphere_objects scene) _ _ _)
      as [b2 [sphere | ]].
    + unfold GetColor; destruct (mode opt);
        [simpl; lia | simpl; lia | contradiction].
    + destruct triangle; [ | simpl; lia].
      unfold GetColor; destruct (mode opt);
        [simpl; lia | simpl; lia | contradiction].
Qed.

Lemma RayCast_fuel_irrelevant_within (n : nat) :
  forall (scene : Scene) view_ray opt fuel fuel',
    (0 <= depth opt <= Z.of_nat n)%Z -> (n < fuel)%nat -> (n < fuel')%nat ->
    RayCast fuel scene view_ray opt = RayCast fuel' scene view_ray opt.
Proof.
  induction n as [ | n IH]; intros scene view_ray opt fuel fuel' Hd Hf Hf';
    (destruct fuel as [ | fuel]; [lia | ]);
    (destruct fuel' as [ | fuel']; [lia | ]); simpl.
  - rewrite !RayCast_body_depth_zero by lia; reflexivity.
  - destruct (Z.eq_dec (depth opt) 0) as [E | NE].
    + rewrite !RayCast_body_depth_zero by exact E; reflexivity.
    + apply RayCast_body_ext; intros ray.
      apply IH; [simpl; lia | lia | lia].
Qed.

(** X8. From a depth that is not negative, what [RayCast] returns does not
    depend on the bound on the nesting, once the bound exceeds the
    depth. *)
Theorem RayCast_fuel_irrelevant (scene : Scene) (view_ray : Ray)
    (opt : RenderOptions) (fuel fuel' : nat) :
  (0 <= depth opt)%Z ->
  (Z.to_nat (depth opt) < fuel)%nat ->
  (Z.to_nat (depth opt) < fuel')%nat ->
  RayCast fuel scene view_ray opt = RayCast fuel' scene view_ray opt.
Proof.
  intros Hd Hf Hf'.
  apply (@RayCast_fuel_irrelevant_within (Z.to_nat (depth opt)));
    [lia | exact Hf | exact Hf'].
Qed.

Lemma GetColor_queries_le T (P : Primitive T) self (scene : Scene) view_ray
    opt vi (obj : T) (bound : nat) :
  (forall ray,
     List.length (queries (self scene ray (decrement opt))) <= bound)%nat ->
  (List.length (queries (GetColor self scene view_ray opt vi obj))
   <= 1 + 2 * List.length (lights scene) + 2 * bound)%nat.
Proof.
  intros Hself; unfold GetColor.
  destruct (mode opt); [simpl; lia | simpl; lia | ].
  rewrite queries_bind, List.length_app, outcome_GetLights.
  change (List.length (queries (GetLights scene))) with 1%nat.
  match goal with
  | |- (1 + ?x <= _)%nat =>
      assert (x <= 2 * List.length (lights scene) + (bound + (bound + 0)))%nat;
      [ | lia]
  end.
  apply queries_bind_bound;
    [rewrite GetColor_lights_queries; lia | intros [diffusion specular]].
  apply queries_bind_bound.
  - destruct (rgt _ _); [ | simpl; lia].
    destruct (Refract _ _ _) as [v | ]; [ | simpl; lia].
    eapply Nat.le_trans;
      [apply queries_bind_bound with (a := bound) (b := 0%nat) | lia];
      [apply Hself | intros c; simpl; lia].
  - intros refracted. apply queries_bind_bound.
    + destruct (_ && _); [apply Hself | simpl; lia].
    + intros reflected; simpl; lia.
Qed.

Lemma RayCast_body_queries_le self (scene : Scene) view_ray opt (bound : nat) :
  (forall ray,
     List.length (queries (self scene ray (decrement opt))) <= bound)%nat ->
  (List.length (queries (RayCast_body self scene view_ray opt))
   <= 3 + 2 * List.length (lights scene) + 2 * bound)%nat.
Proof.
  intros Hself; unfold RayCast_body.
  destruct (depth opt =? 0)%Z; [simpl; lia | ].
  replace (3 + 2 * List.length (lights scene) + 2 * bound)%nat
    with (1 + (1 + (1 + 2 * List.length (lights scene) + 2 * bound)))%nat
    by lia.
  apply queries_bind_bound; [simpl; lia | intros objs].
  destruct (FindNearestIntersection objs _ _ _) as [b1 triangle].
  apply queries_bind_bound; [simpl; lia | intros sphs].
  destruct (FindNearestIntersection sphs _ _ _) as [b2 [sphere | ]].
  - apply GetColor_queries_le; exact Hself.
  - destruct triangle; [apply GetColor_queries_le; exact Hself | ].
    simpl; lia.
Qed.

(** X7. From a depth [d] that is not negative, [RayCast] makes at most
    [(3 + 2 * n) * (2 ^ d - 1)] queries of a scene with [n] lights. *)
Theorem RayCast_queries_bounded (scene : Scene) (view_ray : Ray)
    (opt : RenderOptions) (fuel : nat) :
  (0 <= depth opt)%Z ->
  (List.length (queries (RayCast fuel scene view_ray opt))
   <= query_bound (List.length (lights scene)) (Z.to_nat (depth opt)))%nat.
Proof.
  revert view_ray opt.
  induction fuel as [ | fuel IH]; intros view_ray opt Hd; simpl; [lia | ].
  destruct (Z.eq_dec (depth opt) 0) as [E | NE].
  - rewrite RayCast_body_depth_zero by exact E; simpl; lia.
  - eapply Nat.le_trans.
    + apply RayCast_body_queries_le
        with (bound := query_bound (List.length (lights scene))
                                   (Z.to_nat (depth opt - 1))).
      intros ray; apply IH; simpl; lia.
    + unfold query_bound.
      replace (Z.to_nat (depth opt)) with (S (Z.to_nat (depth opt - 1)))
        by lia.
      rewrite Nat.pow_succ_r'.
      assert (1 <= 2 ^ Z.to_nat (depth opt - 1))%nat
        by (apply Nat.neq_0_lt_0, Nat.pow_nonzero; lia).
      nia.
Qed.

(** What the depth mode needs of [<] on distances and of [DefineNormal],
    which sets the normal of the record and keeps its distance. *)
Hypothesis rlt_irrefl : forall a : scalar, rlt a a = false.
Hypothesis rlt_trans :
  forall a b c : scalar, rlt a b = true -> rlt b c = true -> rlt a c = true.
Hypothesis DefineNormal_distance :
  forall (t : Tri) (i : Intersection),
    GetDistance (DefineNormal t i) = GetDistance i.

(** X5. In the depth mode, at any depth other than zero, a ray that meets the
    scene is given the distance of a nearest valid intersection, in each of
    the three channels. *)
Theorem RayCast_depth_mode (scene : Scene) (view_ray : Ray)
    (opt : RenderOptions) (fuel : nat) :
  mode opt = kDepth ->
  depth opt <> 0%Z ->
  (exists i, hit_in_scene scene view_ray i) ->
  exists b,
    nearest_hit scene view_ray b /\
    outcome (RayCast (S fuel) scene view_ray opt) =
    Ok (mkVector (GetDistance b) (GetDistance b) (GetDistance b)).
Proof.
  intros Hmode Hd (i0 & Hi0).
  destruct (FindNearestIntersection_twice rlt_irrefl rlt_trans
              Tri_Primitive Sph_Primitive (objects scene)
              (sphere_objects scene) view_ray default_intersection)
    as [(Hmiss1 & Hmiss2 & _) | (Hhit & Hmin)].
  { destruct Hi0 as [Hi | Hi];
      [destruct (Hmiss1 i0 Hi) | destruct (Hmiss2 i0 Hi)]. }
  pose proof (FindNearestIntersection_some_iff Tri_Primitive (objects scene)
                view_ray default_intersection) as Hfind1.
  destruct (FindNearestIntersection (objects scene) view_ray
              default_intersection false) as [b1 triangle] eqn:E1.
  simpl in Hhit, Hmin, Hfind1.
  destruct (FindNearestIntersection (sphere_objects scene) view_ray b1
              (is_some triangle)) as [b2 sphere] eqn:E2.
  simpl in Hhit, Hmin.
  exists b2; split; [split; [exact Hhit | exact Hmin] | ].
  destruct sphere as [s | ].
  - simpl RayCast.
    rewrite (RayCast_body_sphere (RayCast fuel) scene view_ray opt Hd E1 E2).
    unfold GetColor; rewrite Hmode; reflexivity.
  - destruct triangle as [t | ].
    + simpl RayCast.
      rewrite (RayCast_body_triangle (RayCast fuel) scene view_ray opt Hd E1 E2).
      unfold GetColor; rewrite Hmode; simpl.
      rewrite DefineNormal_distance; reflexivity.
    + exfalso.
      pose proof (FindNearestIntersection_some_iff Sph_Primitive
                    (sphere_objects scene) view_ray b1) as Hfind2.
      simpl in E2; rewrite E2 in Hfind2; simpl in Hfind2.
      destruct Hi0 as [Hi | Hi].
      * destruct Hfind1 as [_ Hfind1].
        specialize (Hfind1 (ex_intro _ i0 Hi)); discriminate.
      * destruct Hfind2 as [_ Hfind2].
        specialize (Hfind2 (ex_intro _ i0 Hi)); discriminate.
Qed.

Lemma bind_ext_Ok A B (m : M A) (k k' : A -> M B) (a : A) :
  outcome m = Ok a -> k a = k' a -> bind m k = bind m k'.
Proof.
  destruct m as [qs o]; simpl; intros -> E; rewrite E; reflexivity.
Qed.

(** An object that neither reflects nor refracts is shaded with no nested
    call. *)
Lemma GetColor_no_bounce T (P : Primitive T) self self' (scene : Scene)
    view_ray opt vi (obj : T) :
  rgt (vnth (albedo (material obj)) 1) r0 = false ->
  rgt (vnth (albedo (material obj)) 2) r0 = false ->
  GetColor self scene view_ray opt vi obj
  = GetColor self' scene view_ray opt vi obj.
Proof.
  intros H1 H2; unfold GetColor; rewrite H1, H2; reflexivity.
Qed.

(** X24. In a scene none of whose materials reflects or refracts (the
    second and third components of every albedo are not positive)
    [RayCast] makes no nested call: one activation gives the result at
    every depth, a negative one too, in the shaded mode as in the
    others. *)
Theorem RayCast_no_bounce (scene : Scene) (view_ray : Ray)
    (opt : RenderOptions) :
  (forall t, In t (objects scene) ->
     rgt (vnth (albedo (material t)) 1) r0 = false /\
     rgt (vnth (albedo (material t)) 2) r0 = false) ->
  (forall s, In s (sphere_objects scene) ->
     rgt (vnth (albedo (material s)) 1) r0 = false /\
     rgt (vnth (albedo (material s)) 2) r0 = false) ->
  forall fuel,
    RayCast (S fuel) scene view_ray opt = RayCast 1 scene view_ray opt /\
    terminates (RayCast 1 scene view_ray opt).
Proof.
  intros Htri Hsph.
  assert (Hsame : forall self self',
            RayCast_body self scene view_ray opt
            = RayCast_body self' scene view_ray opt).
  { intros self self'; unfold RayCast_body.
    destruct (depth opt =? 0)%Z; [reflexivity | ].
    apply (@bind_ext_Ok _ _ _ _ _ (objects scene)); [reflexivity | ].
    pose proof (@FindNearestIntersection_loop_winner _ Tri Tri_Primitive
                  (objects scene) (objects scene) view_ray false
                  default_intersection default_intersection None
                  (fun o Ho => Ho) eq_refl) as Hw1.
    fold (FindNearestIntersection (objects scene) view_ray
            default_intersection false) in Hw1.
    destruct (FindNearestIntersection (objects scene) view_ray
                default_intersection false) as [b1 triangle].
    cbn [fst snd] in Hw1.
    apply (@bind_ext_Ok _ _ _ _ _ (sphere_objects scene)); [reflexivity | ].
    pose proof (@FindNearestIntersection_loop_winner _ Sph Sph_Primitive
                  (sphere_objects scene) (sphere_objects scene) view_ray
                  (is_some triangle) b1 b1 None (fun o Ho => Ho) eq_refl)
      as Hw2.
    fold (FindNearestIntersection (sphere_objects scene) view_ray b1
            (is_some triangle)) in Hw2.
    destruct (FindNearestIntersection (sphere_objects scene) view_ray b1
                (is_some triangle)) as [b2 [sphere | ]].
    - cbn [fst snd] in Hw2; destruct Hw2 as [Hin _].
      destruct (Hsph sphere Hin) as [H1 H2].
      apply GetColor_no_bounce; assumption.
    - destruct triangle as [t | ]; [ | reflexivity].
      destruct Hw1 as [Hin _]; destruct (Htri t Hin) as [H1 H2].
      apply GetColor_no_bounce; assumption. }
  intros fuel; split; [simpl; apply Hsame | ].
  simpl; rewrite (Hsame _ (fun _ _ _ => ret vzero)).
  apply RayCast_body_terminates; intros ray; apply ret_terminates.
Qed.

End Driver.

(* ================================================================== *)
(** ** The render loop: facts *)
(* ================================================================== *)

Lemma outcome_bind_inv A B (m : M A) (k : A -> M B) (b : B) :
  outcome (bind m k) = Ok b ->
  exists a, outcome m = Ok a /\ outcome (k a) = Ok b.
Proof.
  destruct (outcome m) as [a | f | ] eqn:E; intros Hb.
  - exists a; split; [reflexivity | ].
    rewrite (outcome_bind_Ok _ _ E) in Hb; exact Hb.
  - rewrite (outcome_bind_UB _ _ E) in Hb; discriminate.
  - rewrite (outcome_bind_OutOfFuel _ _ E) in Hb; discriminate.
Qed.

Lemma length_set_nth A (i : nat) (x : A) (l : list A) :
  List.length (set_nth i x l) = List.length l.
Proof.
  revert i; induction l as [ | h t IH]; intros [ | i]; simpl;
    try reflexivity.
  rewrite IH; reflexivity.
Qed.

Lemma nth_set_nth_eq A (i : nat) (x d : A) (l : list A) :
  (i < List.length l)%nat -> nth i (set_nth i x l) d = x.
Proof.
  revert i; induction l as [ | h t IH]; intros [ | i] Hi; simpl in *;
    try lia; [reflexivity | apply IH; lia].
Qed.

Lemma nth_set_nth_neq A (i k : nat) (x d : A) (l : list A) :
  i <> k -> nth k (set_nth i x l) d = nth k l d.
Proof.
  revert i k; induction l as [ | h t IH]; intros [ | i] [ | k] Hik; simpl;
    try reflexivity; [contradiction | apply IH; lia].
Qed.

Lemma set_nth_repeat A (i n : nat) (x : A) :
  set_nth i x (repeat x n) = repeat x n.
Proof.
  revert i; induction n as [ | n IH]; intros [ | i]; simpl;
    try reflexivity.
  rewrite IH; reflexivity.
Qed.

Section RenderFacts.
Context `{St : Studio}.

Lemma map_shape_repeat (h w : nat) :
  map_shape (repeat (repeat vzero w) h) h w.
Proof.
  split; [apply repeat_length | intros i Hi].
  rewrite (nth_indep _ _ (repeat vzero w)) by (rewrite repeat_length; exact Hi).
  rewrite nth_repeat; apply repeat_length.
Qed.

Lemma map_shape_set_pixel color_map h w i j v :
  map_shape color_map h w -> map_shape (set_pixel color_map i j v) h w.
Proof.
  intros [Hh Hw]; unfold set_pixel; split.
  - rewrite length_set_nth; exact Hh.
  - intros k Hk. destruct (Nat.eq_dec i k) as [-> | Hik].
    + rewrite nth_set_nth_eq by lia.
      rewrite length_set_nth; apply Hw; exact Hk.
    + rewrite nth_set_nth_neq by exact Hik; apply Hw; exact Hk.
Qed.

Lemma pixel_set_pixel_eq color_map h w i j v :
  map_shape color_map h w -> (i < h)%nat -> (j < w)%nat ->
  pixel (set_pixel color_map i j v) i j = v.
Proof.
  intros [Hh Hw] Hi Hj; unfold pixel, set_pixel.
  rewrite nth_set_nth_eq by lia.
  apply nth_set_nth_eq; rewrite Hw by exact Hi; exact Hj.
Qed.

Lemma pixel_set_pixel_neq color_map h w i j i' j' v :
  map_shape color_map h w -> (i' < h)%nat -> (i, j) <> (i', j') ->
  pixel (set_pixel color_map i j v) i' j' = pixel color_map i' j'.
Proof.
  intros [Hh Hw] Hi Hneq; unfold pixel, set_pixel.
  destruct (Nat.eq_dec i i') as [-> | Hii].
  - rewrite nth_set_nth_eq by lia.
    apply nth_set_nth_neq; intros ->; apply Hneq; reflexivity.
  - rewrite nth_set_nth_neq by exact Hii; reflexivity.
Qed.

(** The inner loop sets the pixels of its row from [j] on to the colours of
    their rays, and leaves every other pixel as it is. *)
Lemma Render_row_pixels fuel (scene : Scene) cam opts h w i todo :
  forall j color_map color_map',
    map_shape color_map h w -> (i < h)%nat -> (j + todo <= w)%nat ->
    outcome (Render_row fuel scene cam opts i todo j color_map)
    = Ok color_map' ->
    map_shape color_map' h w /\
    (forall j', (j <= j' < j + todo)%nat ->
       outcome (RayCast fuel scene (MakeRay cam i j') opts)
       = Ok (pixel color_map' i j')) /\
    (forall i' j', (i' < h)%nat -> ~ (i' = i /\ (j <= j' < j + todo)%nat) ->
       pixel color_map' i' j' = pixel color_map i' j').
Proof.
  induction todo as [ | todo IH]; intros j cm cm' Hshape Hi Hj Hout; simpl in Hout.
  - injection Hout as <-.
    split; [exact Hshape | split; [intros j' Hj'; lia | reflexivity]].
  - apply outcome_bind_inv in Hout; destruct Hout as (v & Hv & Hout).
    destruct (IH (S j) (set_pixel cm i j v) cm'
                (map_shape_set_pixel i j v Hshape) Hi ltac:(lia) Hout)
      as (Hshape' & Hset & Hkeep).
    split; [exact Hshape' | split].
    + intros j' Hj'. destruct (Nat.eq_dec j' j) as [-> | Hne].
      * rewrite Hkeep by (try exact Hi; lia).
        rewrite (pixel_set_pixel_eq v Hshape Hi) by lia; exact Hv.
      * apply Hset; lia.
    + intros i' j' Hi' Hout'.
      rewrite Hkeep by (try exact Hi'; lia).
      apply (pixel_set_pixel_neq v Hshape Hi').
      intros Heq; injection Heq as -> ->; apply Hout'; lia.
Qed.

Lemma Render_rows_pixels fuel (scene : Scene) cam opts h w todo :
  forall i color_map color_map',
    map_shape color_map h w -> (i + todo <= h)%nat ->
    outcome (Render_rows fuel scene cam opts w todo i color_map)
    = Ok color_map' ->
    map_shape color_map' h w /\
    (forall i' j', (i <= i' < i + todo)%nat -> (j' < w)%nat ->
       outcome (RayCast fuel scene (MakeRay cam i' j') opts)
       = Ok (pixel color_map' i' j')) /\
    (forall i' j', (i' < i)%nat ->
       pixel color_map' i' j' = pixel color_map i' j').
Proof.
  induction todo as [ | todo IH]; intros i cm cm' Hshape Hi Hout; simpl in Hout.
  - injection Hout as <-.
    split; [exact Hshape | split; [intros i' j' Hi'; lia | reflexivity]].
  - apply outcome_bind_inv in Hout; destruct Hout as (cm1 & Hrow & Hout).
    destruct (@Render_row_pixels fuel scene cam opts h w i w 0 cm cm1 Hshape
                ltac:(lia) ltac:(lia) Hrow) as (Hshape1 & Hset1 & Hkeep1).
    destruct (IH (S i) cm1 cm' Hshape1 ltac:(lia) Hout)
      as (Hshape' & Hset & Hkeep).
    split; [exact Hshape' | split].
    + intros i' j' Hi' Hj'. destruct (Nat.eq_dec i' i) as [-> | Hne].
      * rewrite Hkeep by lia. apply Hset1; lia.
      * apply Hset; lia.
    + intros i' j' Hi'.
      rewrite Hkeep by lia.
      apply Hkeep1; lia.
Qed.

(** X11. When [Render] returns an image, it is the post-processing of a colour
    map with the rows and columns of the image in which every pixel is the
    colour that [RayCast] gives to the view ray of that pixel, with the
    options of the render: no pixel depends on another. *)
Theorem Render_pixels (fuel : nat) (filename : string)
    (camera_options : CameraOptions) (render_options : RenderOptions)
    (image : Image) :
  outcome (Render fuel filename camera_options render_options) = Ok image ->
  exists color_map,
    image = PostProc (newImage camera_options) color_map render_options /\
    map_shape color_map (Height (newImage camera_options))
              (Width (newImage camera_options)) /\
    forall i j,
      (i < Height (newImage camera_options))%nat ->
      (j < Width (newImage camera_options))%nat ->
      outcome (RayCast fuel (ReadScene filename)
                       (MakeRay camera_options i j) render_options)
      = Ok (pixel color_map i j).
Proof.
  unfold Render; intros Hout.
  apply outcome_bind_inv in Hout; destruct Hout as (cm & Hrows & Hout).
  injection Hout as <-.
  destruct (@Render_rows_pixels fuel (ReadScene filename) camera_options
              render_options (Height (newImage camera_options))
              (Width (newImage camera_options))
              (Height (newImage camera_options)) 0 _ cm
              (map_shape_repeat _ _) ltac:(lia) Hrows)
    as (Hshape & Hset & _).
  exists cm; split; [reflexivity | split; [exact Hshape | ]].
  intros i j Hi Hj; apply Hset; lia.
Qed.

Lemma Render_row_depth_zero fuel (scene : Scene) cam opts h w i todo j :
  depth opts = 0%Z -> (i < h)%nat ->
  Render_row (S fuel) scene cam opts i todo j (repeat (repeat vzero w) h)
  = ret (repeat (repeat vzero w) h).
Proof.
  intros Hd Hi; revert j; induction todo as [ | todo IH]; intros j;
    [reflexivity | ].
  cbn [Render_row RayCast].
  rewrite RayCast_body_depth_zero by exact Hd.
  rewrite bind_ret_l.
  replace (set_pixel (repeat (repeat vzero w) h) i j vzero)
    with (repeat (repeat vzero w) h); [apply IH | ].
  unfold set_pixel.
  rewrite (nth_indep _ _ (repeat vzero w)) by (rewrite repeat_length; exact Hi).
  rewrite nth_repeat, set_nth_repeat, set_nth_repeat; reflexivity.
Qed.

Lemma Render_rows_depth_zero fuel (scene : Scene) cam opts h w todo :
  depth opts = 0%Z ->
  forall i, (i + todo <= h)%nat ->
    Render_rows (S fuel) scene cam opts w todo i (repeat (repeat vzero w) h)
    = ret (repeat (repeat vzero w) h).
Proof.
  intros Hd; induction todo as [ | todo IH]; intros i Hi; [reflexivity | ].
  cbn [Render_rows].
  rewrite Render_row_depth_zero by (try exact Hd; lia).
  rewrite bind_ret_l; apply IH; lia.
Qed.

(** X12. With the depth of the options equal to zero, [Render] makes no query of
    the scene and post-processes a colour map of zero colours, whatever the
    scene and the camera are. *)
Theorem Render_depth_zero (fuel : nat) (filename : string)
    (camera_options : CameraOptions) (render_options : RenderOptions) :
  depth render_options = 0%Z ->
  Render (S fuel) filename camera_options render_options =
  ret (PostProc (newImage camera_options)
                (repeat (repeat vzero (Width (newImage camera_options)))
                        (Height (newImage camera_options)))
                render_options).
Proof.
  intros Hd; unfold Render.
  rewrite Render_rows_depth_zero by (try exact Hd; lia).
  rewrite bind_ret_l; reflexivity.
Qed.

Lemma Render_row_returns fuel (scene : Scene) cam opts i todo :
  forall j color_map,
    (forall j', (j <= j' < j + todo)%nat ->
       exists c, outcome (RayCast fuel scene (MakeRay cam i j') opts) = Ok c) ->
    exists color_map',
      outcome (Render_row fuel scene cam opts i todo j color_map)
      = Ok color_map'.
Proof.
  induction todo as [ | todo IH]; intros j cm Hall; simpl.
  - eexists; reflexivity.
  - destruct (Hall j ltac:(lia)) as (c & Hc).
    rewrite (outcome_bind_Ok _ _ Hc).
    apply IH; intros j' Hj'; apply Hall; lia.
Qed.

Lemma Render_rows_returns fuel (scene : Scene) cam opts w todo :
  forall i color_map,
    (forall i' j', (i <= i' < i + todo)%nat -> (j' < w)%nat ->
       exists c, outcome (RayCast fuel scene (MakeRay cam i' j') opts) = Ok c) ->
    exists color_map',
      outcome (Render_rows fuel scene cam opts w todo i color_map)
      = Ok color_map'.
Proof.
  induction todo as [ | todo IH]; intros i cm Hall; simpl.
  - eexists; reflexivity.
  - destruct (@Render_row_returns fuel scene cam opts i w 0 cm) as (cm1 & H1).
    { intros j' Hj'; apply Hall; lia. }
    rewrite (outcome_bind_Ok _ _ H1).
    apply IH; intros i' j' Hi' Hj'; apply Hall; lia.
Qed.

(** [Render] returns an image as soon as [RayCast] returns a colour for
    the view ray of every pixel. *)
Theorem Render_returns (fuel : nat) (filename : string)
    (camera_options : CameraOptions) (render_options : RenderOptions) :
  (forall i j,
     (i < Height (newImage camera_options))%nat ->
     (j < Width (newImage camera_options))%nat ->
     exists c,
       outcome (RayCast fuel (ReadScene filename)
                        (MakeRay camera_options i j) render_options) = Ok c) ->
  exists image,
    outcome (Render fuel filename camera_options render_options) = Ok image.
Proof.
  intros Hall; unfold Render.
  destruct (@Render_rows_returns fuel (ReadScene filename) camera_options
              render_options (Width (newImage camera_options))
              (Height (newImage camera_options)) 0
              (repeat (repeat vzero (Width (newImage camera_options)))
                      (Height (newImage camera_options))))
    as (cm & Hcm).
  { intros i j Hi Hj; apply Hall; lia. }
  rewrite (outcome_bind_Ok _ _ Hcm); eexists; reflexivity.
Qed.

End RenderFacts.

(* ================================================================== *)
(** ** The calculator: division *)
(* ================================================================== *)

Module CalculatorFacts.
Import Calculator.

Lemma result_ebind A B (m : E A) (k : A -> E B) :
  result (ebind m k) =
  match result m with
  | Val a => result (k a)
  | DivisionByZero => DivisionByZero
  | DivisionOverflow => DivisionOverflow
  | NullPointer => NullPointer
  end.
Proof.
  destruct m as [out [a | | | ]]; simpl; try reflexivity.
  destruct (k a); reflexivity.
Qed.

(** The operands are evaluated from the left to the right, and the
    operator is applied to two values only. *)
Lemma result_operands op (l r : E Z) :
  result (operands op l r) =
  match result l with
  | Val a => match result r with Val b => result (op a b) | stop => stop end
  | stop => stop
  end.
Proof.
  unfold operands; rewrite result_ebind.
  destruct (result l) as [a | | | ]; try reflexivity.
  rewrite result_ebind; destruct (result r); reflexivity.
Qed.

(** Printing the value first does not change the result. *)
Lemma result_print_and_return op (l r : E Z) :
  result (print_and_return op l r) = result (operands op l r).
Proof.
  unfold print_and_return; rewrite !result_ebind.
  destruct (result (operands op l r)); reflexivity.
Qed.

Lemma IsOperation_cases op :
  IsOperation op = true ->
  op = "*"%char \/ op = "/"%char \/ op = "+"%char \/ op = "-"%char.
Proof.
  unfold IsOperation; intros H.
  destruct (Ascii.eqb_spec op "*"); [tauto | ].
  destruct (Ascii.eqb_spec op "/"); [tauto | ].
  destruct (Ascii.eqb_spec op "+"); [tauto | ].
  destruct (Ascii.eqb_spec op "-"); [tauto | discriminate].
Qed.

Lemma IsOperation_false op :
  IsOperation op = false ->
  (op =? "*")%char = false /\ (op =? "/")%char = false /\
  (op =? "+")%char = false /\ (op =? "-")%char = false.
Proof.
  unfold IsOperation; intros Hop.
  apply orb_false_iff in Hop; destruct Hop as [Hop ->].
  apply orb_false_iff in Hop; destruct Hop as [Hop ->].
  apply orb_false_iff in Hop; destruct Hop as [-> ->].
  repeat split.
Qed.

Lemma result_div64 (a b : Z) : result (div64 a b) = apply_op "/" a b.
Proof.
  unfold div64, apply_op; cbn [Ascii.eqb Bool.eqb].
  destruct (b =? 0)%Z; [reflexivity | ].
  destruct ((a =? INT64_MIN) && (b =? -1))%Z; reflexivity.
Qed.

(** [INT64_MIN / -1] stops the evaluation, with a divisor that is not
    zero. *)
Lemma div64_overflow : result (div64 INT64_MIN (-1)) = DivisionOverflow.
Proof. reflexivity. Qed.

Lemma apply_op_DivisionByZero op a b :
  apply_op op a b = DivisionByZero <-> op = "/"%char /\ b = 0%Z.
Proof.
  unfold apply_op.
  destruct (Ascii.eqb_spec op "*") as [-> | _];
    [split; [discriminate | intros [E _]; discriminate] | ].
  destruct (Ascii.eqb_spec op "/") as [-> | Hne].
  - destruct (Z.eqb_spec b 0) as [-> | Hb]; [tauto | ].
    destruct ((a =? INT64_MIN) && (b =? -1))%Z;
      (split; [discriminate | intros [_ E]; contradiction]).
  - destruct (op =? "+")%char;
      [split; [discriminate | intros [E _]; contradiction] | ].
    destruct (op =? "-")%char;
      split; try discriminate; intros [E _]; contradiction.
Qed.

(** The result at a node with one of the four operators. *)
Lemma result_Evaluate_ptr_Operation (op : ascii) (l r : ExpressionPtr) :
  IsOperation op = true ->
  result (Evaluate_ptr (new_Operation op l r)) =
  apply_results op (result (Evaluate_ptr l)) (result (Evaluate_ptr r)).
Proof.
  intros Hop; unfold apply_results.
  destruct (IsOperation_cases op Hop) as [-> | [-> | [-> | ->]]];
    cbn [Evaluate_ptr Ascii.eqb Bool.eqb];
    rewrite result_print_and_return, result_operands;
    destruct (result (Evaluate_ptr l)) as [a | | | ]; try reflexivity;
    destruct (result (Evaluate_ptr r)) as [b | | | ]; try reflexivity.
  apply result_div64.
Qed.

(** A node with another character returns [0] and evaluates nothing. *)
Lemma Evaluate_ptr_unsupported (op : ascii) (l r : ExpressionPtr) :
  IsOperation op = false -> Evaluate_ptr (new_Operation op l r) = eret 0%Z.
Proof.
  intros Hop; destruct (IsOperation_false op Hop) as (E1 & E2 & E3 & E4).
  cbn [Evaluate_ptr]; rewrite E1, E2, E3, E4; reflexivity.
Qed.

(** [Evaluate_ptr] is [Evaluate] on a tree with no null pointer. *)
Lemma Evaluate_ptr_expression_of (p : ExpressionPtr) (e : Expression) :
  expression_of p = Some e -> Evaluate_ptr p = Evaluate e.
Proof.
  revert e; induction p as [ | v | op l IHl r IHr]; intros e He;
    cbn [expression_of] in He; [discriminate | | ].
  - injection He as <-; reflexivity.
  - destruct (expression_of l) as [l' | ]; [ | discriminate].
    destruct (expression_of r) as [r' | ]; [ | discriminate].
    injection He as <-.
    cbn [Evaluate_ptr Evaluate]; rewrite (IHl l' eq_refl), (IHr r' eq_refl).
    reflexivity.
Qed.

(** An evaluation that returns a value at a node with one of the four
    operators has returned a value at both operands, and at a division
    the value of the right operand is not zero. *)
Lemma returns_Operation op l r :
  IsOperation op = true ->
  returns (new_Operation op l r) ->
  returns l /\ returns r /\
  (op = "/"%char -> exists v, result (Evaluate_ptr r) = Val v /\ v <> 0%Z).
Proof.
  intros Hop [v Hv]; unfold returns.
  rewrite (@result_Evaluate_ptr_Operation op l r Hop) in Hv.
  unfold apply_results in Hv.
  destruct (result (Evaluate_ptr l)) as [a | | | ]; try discriminate.
  destruct (result (Evaluate_ptr r)) as [b | | | ]; try discriminate.
  split; [exists a; reflexivity | split; [exists b; reflexivity | ]].
  intros ->; exists b; split; [reflexivity | ].
  intros ->; unfold apply_op in Hv; cbn [Ascii.eqb Bool.eqb Z.eqb] in Hv.
  discriminate.
Qed.

Lemma visited_Operation op l r n :
  visited (new_Operation op l r) n <->
  n = new_Operation op l r \/
  (IsOperation op = true /\ (visited l n \/ visited r n)).
Proof.
  split.
  - intros Hv; inversion Hv; subst; tauto.
  - intros [-> | (Hop & [Hl | Hr])];
      [apply visited_root | apply visited_left | apply visited_right];
      assumption.
Qed.

Lemma visited_node_of p n : visited p n -> node_of p n.
Proof.
  induction 1;
    [apply node_root | apply node_left | apply node_right]; assumption.
Qed.

(** No division by zero when the divisor is a value other than zero at
    every division that the evaluation visits. *)
Lemma division_safe_visited (p : ExpressionPtr) :
  (forall n, visited p n -> divisor_nonzero n) -> division_safe p.
Proof.
  unfold division_safe.
  induction p as [ | v | op l IHl r IHr]; intros Hall;
    [discriminate | discriminate | ].
  destruct (IsOperation op) eqn:Hop;
    [ | rewrite (@Evaluate_ptr_unsupported op l r Hop); discriminate].
  rewrite (@result_Evaluate_ptr_Operation op l r Hop); unfold apply_results.
  assert (Hl : result (Evaluate_ptr l) <> DivisionByZero)
    by (apply IHl; intros n Hn; apply Hall, visited_left; assumption).
  assert (Hr : result (Evaluate_ptr r) <> DivisionByZero)
    by (apply IHr; intros n Hn; apply Hall, visited_right; assumption).
  destruct (result (Evaluate_ptr l)) as [a | | | ];
    try discriminate; try contradiction.
  destruct (result (Evaluate_ptr r)) as [b | | | ] eqn:Er;
    try discriminate; try contradiction.
  intros Hdiv; apply apply_op_DivisionByZero in Hdiv.
  destruct Hdiv as [-> ->].
  destruct (Hall _ (visited_root _) l r eq_refl) as (v & Ev & Hv).
  congruence.
Qed.

(** The divisor is a value other than zero at every division visited by
    an evaluation that returns a value. *)
Lemma returns_visited (p n : ExpressionPtr) :
  visited p n -> returns p -> divisor_nonzero n.
Proof.
  induction 1 as [p | op l r n Hop Hn IH | op l r n Hop Hn IH]; intros Hret.
  - intros l r ->.
    apply (proj2 (proj2 (@returns_Operation "/" l r eq_refl Hret))).
    reflexivity.
  - apply IH, (proj1 (@returns_Operation op l r Hop Hret)).
  - apply IH, (proj1 (proj2 (@returns_Operation op l r Hop Hret))).
Qed.

(** C10, with "only if" for the evaluations that return a value.  The
    ['/'] case divides with no test of the divisor: the division by zero
    is reached exactly when the divisor is zero.  The evaluation of an
    expression tree divides by zero nowhere if, at every division node
    that it visits, the right subexpression evaluates to a value that is
    not zero, and so the more if this holds at every division node of the
    tree.  Conversely, when the evaluation returns a value, the right
    subexpression evaluates to a value that is not zero at every division
    node that it visits. *)
Theorem Evaluate_division_safe (p : ExpressionPtr) :
  (forall a b, result (div64 a b) = DivisionByZero <-> b = 0%Z) /\
  ((forall n, visited p n -> divisor_nonzero n) -> division_safe p) /\
  ((forall n, node_of p n -> divisor_nonzero n) -> division_safe p) /\
  (returns p -> forall n, visited p n -> divisor_nonzero n).
Proof.
  split; [ | split; [ | split]].
  - intros a b; rewrite result_div64, apply_op_DivisionByZero; tauto.
  - apply division_safe_visited.
  - intros Hall; apply division_safe_visited.
    intros n Hn; apply Hall, visited_node_of, Hn.
  - intros Hret n Hn; exact (returns_visited Hn Hret).
Qed.

(** C10 as it is worded, for every division node of the tree, fails: below
    a node whose character is none of the four operators nothing is
    evaluated, and a division by zero there is never carried out. *)
Lemma Evaluate_unsupported_above_division :
  ~ (division_safe unsupported_above_division <->
     (forall n, node_of unsupported_above_division n -> divisor_nonzero n)).
Proof.
  intros [Hall _].
  assert (Hsafe : division_safe unsupported_above_division)
    by (unfold division_safe; simpl; discriminate).
  destruct (Hall Hsafe (new_Operation "/" (new_Const 1) (new_Const 0))
              (node_left _ _ (node_root _)) (new_Const 1) (new_Const 0)
              eq_refl)
    as (v & Ev & Hv).
  simpl in Ev; congruence.
Qed.

Lemma Evaluate_division_safe_witness :
  returns (sum_ptr small_sum) /\
  divisor_nonzero (new_Operation "/" (new_Const 3) (new_Const 4)).
Proof.
  assert (H : returns (sum_ptr small_sum)) by (exists 2%Z; reflexivity).
  split; [exact H | ].
  apply (proj2 (proj2 (proj2 (@Evaluate_division_safe (sum_ptr small_sum)))) H).
  apply (@visited_right "+"
           (new_Operation "*" (new_Const 1) (new_Const 2))
           (new_Operation "/" (new_Const 3) (new_Const 4)));
    [reflexivity | apply visited_root].
Defined.

(** "Only if" needs an evaluation that returns a value.  The division
    [1 / (INT64_MIN / -1)] divides by zero nowhere, yet its divisor
    evaluates to no value: the evaluation stops at the inner division,
    whose divisor is not zero. *)
Lemma Evaluate_division_by_overflow :
  division_safe division_by_overflow /\
  result (Evaluate_ptr division_by_overflow) = DivisionOverflow /\
  (forall n, visited division_by_overflow n ->
     forall l r, n = new_Operation "/" l r ->
       result (Evaluate_ptr r) <> Val 0%Z) /\
  ~ divisor_nonzero division_by_overflow.
Proof.
  assert (E : result (Evaluate_ptr division_by_overflow) = DivisionOverflow)
    by reflexivity.
  split; [unfold division_safe; rewrite E; discriminate | ].
  split; [exact E | split].
  - intros n Hn l r ->; unfold division_by_overflow in Hn.
    apply visited_Operation in Hn.
    destruct Hn as [Hn | (_ & [Hn | Hn])].
    + injection Hn as -> ->; discriminate.
    + inversion Hn.
    + apply visited_Operation in Hn.
      destruct Hn as [Hn | (_ & [Hn | Hn])];
        [injection Hn as -> ->; discriminate | inversion Hn | inversion Hn].
  - intros H; destruct (H _ _ eq_refl) as (v & Ev & _); discriminate.
Qed.

(** The same for the tree of [1/], whose divisor is the null pointer: the
    evaluation stops at the call through it. *)
Lemma Evaluate_division_by_null :
  division_safe division_by_null /\
  result (Evaluate_ptr division_by_null) = NullPointer /\
  ~ divisor_nonzero division_by_null.
Proof.
  split; [unfold division_safe; simpl; discriminate | ].
  split; [reflexivity | ].
  intros H; destruct (H _ _ eq_refl) as (v & Ev & _); discriminate.
Qed.

(** *** The tokenizer *)

Lemma wrap64_in_range (z : Z) : in_int64 z -> wrap64 z = z.
Proof.
  unfold in_int64, wrap64; intros Hz.
  rewrite Z.mod_small by lia; lia.
Qed.

Lemma wrap64_range (z : Z) : in_int64 (wrap64 z).
Proof.
  unfold in_int64, wrap64.
  pose proof (Z.mod_pos_bound (z + 2 ^ 63) (2 ^ 64) ltac:(lia)); lia.
Qed.

Lemma wrap64_add_l (x y : Z) : wrap64 (wrap64 x + y) = wrap64 (x + y).
Proof.
  unfold wrap64; f_equal.
  replace ((x + 2 ^ 63) mod 2 ^ 64 - 2 ^ 63 + y + 2 ^ 63)%Z
    with ((x + 2 ^ 63) mod 2 ^ 64 + y)%Z by lia.
  rewrite Zplus_mod_idemp_l; f_equal; lia.
Qed.

Lemma wrap64_mul_l (x k : Z) : wrap64 (wrap64 x * k) = wrap64 (x * k).
Proof.
  unfold wrap64; f_equal.
  replace (((x + 2 ^ 63) mod 2 ^ 64 - 2 ^ 63) * k + 2 ^ 63)%Z
    with ((x + 2 ^ 63) mod 2 ^ 64 * k + (2 ^ 63 - 2 ^ 63 * k))%Z by lia.
  rewrite <- Zplus_mod_idemp_l, Zmult_mod_idemp_l, Zplus_mod_idemp_l.
  f_equal; lia.
Qed.

Lemma WatchNext_head (c : ascii) (rest : list ascii) :
  WatchNext (c :: rest) = WatchNext [c].
Proof. reflexivity. Qed.

Lemma skip_unknown_app (junk rest : list ascii) :
  forallb unknown junk = true ->
  skip_unknown (junk ++ rest) = skip_unknown rest.
Proof.
  induction junk as [ | c junk IH]; simpl; [reflexivity | ].
  intros H; apply andb_true_iff in H; destruct H as [Hc Hjunk].
  unfold unknown in Hc; rewrite WatchNext_head.
  destruct (WatchNext [c]); try discriminate; apply IH; exact Hjunk.
Qed.

Lemma skip_unknown_length (input : list ascii) :
  (List.length (skip_unknown input) <= List.length input)%nat.
Proof.
  induction input as [ | c rest IH]; simpl; [lia | ].
  rewrite WatchNext_head; destruct (WatchNext [c]); simpl; lia.
Qed.

Lemma skip_unknown_known (input : list ascii) :
  WatchNext (skip_unknown input) <> kUnknown.
Proof.
  induction input as [ | c rest IH]; simpl; [discriminate | ].
  destruct (WatchNext (c :: rest)) eqn:E; try exact IH; rewrite E; discriminate.
Qed.

Lemma skip_unknown_fixed (input : list ascii) :
  WatchNext input <> kUnknown -> skip_unknown input = input.
Proof.
  destruct input as [ | c rest]; simpl; [reflexivity | ].
  destruct (WatchNext (c :: rest)); try reflexivity; contradiction.
Qed.

(** X13. The characters of no known kind (a space, a letter) that precede a
    token are passed over by [Consume] and by [NextSub]. *)
Theorem Consume_skips_unknown (tok : Tokenizer) (junk rest : list ascii) :
  forallb unknown junk = true ->
  Consume (with_input tok (junk ++ rest)) = Consume (with_input tok rest) /\
  NextSub (with_input tok (junk ++ rest)) = NextSub (with_input tok rest).
Proof.
  intros Hjunk; unfold Consume, NextSub; simpl.
  rewrite (skip_unknown_app _ rest Hjunk); split; reflexivity.
Qed.

Lemma read_digits_length (input : list ascii) (n : Z) :
  (List.length (snd (read_digits input n)) <= List.length input)%nat.
Proof.
  revert n; induction input as [ | c rest IH]; intros n; simpl; [lia | ].
  destruct (isdigit c); simpl; [specialize (IH
    (wrap64 (wrap64 (n * 10) + (Z.of_nat (nat_of_ascii c) - 48)))); lia | lia].
Qed.

(** How [Consume] moves through the input. *)
Lemma Consume_facts (tok : Tokenizer) :
  (List.length (in_ (Consume tok)) <= List.length (in_ tok))%nat /\
  (type_ (Consume tok) <> kEnd ->
   (List.length (in_ (Consume tok)) < List.length (in_ tok))%nat) /\
  type_ (Consume tok) <> kUnknown /\
  (type_ (Consume tok) = kEnd -> Consume (Consume tok) = Consume tok).
Proof.
  pose proof (skip_unknown_length (in_ tok)) as Hlen.
  pose proof (skip_unknown_known (in_ tok)) as Hknown.
  unfold Consume.
  destruct (WatchNext (skip_unknown (in_ tok))) eqn:Hw.
  - contradiction.
  - destruct (skip_unknown (in_ tok)) as [ | c rest] eqn:Hskip;
      [discriminate | ].
    assert (Hd : isdigit c = true).
    { unfold WatchNext in Hw; cbn [peek] in Hw.
      destruct (isdigit c); [reflexivity | ].
      destruct (_ || _); [discriminate | ].
      destruct (_ =? _)%char; discriminate. }
    cbn [read_digits]; rewrite Hd.
    pose proof (read_digits_length rest
      (wrap64 (wrap64 (0 * 10) + (Z.of_nat (nat_of_ascii c) - 48)))) as Hr.
    destruct (read_digits rest _) as [number rest']; simpl in *.
    repeat split; try lia; discriminate.
  - destruct (skip_unknown (in_ tok)) as [ | c rest] eqn:Hskip;
      [discriminate | ].
    simpl in *; repeat split; try lia; discriminate.
  - cbn [in_ type_ number_ symbol_].
    split; [exact Hlen | split; [ | split; [discriminate | ]]].
    + intros Hne; exfalso; apply Hne; reflexivity.
    + intros _.
      rewrite (skip_unknown_fixed (skip_unknown (in_ tok)))
        by (rewrite Hw; discriminate).
      rewrite Hw; reflexivity.
Qed.

(** X14. [Consume] never gives back input, reads at least one character unless
    it reports the end, never reports [kUnknown], and reports the end
    again, changing nothing, once it has reported the end. *)
Theorem Consume_progress (tok : Tokenizer) :
  (List.length (in_ (Consume tok)) <= List.length (in_ tok))%nat /\
  (type_ (Consume tok) <> kEnd ->
   (List.length (in_ (Consume tok)) < List.length (in_ tok))%nat) /\
  type_ (Consume tok) <> kUnknown /\
  (type_ (Consume tok) = kEnd -> Consume (Consume tok) = Consume tok).
Proof. exact (@Consume_facts tok). Qed.


Lemma read_digits_app (ds rest : list ascii) (n : Z) :
  forallb isdigit ds = true ->
  isdigit (peek rest) = false ->
  read_digits (ds ++ rest) (wrap64 n) =
  (wrap64 (fold_left
             (fun n c => (n * 10 + (Z.of_nat (nat_of_ascii c) - 48))%Z) ds n),
   rest).
Proof.
  intros Hds Hrest; revert n Hds.
  induction ds as [ | c ds IH]; intros n Hds.
  - simpl. destruct rest as [ | c rest]; [reflexivity | ].
    simpl in *; rewrite Hrest; reflexivity.
  - simpl in Hds; apply andb_true_iff in Hds; destruct Hds as [Hc Hds].
    cbn [app read_digits fold_left]; rewrite Hc.
    rewrite wrap64_mul_l, wrap64_add_l; apply IH; exact Hds.
Qed.

(** [Consume] on a run of digits. *)
Lemma Consume_digits (tok : Tokenizer) (ds rest : list ascii) :
  ds <> [] ->
  forallb isdigit ds = true ->
  isdigit (peek rest) = false ->
  Consume (with_input tok (ds ++ rest)) =
  {| in_ := rest; type_ := kNumber; number_ := wrap64 (digits_value ds);
     symbol_ := symbol_ tok |} /\
  ((digits_value ds < 2 ^ 63)%Z -> wrap64 (digits_value ds) = digits_value ds).
Proof.
  intros Hne Hds Hrest; split.
  - destruct ds as [ | c ds]; [contradiction | ].
    assert (Hc : isdigit c = true)
      by (simpl in Hds; apply andb_true_iff in Hds; tauto).
    assert (Hw : WatchNext ((c :: ds) ++ rest) = kNumber)
      by (unfold WatchNext; cbn [app peek]; rewrite Hc; reflexivity).
    unfold Consume, with_input; cbn [in_ type_ number_ symbol_].
    rewrite (skip_unknown_fixed ((c :: ds) ++ rest))
      by (rewrite Hw; discriminate).
    rewrite Hw.
    replace (read_digits ((c :: ds) ++ rest) 0)
      with (read_digits ((c :: ds) ++ rest) (wrap64 0)) by reflexivity.
    rewrite (read_digits_app (c :: ds) rest 0 Hds Hrest); reflexivity.
  - intros Hsmall; apply wrap64_in_range; unfold in_int64.
    assert (0 <= digits_value ds)%Z; [ | lia].
    unfold digits_value.
    assert (Hge : forall n, (0 <= n)%Z ->
      (0 <= fold_left
              (fun n c => (n * 10 + (Z.of_nat (nat_of_ascii c) - 48))%Z) ds n)%Z).
    { clear Hne Hsmall; induction ds as [ | c ds IH]; intros n Hn;
        [exact Hn | ].
      simpl in Hds; apply andb_true_iff in Hds; destruct Hds as [Hc Hds].
      cbn [fold_left]; apply IH; [exact Hds | ].
      unfold isdigit in Hc; apply andb_true_iff in Hc; destruct Hc as [Hc _].
      apply Nat.leb_le in Hc; lia. }
    apply Hge; lia.
Qed.

(** X15. [Consume] reads a run of decimal digits to its end as one number: the
    value the digits write, reduced to 64 bits, which is that value itself
    when it is below [2^63]. *)
Theorem Consume_number (tok : Tokenizer) (ds rest : list ascii) :
  ds <> [] ->
  forallb isdigit ds = true ->
  isdigit (peek rest) = false ->
  Consume (with_input tok (ds ++ rest)) =
  {| in_ := rest; type_ := kNumber; number_ := wrap64 (digits_value ds);
     symbol_ := symbol_ tok |} /\
  ((digits_value ds < 2 ^ 63)%Z -> wrap64 (digits_value ds) = digits_value ds).
Proof. exact (@Consume_digits tok ds rest). Qed.

(** *** The parser: termination *)

Local Abbreviation len tok := (List.length (in_ tok)).

Lemma Consume_len_le (tok : Tokenizer) : (len (Consume tok) <= len tok)%nat.
Proof. apply Consume_facts. Qed.

Lemma Consume_len_lt (tok : Tokenizer) :
  at_end (Consume tok) = false -> (len (Consume tok) < len tok)%nat.
Proof.
  intros H; apply Consume_facts.
  unfold at_end in H; intros E; rewrite E in H; discriminate.
Qed.

Lemma NextSub_len (tok : Tokenizer) : (len (snd (NextSub tok)) <= len tok)%nat.
Proof. unfold NextSub; simpl; apply skip_unknown_length. Qed.

Lemma is_symbol_not_at_end (tok : Tokenizer) (a b : ascii) :
  is_symbol tok a b = true -> at_end tok = false.
Proof. unfold is_symbol, at_end; destruct (type_ tok); congruence. Qed.

Lemma at_end_not_symbol (tok : Tokenizer) (a b : ascii) :
  at_end tok = true -> is_symbol tok a b = false.
Proof. unfold is_symbol, at_end; destruct (type_ tok); congruence. Qed.

Lemma Parser_terminates_aux (fuel : nat) :
  (forall tok, (7 * len tok + 1 <= fuel)%nat ->
     exists p tok', ParserT3 fuel tok = Some (p, tok') /\
                    (len tok' <= len tok)%nat) /\
  (forall tok, (7 * len tok + 2 <= fuel)%nat ->
     exists p tok', ParserT2 fuel tok = Some (p, tok') /\
                    (len tok' <= len tok)%nat) /\
  (forall lhs tok, (7 * len tok + 4 <= fuel)%nat ->
     exists p tok', ParserT1_loop fuel lhs tok = Some (p, tok') /\
       (tok' = tok \/
        ((len tok' <= len tok)%nat /\
         (at_end tok' = false -> (len tok' < len tok)%nat)))) /\
  (forall tok, (7 * len tok + 5 <= fuel)%nat ->
     exists p tok', ParserT1 fuel tok = Some (p, tok') /\
       (len tok' <= len tok)%nat /\
       (at_end tok' = false -> (len tok' < len tok)%nat)) /\
  (forall lhs tok, (7 * len tok + 6 <= fuel)%nat ->
     exists p tok', ParserE_loop fuel lhs tok = Some (p, tok') /\
                    (len tok' <= len tok)%nat) /\
  (forall tok, (7 * len tok + 7 <= fuel)%nat ->
     exists p tok', ParserE fuel tok = Some (p, tok') /\
                    (len tok' <= len tok)%nat).
Proof.
  induction fuel as [ | f (IH3 & IH2 & IH1l & IH1 & IHEl & IHE)].
  { repeat split; intros; lia. }
  assert (H3 : forall tok, (7 * len tok + 1 <= S f)%nat ->
     exists p tok', ParserT3 (S f) tok = Some (p, tok') /\
                    (len tok' <= len tok)%nat).
  { intros tok Hf; cbn [ParserT3].
    pose proof (Consume_len_le tok) as Hle.
    destruct (type_ (Consume tok)) eqn:Ht;
      try (destruct (is_symbol (Consume tok) "(" ")") eqn:Hs;
           [ | do 2 eexists; split; [reflexivity | exact Hle]]);
      try (do 2 eexists; split; [reflexivity | exact Hle]).
    all: pose proof (Consume_len_lt tok (is_symbol_not_at_end _ _ _ Hs)) as Hlt;
      destruct (IHE (Consume tok) ltac:(lia)) as (p & tok' & -> & Hl);
      do 2 eexists; split; [reflexivity | lia]. }
  assert (H2 : forall tok, (7 * len tok + 2 <= S f)%nat ->
     exists p tok', ParserT2 (S f) tok = Some (p, tok') /\
                    (len tok' <= len tok)%nat).
  { intros tok Hf; cbn [ParserT2].
    pose proof (NextSub_len tok) as Hle.
    destruct (NextSub tok) as [sub ta]; cbn [snd] in Hle.
    destruct sub.
    - pose proof (Consume_len_le ta) as Hle'.
      destruct (IH3 (Consume ta) ltac:(lia)) as (p & tok' & -> & Hl).
      do 2 eexists; split; [reflexivity | lia].
    - destruct (IH3 ta ltac:(lia)) as (p & tok' & -> & Hl).
      do 2 eexists; split; [reflexivity | lia]. }
  assert (H1l : forall lhs tok, (7 * len tok + 4 <= S f)%nat ->
     exists p tok', ParserT1_loop (S f) lhs tok = Some (p, tok') /\
       (tok' = tok \/
        ((len tok' <= len tok)%nat /\
         (at_end tok' = false -> (len tok' < len tok)%nat)))).
  { intros lhs tok Hf; cbn [ParserT1_loop].
    destruct (is_symbol tok "*" "/") eqn:Hs;
      [ | do 2 eexists; split; [reflexivity | left; reflexivity]].
    destruct (IH2 tok ltac:(lia)) as (rhs & ta & -> & Hla).
    pose proof (Consume_len_le ta) as Hle.
    pose proof (Consume_len_lt ta) as Hlt.
    destruct (at_end (Consume ta)) eqn:He.
    - destruct f as [ | f']; [lia | ]. cbn [ParserT1_loop].
      rewrite (at_end_not_symbol _ _ _ He).
      do 2 eexists; split; [reflexivity | right; split; [lia | ]].
      intros Hne; rewrite He in Hne; discriminate.
    - specialize (Hlt eq_refl).
      destruct (IH1l (new_Operation (symbol_ tok) lhs rhs) (Consume ta)
                  ltac:(lia)) as (p & tok' & -> & Hpost).
      do 2 eexists; split; [reflexivity | right].
      destruct Hpost as [-> | (Hl & Hl')]; [split; [lia | intros _; lia] | ].
      split; [lia | intros Hne; specialize (Hl' Hne); lia]. }
  assert (H1 : forall tok, (7 * len tok + 5 <= S f)%nat ->
     exists p tok', ParserT1 (S f) tok = Some (p, tok') /\
       (len tok' <= len tok)%nat /\
       (at_end tok' = false -> (len tok' < len tok)%nat)).
  { intros tok Hf; cbn [ParserT1].
    destruct (IH2 tok ltac:(lia)) as (lhs & ta & -> & Hla).
    pose proof (Consume_len_le ta) as Hle.
    pose proof (Consume_len_lt ta) as Hlt.
    destruct (at_end (Consume ta)) eqn:He.
    - do 2 eexists; split; [reflexivity | split; [lia | ]].
      intros Hne; rewrite He in Hne; discriminate.
    - specialize (Hlt eq_refl).
      destruct (IH1l lhs (Consume ta) ltac:(lia)) as (p & tok' & -> & Hpost).
      do 2 eexists; split; [reflexivity | ].
      destruct Hpost as [-> | (Hl & Hl')]; [split; [lia | intros _; lia] | ].
      split; [lia | intros Hne; specialize (Hl' Hne); lia]. }
  assert (HEl : forall lhs tok, (7 * len tok + 6 <= S f)%nat ->
     exists p tok', ParserE_loop (S f) lhs tok = Some (p, tok') /\
                    (len tok' <= len tok)%nat).
  { intros lhs tok Hf; cbn [ParserE_loop].
    destruct (is_symbol tok "-" "+") eqn:Hs;
      [ | do 2 eexists; split; [reflexivity | lia]].
    destruct (IH1 tok ltac:(lia)) as (rhs & t1 & -> & Hl1 & Hl1').
    destruct (at_end t1) eqn:He.
    - destruct f as [ | f']; [lia | ]. cbn [ParserE_loop].
      rewrite (at_end_not_symbol _ _ _ He).
      do 2 eexists; split; [reflexivity | lia].
    - specialize (Hl1' eq_refl).
      destruct (IHEl (new_Operation (symbol_ tok) lhs rhs) t1 ltac:(lia))
        as (p & tok' & -> & Hl).
      do 2 eexists; split; [reflexivity | lia]. }
  assert (HE : forall tok, (7 * len tok + 7 <= S f)%nat ->
     exists p tok', ParserE (S f) tok = Some (p, tok') /\
                    (len tok' <= len tok)%nat).
  { intros tok Hf; cbn [ParserE].
    destruct (IH1 tok ltac:(lia)) as (lhs & t1 & -> & Hl1 & Hl1').
    destruct (at_end t1) eqn:He;
      [do 2 eexists; split; [reflexivity | lia] | ].
    destruct (IHEl lhs t1 ltac:(lia)) as (p & tok' & -> & Hl).
    do 2 eexists; split; [reflexivity | lia]. }
  repeat split; assumption.
Qed.

(** X16. The parser returns on every input, within a nesting of seven calls and
    iterations per character left to read and seven more, whatever the
    state of the tokenizer; it returns a pointer, null or not, and never a
    report of an error, and it leaves no more input than it found. *)
Theorem ParseExpression_terminates (tok : Tokenizer) (fuel : nat) :
  (7 * List.length (in_ tok) + 7 <= fuel)%nat ->
  exists p tok',
    ParseExpression fuel tok = Some (p, tok') /\
    (List.length (in_ tok') <= List.length (in_ tok))%nat.
Proof.
  intros Hf; unfold ParseExpression.
  destruct (Parser_terminates_aux fuel) as (_ & _ & _ & _ & _ & HE).
  apply HE; exact Hf.
Qed.

(** *** The parser on sums of products *)

Lemma Consume_with_input (tok : Tokenizer) (input : list ascii) :
  in_ tok = input -> Consume tok = Consume (with_input tok input).
Proof. destruct tok; simpl; intros ->; reflexivity. Qed.

Lemma numeral_ok_inv (ds : list ascii) :
  numeral_ok ds = true -> ds <> [] /\ forallb isdigit ds = true.
Proof.
  unfold numeral_ok; intros H; apply andb_true_iff in H; destruct H as [Hn Hd].
  split; [intros ->; discriminate | exact Hd].
Qed.

Lemma numeral_ok_head (ds rest : list ascii) :
  numeral_ok ds = true ->
  exists c more, ds ++ rest = c :: more /\ isdigit c = true.
Proof.
  intros H; destruct (@numeral_ok_inv ds H) as [Hne Hd].
  destruct ds as [ | c ds]; [contradiction | ].
  exists c, (ds ++ rest); split; [reflexivity | ].
  simpl in Hd; apply andb_true_iff in Hd; tauto.
Qed.

Lemma IsOperation_multiplicative (op : ascii) :
  ((op =? "*") || (op =? "/"))%char = true -> IsOperation op = true.
Proof.
  unfold IsOperation; intros H; apply orb_true_iff in H.
  destruct H as [-> | ->]; [reflexivity | rewrite orb_true_r; reflexivity].
Qed.

Lemma IsOperation_additive (op : ascii) :
  ((op =? "+") || (op =? "-"))%char = true -> IsOperation op = true.
Proof.
  unfold IsOperation; intros H; apply orb_true_iff in H.
  destruct H as [-> | ->]; rewrite ?orb_true_r; reflexivity.
Qed.

Lemma IsOperation_not_digit (c : ascii) :
  IsOperation c = true -> isdigit c = false.
Proof.
  intros H; destruct (IsOperation_cases c H) as [-> | [-> | [-> | ->]]];
    reflexivity.
Qed.

Lemma IsScope_cases (c : ascii) :
  IsScope c = true -> c = "("%char \/ c = ")"%char.
Proof.
  unfold IsScope; intros H.
  destruct (Ascii.eqb_spec c "("); [tauto | ].
  destruct (Ascii.eqb_spec c ")"); [tauto | discriminate].
Qed.

Lemma symbol_not_digit (c : ascii) :
  IsOperation c || IsScope c = true -> isdigit c = false.
Proof.
  intros H; apply orb_true_iff in H; destruct H as [H | H];
    [apply IsOperation_not_digit; exact H | ].
  destruct (IsScope_cases c H) as [-> | ->]; reflexivity.
Qed.

Lemma symbol_next_not_digit (rest : list ascii) :
  symbol_next rest = true -> isdigit (peek rest) = false.
Proof.
  destruct rest as [ | c more]; simpl; [reflexivity | ].
  apply symbol_not_digit.
Qed.

Lemma product_end_symbol_next (rest : list ascii) :
  product_end rest = true -> symbol_next rest = true.
Proof.
  destruct rest as [ | c more]; simpl; [reflexivity | ].
  unfold IsOperation; intros H; apply orb_true_iff in H.
  destruct H as [H | ->]; [ | apply orb_true_r].
  apply orb_true_iff in H.
  destruct H as [-> | ->]; rewrite ?orb_true_r; reflexivity.
Qed.

Lemma scope_next_product_end (rest : list ascii) :
  scope_next rest = true -> product_end rest = true.
Proof.
  destruct rest as [ | c more]; simpl; [reflexivity | ].
  intros ->; apply orb_true_r.
Qed.

(** After a number, [Consume] takes the operator or the parenthesis that
    follows, or meets the end. *)
Lemma Consume_follows (tok : Tokenizer) (rest : list ascii) :
  in_ tok = rest -> symbol_next rest = true -> follows (Consume tok) rest.
Proof.
  intros Hin Hop; unfold Consume; rewrite Hin.
  destruct rest as [ | c more]; [simpl; split; reflexivity | ].
  simpl in Hop.
  assert (Hw : WatchNext (c :: more) = kSymbol).
  { unfold WatchNext; cbn [peek].
    rewrite (@symbol_not_digit c Hop), Hop; reflexivity. }
  rewrite (skip_unknown_fixed (c :: more)) by (rewrite Hw; discriminate).
  rewrite Hw; simpl; repeat split.
Qed.

(** [ParserT2] on a number. *)
Lemma ParserT2_numeral (fuel : nat) (tok : Tokenizer) (ds rest : list ascii) :
  in_ tok = ds ++ rest ->
  numeral_ok ds = true ->
  symbol_next rest = true ->
  exists tok',
    ParserT2 (S (S fuel)) tok = Some (numeral_ptr ds, tok') /\ in_ tok' = rest.
Proof.
  intros Hin Hds Hrest.
  destruct (@numeral_ok_head ds rest Hds) as (c & more & Hc & Hdig).
  destruct (@numeral_ok_inv ds Hds) as [Hne Hd].
  assert (Hw : WatchNext (ds ++ rest) = kNumber)
    by (rewrite Hc; unfold WatchNext; cbn [peek]; rewrite Hdig; reflexivity).
  assert (Hskip : skip_unknown (ds ++ rest) = ds ++ rest)
    by (apply skip_unknown_fixed; rewrite Hw; discriminate).
  assert (Hminus : (peek (ds ++ rest) =? "-")%char = false).
  { rewrite Hc; cbn [peek]. destruct (Ascii.eqb_spec c "-"); [ | reflexivity].
    subst c; discriminate. }
  cbn [ParserT2]; unfold NextSub; rewrite Hin, Hskip, Hminus.
  cbn [ParserT3].
  match goal with
  | |- context [Consume ?t] =>
      rewrite (@Consume_with_input t (ds ++ rest) eq_refl)
  end.
  destruct (@Consume_digits
              (with_input {| in_ := ds ++ rest; type_ := type_ tok;
                             number_ := number_ tok; symbol_ := symbol_ tok |}
                          (ds ++ rest))
              ds rest Hne Hd (@symbol_next_not_digit rest Hrest)) as [E _].
  unfold with_input in *; cbn [in_ type_ number_ symbol_] in *.
  rewrite E; cbn [type_ number_].
  eexists; split; [reflexivity | reflexivity].
Qed.

Lemma factors_text_symbol_next (items : list (ascii * list ascii))
    (rest : list ascii) :
  forallb factor_ok items = true ->
  symbol_next rest = true ->
  symbol_next (factors_text items ++ rest) = true.
Proof.
  destruct items as [ | [op ds] items]; [intros _ H; exact H | ].
  simpl; intros H _; apply andb_true_iff in H; destruct H as [H _].
  unfold factor_ok in H; apply andb_true_iff in H; destruct H as [H _].
  cbn [fst] in H.
  rewrite (IsOperation_multiplicative op H); reflexivity.
Qed.

Lemma product_end_not_factor (tok : Tokenizer) (rest : list ascii) :
  product_end rest = true -> follows tok rest ->
  is_symbol tok "*" "/" = false.
Proof.
  unfold is_symbol; destruct rest as [ | c more]; simpl.
  - intros _ [-> _]; reflexivity.
  - intros Hc (-> & -> & _).
    apply orb_true_iff in Hc; destruct Hc as [Hc | Hc].
    + apply orb_true_iff in Hc; destruct Hc as [Hc | Hc];
        apply Ascii.eqb_eq in Hc; subst c; reflexivity.
    + destruct (IsScope_cases c Hc) as [-> | ->]; reflexivity.
Qed.

Lemma scope_next_not_term (tok : Tokenizer) (rest : list ascii) :
  scope_next rest = true -> follows tok rest ->
  is_symbol tok "-" "+" = false.
Proof.
  unfold is_symbol; destruct rest as [ | c more]; simpl.
  - intros _ [-> _]; reflexivity.
  - intros Hc (-> & -> & _).
    destruct (IsScope_cases c Hc) as [-> | ->]; reflexivity.
Qed.

(** The loop of [ParserT1] on the operators [*] [/] and their numbers. *)
Lemma ParserT1_loop_factors (items : list (ascii * list ascii)) :
  forall (fuel : nat) (lhs : ExpressionPtr) (tok : Tokenizer)
         (rest : list ascii),
    forallb factor_ok items = true ->
    product_end rest = true ->
    follows tok (factors_text items ++ rest) ->
    (List.length (in_ tok) + 3 <= fuel)%nat ->
    exists tok',
      ParserT1_loop fuel lhs tok = Some (factors_ptr lhs items, tok') /\
      follows tok' rest.
Proof.
  induction items as [ | [op ds] items IH];
    intros fuel lhs tok rest Hok Hrest Hfol Hfuel;
    (destruct fuel as [ | fuel]; [lia | ]).
  - cbn [factors_text flat_map app] in Hfol. cbn [ParserT1_loop].
    rewrite (@product_end_not_factor tok rest Hrest Hfol).
    exists tok; split; [reflexivity | exact Hfol].
  - cbn [forallb] in Hok; apply andb_true_iff in Hok.
    destruct Hok as [Hitem Hitems].
    unfold factor_ok in Hitem; cbn [fst snd] in Hitem.
    apply andb_true_iff in Hitem; destruct Hitem as [Hop Hds].
    cbn [factors_text flat_map fst snd app] in Hfol.
    fold (factors_text items) in Hfol.
    rewrite <- app_assoc in Hfol; cbn [follows] in Hfol.
    destruct Hfol as (Htype & Hsym & Hin).
    cbn [ParserT1_loop].
    assert (Hs : is_symbol tok "*" "/" = true)
      by (unfold is_symbol; rewrite Htype, Hsym; exact Hop).
    rewrite Hs.
    assert (Hnext : symbol_next (factors_text items ++ rest) = true)
      by (apply factors_text_symbol_next;
          [exact Hitems | apply product_end_symbol_next; exact Hrest]).
    destruct fuel as [ | fuel]; [lia | ].
    destruct fuel as [ | fuel]; [lia | ].
    destruct (@ParserT2_numeral fuel tok ds (factors_text items ++ rest)
                Hin Hds Hnext) as (ta & -> & Hta).
    pose proof (@Consume_follows ta _ Hta Hnext) as Hfol'.
    assert (Hlen : (List.length (in_ (Consume ta)) < List.length (in_ tok))%nat).
    { pose proof (Consume_len_le ta) as Hle. rewrite Hta in Hle.
      rewrite Hin, List.length_app.
      destruct (@numeral_ok_inv ds Hds) as [Hne _].
      destruct ds; [contradiction | simpl; lia]. }
    destruct (IH (S (S fuel)) (new_Operation (symbol_ tok) lhs (numeral_ptr ds))
                (Consume ta) rest Hitems Hrest Hfol' ltac:(lia))
      as (tok' & -> & Hfinal).
    exists tok'; split; [ | exact Hfinal].
    rewrite Hsym; reflexivity.
Qed.

Lemma product_text_length (p : Product) :
  product_ok p = true -> (1 <= List.length (product_text p))%nat.
Proof.
  unfold product_ok, product_text; intros H.
  apply andb_true_iff in H; destruct H as [H _].
  destruct (@numeral_ok_inv _ H) as [Hne _].
  destruct (fst p); [contradiction | simpl; lia].
Qed.

(** [ParserT1] on a product: the tree of the product, the operators
    grouped to the left, and the tokenizer on what follows. *)
Lemma ParserT1_product (fuel : nat) (tok : Tokenizer) (p : Product)
    (rest : list ascii) :
  product_ok p = true ->
  product_end rest = true ->
  in_ tok = product_text p ++ rest ->
  (List.length (in_ tok) + 4 <= fuel)%nat ->
  exists tok',
    ParserT1 fuel tok = Some (product_ptr p, tok') /\ follows tok' rest.
Proof.
  intros Hok Hrest Hin Hfuel.
  unfold product_ok in Hok; apply andb_true_iff in Hok.
  destruct Hok as [Hds Hitems].
  unfold product_text in Hin; rewrite <- app_assoc in Hin.
  assert (Hnext : symbol_next (factors_text (snd p) ++ rest) = true)
    by (apply factors_text_symbol_next;
        [exact Hitems | apply product_end_symbol_next; exact Hrest]).
  destruct fuel as [ | fuel]; [lia | ].
  destruct fuel as [ | fuel]; [lia | ].
  destruct fuel as [ | fuel]; [lia | ].
  cbn [ParserT1].
  destruct (@ParserT2_numeral fuel tok (fst p) _ Hin Hds Hnext)
    as (ta & -> & Hta).
  pose proof (@Consume_follows ta _ Hta Hnext) as Hfol.
  assert (Hlen : (List.length (in_ (Consume ta)) < List.length (in_ tok))%nat).
  { pose proof (Consume_len_le ta) as Hle. rewrite Hta in Hle.
    rewrite Hin, List.length_app.
    destruct (@numeral_ok_inv _ Hds) as [Hne _].
    destruct (fst p); [contradiction | simpl; lia]. }
  destruct (@ParserT1_loop_factors (snd p) (S (S fuel)) (numeral_ptr (fst p))
              (Consume ta) rest Hitems Hrest Hfol ltac:(lia))
    as (tok' & Hloop & Hfinal).
  exists tok'; split; [ | exact Hfinal].
  destruct (at_end (Consume ta)) eqn:He; [ | exact Hloop].
  (* at the end the loop would have returned at once *)
  cbn [ParserT1_loop] in Hloop.
  rewrite (@at_end_not_symbol _ "*" "/" He) in Hloop; exact Hloop.
Qed.

Lemma terms_text_product_end (items : list (ascii * Product))
    (rest : list ascii) :
  forallb term_ok items = true ->
  scope_next rest = true ->
  product_end (terms_text items ++ rest) = true.
Proof.
  destruct items as [ | [op p] items];
    [intros _ H; apply scope_next_product_end; exact H | ].
  simpl; intros H _; apply andb_true_iff in H; destruct H as [H _].
  unfold term_ok in H; apply andb_true_iff in H; destruct H as [H _].
  cbn [fst] in H; rewrite H; reflexivity.
Qed.

Lemma follows_length (tok : Tokenizer) (rest : list ascii) :
  follows tok rest -> (List.length (in_ tok) <= List.length rest)%nat.
Proof.
  destruct rest as [ | c more]; simpl.
  - intros [_ ->]; simpl; lia.
  - intros (_ & _ & ->); lia.
Qed.

(** The loop of [ParserE] on the operators [+] [-] and their products. *)
Lemma ParserE_loop_terms (items : list (ascii * Product)) :
  forall (fuel : nat) (lhs : ExpressionPtr) (tok : Tokenizer)
         (rest : list ascii),
    forallb term_ok items = true ->
    scope_next rest = true ->
    follows tok (terms_text items ++ rest) ->
    (List.length (in_ tok) + 5 <= fuel)%nat ->
    exists tok',
      ParserE_loop fuel lhs tok = Some (terms_ptr lhs items, tok') /\
      follows tok' rest.
Proof.
  induction items as [ | [op p] items IH];
    intros fuel lhs tok rest Hok Hrest Hfol Hfuel;
    (destruct fuel as [ | fuel]; [lia | ]).
  - cbn [ParserE_loop]. cbn [terms_text flat_map app] in Hfol.
    rewrite (@scope_next_not_term tok rest Hrest Hfol).
    exists tok; split; [reflexivity | exact Hfol].
  - cbn [forallb] in Hok; apply andb_true_iff in Hok.
    destruct Hok as [Hitem Hitems].
    unfold term_ok in Hitem; cbn [fst snd] in Hitem.
    apply andb_true_iff in Hitem; destruct Hitem as [Hop Hp].
    cbn [terms_text flat_map fst snd app] in Hfol.
    fold (terms_text items) in Hfol.
    rewrite <- app_assoc in Hfol; cbn [follows] in Hfol.
    destruct Hfol as (Htype & Hsym & Hin).
    cbn [ParserE_loop].
    assert (Hs : is_symbol tok "-" "+" = true).
    { unfold is_symbol; rewrite Htype, Hsym.
      rewrite orb_comm; exact Hop. }
    rewrite Hs.
    destruct (@ParserT1_product fuel tok p (terms_text items ++ rest) Hp
                (@terms_text_product_end items rest Hitems Hrest) Hin
                ltac:(lia))
      as (t1 & -> & Hfol1).
    pose proof (@follows_length _ _ Hfol1) as Hl1.
    pose proof (@product_text_length p Hp) as Hlp.
    assert (Hlen : (List.length (in_ t1) < List.length (in_ tok))%nat)
      by (rewrite Hin, List.length_app; lia).
    destruct (IH fuel (new_Operation (symbol_ tok) lhs (product_ptr p)) t1
                rest Hitems Hrest Hfol1 ltac:(lia)) as (tok' & -> & Hfinal).
    exists tok'; split; [rewrite Hsym; reflexivity | exact Hfinal].
Qed.

Lemma expression_of_factors (items : list (ascii * list ascii)) :
  forall (lhs : ExpressionPtr) (e : Expression),
    expression_of lhs = Some e ->
    expression_of (factors_ptr lhs items) =
    Some (fold_left
            (fun acc item =>
               Operation (fst item) acc (numeral_expression (snd item)))
            items e).
Proof.
  induction items as [ | item items IH]; intros lhs e He; [exact He | ].
  unfold factors_ptr; cbn [fold_left]; apply IH.
  cbn [expression_of]; rewrite He; reflexivity.
Qed.

Lemma expression_of_product (p : Product) :
  expression_of (product_ptr p) = Some (product_expression p).
Proof. apply expression_of_factors; reflexivity. Qed.

Lemma expression_of_terms (items : list (ascii * Product)) :
  forall (lhs : ExpressionPtr) (e : Expression),
    expression_of lhs = Some e ->
    expression_of (terms_ptr lhs items) =
    Some (fold_left
            (fun acc item =>
               Operation (fst item) acc (product_expression (snd item)))
            items e).
Proof.
  induction items as [ | item items IH]; intros lhs e He; [exact He | ].
  unfold terms_ptr; cbn [fold_left]; apply IH.
  cbn [expression_of]; rewrite He, expression_of_product; reflexivity.
Qed.

(** [ParserE] on a sum that the end of the input or a parenthesis
    follows. *)
Lemma ParserE_sum (s : Sum) (tok : Tokenizer) (rest : list ascii)
    (fuel : nat) :
  sum_ok s = true ->
  scope_next rest = true ->
  in_ tok = sum_text s ++ rest ->
  (List.length (in_ tok) + 6 <= fuel)%nat ->
  exists tok', ParserE fuel tok = Some (sum_ptr s, tok') /\ follows tok' rest.
Proof.
  intros Hok Hrest Hin Hfuel.
  unfold sum_ok in Hok; apply andb_true_iff in Hok; destruct Hok as [Hp Hitems].
  unfold sum_text in Hin; rewrite <- app_assoc in Hin.
  destruct fuel as [ | fuel]; [lia | ].
  cbn [ParserE].
  destruct (@ParserT1_product fuel tok (fst s) (terms_text (snd s) ++ rest) Hp
              (@terms_text_product_end (snd s) rest Hitems Hrest) Hin
              ltac:(lia)) as (t1 & -> & Hfol1).
  pose proof (@follows_length _ _ Hfol1) as Hl1.
  assert (Hlen : (List.length (in_ t1) + 5 <= fuel)%nat).
  { rewrite Hin, List.length_app in Hfuel; lia. }
  destruct (@ParserE_loop_terms (snd s) fuel (product_ptr (fst s)) t1 rest
              Hitems Hrest Hfol1 Hlen) as (tok' & Hloop & Hfinal).
  exists tok'; split; [ | exact Hfinal].
  destruct (at_end t1) eqn:He; [ | exact Hloop].
  destruct fuel as [ | fuel']; [lia | ].
  cbn [ParserE_loop] in Hloop.
  rewrite (@at_end_not_symbol _ "-" "+" He) in Hloop; exact Hloop.
Qed.

(** X17. The parser on a sum of products of numbers, written with no
    parentheses: it returns the tree in which [*] and [/] bind tighter
    than [+] and [-] and the operators of one level group to the left,
    with no null pointer in it, and it reads the input to its end. *)
Theorem ParseExpression_sum (s : Sum) (number0 : Z) (symbol0 : ascii)
    (fuel : nat) :
  sum_ok s = true ->
  (List.length (sum_text s) + 6 <= fuel)%nat ->
  exists tok',
    ParseExpression fuel (new_Tokenizer (sum_text s) number0 symbol0)
    = Some (sum_ptr s, tok') /\
    type_ tok' = kEnd /\ in_ tok' = [] /\
    expression_of (sum_ptr s) = Some (sum_expression s).
Proof.
  intros Hok Hfuel.
  destruct (@ParserE_sum s (new_Tokenizer (sum_text s) number0 symbol0) []
              fuel Hok eq_refl)
    as (tok' & Hparse & Ht & Hi).
  - cbn [new_Tokenizer in_]; rewrite app_nil_r; reflexivity.
  - cbn [new_Tokenizer in_]; exact Hfuel.
  - exists tok'; split; [exact Hparse | split; [exact Ht | split; [exact Hi | ]]].
    unfold sum_ptr, sum_expression.
    apply expression_of_terms, expression_of_product.
Qed.

(** *** The parser at the edges of its input *)

(** One step of each function of the parser. *)
Lemma ParserE_S fuel tok :
  ParserE (S fuel) tok =
  match ParserT1 fuel tok with
  | None => None
  | Some (lhs, tok) =>
      if at_end tok then Some (lhs, tok) else ParserE_loop fuel lhs tok
  end.
Proof. reflexivity. Qed.


Lemma ParserT1_S fuel tok :
  ParserT1 (S fuel) tok =
  match ParserT2 fuel tok with
  | None => None
  | Some (lhs, tok) =>
      if at_end (Consume tok) then Some (lhs, Consume tok)
      else ParserT1_loop fuel lhs (Consume tok)
  end.
Proof. reflexivity. Qed.


Lemma ParserT2_S fuel tok :
  ParserT2 (S fuel) tok =
  if fst (NextSub tok) then
    match ParserT3 fuel (Consume (snd (NextSub tok))) with
    | None => None
    | Some (rhs, tok') =>
        Some (new_Operation "-" (new_Const 0) rhs, tok')
    end
  else ParserT3 fuel (snd (NextSub tok)).
Proof. reflexivity. Qed.

Lemma ParserT3_S fuel tok :
  ParserT3 (S fuel) tok =
  match type_ (Consume tok) with
  | kNumber => Some (new_Const (number_ (Consume tok)), Consume tok)
  | _ =>
      if is_symbol (Consume tok) "(" ")" then ParserE fuel (Consume tok)
      else Some (null_ptr, Consume tok)
  end.
Proof. reflexivity. Qed.

Lemma Consume_at_end (tok : Tokenizer) :
  skip_unknown (in_ tok) = [] ->
  Consume tok = {| in_ := []; type_ := kEnd; number_ := number_ tok;
                   symbol_ := symbol_ tok |}.
Proof. intros H; unfold Consume; rewrite H; reflexivity. Qed.

(** With nothing left to read but characters of no known kind, [ParserT2]
    and [ParserT1] return the null pointer. *)
Lemma ParserT2_at_end (fuel : nat) (tok : Tokenizer) :
  skip_unknown (in_ tok) = [] ->
  exists tok',
    ParserT2 (S (S fuel)) tok = Some (null_ptr, tok') /\
    type_ tok' = kEnd /\ in_ tok' = [].
Proof.
  intros Hskip; rewrite ParserT2_S.
  unfold NextSub; rewrite Hskip; cbn [peek fst snd].
  replace (EOF_char =? "-")%char with false by reflexivity.
  rewrite ParserT3_S.
  rewrite Consume_at_end by reflexivity; cbn [type_ in_ number_ symbol_].
  unfold is_symbol; cbn [type_].
  eexists; split; [reflexivity | split; reflexivity].
Qed.

Lemma ParserT1_at_end (fuel : nat) (tok : Tokenizer) :
  skip_unknown (in_ tok) = [] ->
  exists tok',
    ParserT1 (S (S (S fuel))) tok = Some (null_ptr, tok') /\
    type_ tok' = kEnd /\ in_ tok' = [].
Proof.
  intros Hskip; rewrite ParserT1_S.
  destruct (@ParserT2_at_end fuel tok Hskip) as (ta & -> & Ht & Hi).
  rewrite (Consume_at_end ta) by (rewrite Hi; reflexivity).
  cbn [at_end type_].
  eexists; split; [reflexivity | split; reflexivity].
Qed.

(** X18. An input with no token in it, the empty input or one of spaces and
    letters only, gives the null pointer. *)
Theorem ParseExpression_no_token (input : list ascii) (number0 : Z)
    (symbol0 : ascii) (fuel : nat) :
  forallb unknown input = true ->
  (4 <= fuel)%nat ->
  exists tok',
    ParseExpression fuel (new_Tokenizer input number0 symbol0)
    = Some (null_ptr, tok') /\
    type_ tok' = kEnd.
Proof.
  intros Hjunk Hfuel.
  do 4 (destruct fuel as [ | fuel]; [lia | ]).
  unfold ParseExpression; rewrite ParserE_S.
  assert (Hskip : skip_unknown (in_ (new_Tokenizer input number0 symbol0)) = []).
  { cbn [in_ new_Tokenizer].
    rewrite <- (app_nil_r input), (skip_unknown_app input [] Hjunk).
    reflexivity. }
  destruct (@ParserT1_at_end fuel _ Hskip) as (tok' & -> & Ht & _).
  unfold at_end; rewrite Ht.
  exists tok'; split; [reflexivity | exact Ht].
Qed.


Lemma Consume_symbol (tok : Tokenizer) (c : ascii) (rest : list ascii) :
  in_ tok = c :: rest ->
  IsOperation c || IsScope c = true ->
  Consume tok = {| in_ := rest; type_ := kSymbol; number_ := number_ tok;
                   symbol_ := c |}.
Proof.
  intros Hin Hc; unfold Consume; rewrite Hin.
  assert (Hw : WatchNext (c :: rest) = kSymbol).
  { unfold WatchNext; cbn [peek].
    rewrite (@symbol_not_digit c Hc), Hc; reflexivity. }
  rewrite (skip_unknown_fixed (c :: rest)) by (rewrite Hw; discriminate).
  rewrite Hw; reflexivity.
Qed.

(** X23. A parenthesis in front of a sum opens a group, whichever of the
    two it is, and the group ends at the next parenthesis, whichever it
    is, or at the end of the input: the tree is the tree of the sum, for
    [(1+2)] and for [(1+2] and [)1+2(] alike. *)
Theorem ParseExpression_group (s : Sum) (c : ascii) (closing : list ascii)
    (number0 : Z) (symbol0 : ascii) (fuel : nat) :
  sum_ok s = true ->
  IsScope c = true ->
  scope_next closing = true ->
  (List.length closing <= 1)%nat ->
  (List.length (sum_text s) + 11 <= fuel)%nat ->
  exists tok',
    ParseExpression fuel
      (new_Tokenizer (c :: sum_text s ++ closing) number0 symbol0)
    = Some (sum_ptr s, tok') /\
    type_ tok' = kEnd /\ in_ tok' = [].
Proof.
  intros Hok Hc Hclosing Hshort Hfuel.
  do 4 (destruct fuel as [ | fuel]; [lia | ]).
  assert (Hsym : IsOperation c || IsScope c = true)
    by (rewrite Hc; apply orb_true_r).
  assert (Hminus : (c =? "-")%char = false)
    by (destruct (IsScope_cases c Hc) as [-> | ->]; reflexivity).
  assert (Hw : WatchNext (c :: sum_text s ++ closing) = kSymbol).
  { unfold WatchNext; cbn [peek].
    rewrite (@symbol_not_digit c Hsym), Hsym; reflexivity. }
  unfold ParseExpression; rewrite ParserE_S, ParserT1_S, ParserT2_S.
  unfold NextSub; cbn [new_Tokenizer in_ type_ number_ symbol_ fst snd].
  rewrite (skip_unknown_fixed (c :: sum_text s ++ closing))
    by (rewrite Hw; discriminate).
  cbn [peek]; rewrite Hminus, ParserT3_S.
  match goal with
  | |- context [Consume ?t] =>
      rewrite (@Consume_symbol t c (sum_text s ++ closing) eq_refl Hsym)
  end.
  cbn [type_ number_].
  replace (is_symbol _ "(" ")") with true
    by (unfold is_symbol; cbn [type_ symbol_]; symmetry; exact Hc).
  match goal with
  | |- context [ParserE fuel ?t] =>
      destruct (@ParserE_sum s t closing fuel Hok Hclosing eq_refl)
        as (t2 & -> & Hfol)
  end.
  { cbn [in_]; rewrite List.length_app; lia. }
  assert (Hin : in_ t2 = []).
  { destruct closing as [ | c' [ | c'' more]]; simpl in Hfol, Hshort;
      [tauto | tauto | lia]. }
  rewrite (Consume_at_end t2) by (rewrite Hin; reflexivity).
  cbn [at_end type_].
  eexists; split; [reflexivity | split; reflexivity].
Qed.

(** *** More on the evaluation *)

Lemma printed_ebind A B (m : E A) (k : A -> E B) :
  printed (ebind m k) =
  printed m ++ match result m with Val a => printed (k a) | _ => [] end.
Proof.
  destruct m as [out [a | | | ]]; simpl;
    try (rewrite app_nil_r; reflexivity).
  destruct (k a); reflexivity.
Qed.

Lemma result_Operation (op : ascii) (l r : Expression) :
  IsOperation op = true ->
  result (Evaluate (Operation op l r)) =
  apply_results op (result (Evaluate l)) (result (Evaluate r)).
Proof.
  intros Hop; unfold apply_results.
  destruct (IsOperation_cases op Hop) as [-> | [-> | [-> | ->]]];
    cbn [Evaluate Ascii.eqb Bool.eqb];
    rewrite result_print_and_return, result_operands;
    destruct (result (Evaluate l)) as [a | | | ]; try reflexivity;
    destruct (result (Evaluate r)) as [b | | | ]; try reflexivity.
  apply result_div64.
Qed.

(** A [case] that succeeds prints what its operands print, its own value,
    and what its operands print once more. *)
Lemma length_printed_print_and_return (f : Z -> Z -> E Z) (l r : E Z) (v : Z) :
  (forall a b, printed (f a b) = []) ->
  result (operands f l r) = Val v ->
  List.length (printed (print_and_return f l r)) =
  (1 + 2 * (List.length (printed l) + List.length (printed r)))%nat.
Proof.
  intros Hf Hv.
  assert (Hlen : List.length (printed (operands f l r))
                 = (List.length (printed l) + List.length (printed r))%nat).
  { rewrite result_operands in Hv.
    unfold operands; rewrite printed_ebind, List.length_app.
    destruct (result l) as [a | | | ]; try discriminate.
    rewrite printed_ebind, List.length_app.
    destruct (result r) as [b | | | ]; try discriminate.
    rewrite Hf; simpl; lia. }
  unfold print_and_return.
  rewrite printed_ebind, List.length_app, printed_ebind, List.length_app.
  rewrite result_ebind, Hv, Hlen; simpl; lia.
Qed.

Lemma printed_div64 (a b : Z) : printed (div64 a b) = [].
Proof.
  unfold div64; destruct (b =? 0)%Z; [reflexivity | ].
  destruct ((a =? INT64_MIN) && (b =? -1))%Z; reflexivity.
Qed.

(** X21. An evaluation that returns a value prints one line for each node
    of one of the four operators each time the node is evaluated, and
    every such node evaluates each of its operands twice:
    [1 + 2 * (l + r)] lines for a node whose operands print [l] and [r]
    lines, and none for a node of another operator, which is at most
    [2 ^ n - 1] lines for a tree of [n] operations. *)
Theorem Evaluate_lines_printed (p : ExpressionPtr) :
  returns p ->
  List.length (printed (Evaluate_ptr p)) = lines_printed p /\
  (lines_printed p + 1 <= 2 ^ operations p)%nat.
Proof.
  intros Hret; split.
  - induction p as [ | v | op l IHl r IHr]; [reflexivity | reflexivity | ].
    cbn [lines_printed].
    destruct (IsOperation op) eqn:Hop;
      [ | rewrite (@Evaluate_ptr_unsupported op l r Hop); reflexivity].
    pose proof (@returns_Operation op l r Hop Hret) as (Hl & Hr & _).
    rewrite <- (IHl Hl), <- (IHr Hr).
    destruct Hret as [v Ev].
    destruct (IsOperation_cases op Hop) as [-> | [-> | [-> | ->]]];
      cbn [Evaluate_ptr Ascii.eqb Bool.eqb] in *;
      rewrite result_print_and_return in Ev;
      apply (length_printed_print_and_return _ _ _ (v := v));
      try exact Ev; try reflexivity.
    apply printed_div64.
  - clear Hret; induction p as [ | v | op l IHl r IHr];
      [simpl; lia | simpl; lia | ].
    cbn [lines_printed operations].
    rewrite !Nat.pow_add_r.
    change (2 ^ 1)%nat with 2%nat.
    destruct (IsOperation op); [nia | ].
    assert (1 <= 2 ^ operations l)%nat
      by (apply Nat.neq_0_lt_0, Nat.pow_nonzero; lia).
    assert (1 <= 2 ^ operations r)%nat
      by (apply Nat.neq_0_lt_0, Nat.pow_nonzero; lia).
    nia.
Qed.

Lemma result_fold_Operation A (expression : A -> Expression)
    (value : A -> Result Z) (items : list (ascii * A)) :
  (forall item, In item items ->
     IsOperation (fst item) = true /\
     result (Evaluate (expression (snd item))) = value (snd item)) ->
  forall e,
    result (Evaluate
              (fold_left
                 (fun acc item =>
                    Operation (fst item) acc (expression (snd item)))
                 items e)) =
    fold_values value items (result (Evaluate e)).
Proof.
  induction items as [ | item items IH]; intros Hitems e; [reflexivity | ].
  unfold fold_values; cbn [fold_left].
  rewrite IH by (intros i Hi; apply Hitems; right; exact Hi).
  destruct (Hitems item (or_introl eq_refl)) as [Hop Hval].
  rewrite (@result_Operation _ _ _ Hop), Hval; reflexivity.
Qed.

Lemma result_product_expression (p : Product) :
  product_ok p = true ->
  result (Evaluate (product_expression p)) = product_value p.
Proof.
  unfold product_ok; intros H; apply andb_true_iff in H; destruct H as [_ H].
  unfold product_expression, product_value.
  apply (@result_fold_Operation _ numeral_expression numeral_value).
  intros item Hitem; rewrite forallb_forall in H.
  specialize (H item Hitem); unfold factor_ok in H.
  apply andb_true_iff in H; destruct H as [Hop _].
  split; [apply IsOperation_multiplicative; exact Hop | reflexivity].
Qed.

(** X22. The evaluation of the tree that the parser builds for a sum of
    products: the products are evaluated first, each from the left to
    the right, then the sum from the left to the right, on 64 bits; the
    first division by zero, or of [INT64_MIN] by [-1], is the result of
    the whole. *)
Theorem Evaluate_sum_expression (s : Sum) :
  sum_ok s = true ->
  Evaluate_ptr (sum_ptr s) = Evaluate (sum_expression s) /\
  result (Evaluate (sum_expression s)) = sum_value s.
Proof.
  intros Hok; split.
  { apply Evaluate_ptr_expression_of; unfold sum_ptr, sum_expression.
    apply expression_of_terms, expression_of_product. }
  unfold sum_ok in Hok; apply andb_true_iff in Hok; destruct Hok as [Hp H].
  unfold sum_expression, sum_value.
  rewrite (@result_fold_Operation _ product_expression product_value).
  - rewrite (@result_product_expression _ Hp); reflexivity.
  - intros item Hitem; rewrite forallb_forall in H.
    specialize (H item Hitem); unfold term_ok in H.
    apply andb_true_iff in H; destruct H as [Hop Hok].
    split; [apply IsOperation_additive; exact Hop
           | apply result_product_expression; exact Hok].
Qed.

(** X20. A minus sign in front of a number is read as zero minus the number. *)
Theorem ParseExpression_unary_minus (ds : list ascii) (number0 : Z)
    (symbol0 : ascii) (fuel : nat) :
  numeral_ok ds = true ->
  (4 <= fuel)%nat ->
  exists tok',
    ParseExpression fuel (new_Tokenizer ("-"%char :: ds) number0 symbol0)
    = Some (new_Operation "-" (new_Const 0) (numeral_ptr ds), tok') /\
    type_ tok' = kEnd /\
    result (Evaluate (Operation "-" (Const 0) (numeral_expression ds)))
    = Val (wrap64 (0 - wrap64 (digits_value ds))).
Proof.
  intros Hds Hfuel.
  do 4 (destruct fuel as [ | fuel]; [lia | ]).
  destruct (@numeral_ok_inv ds Hds) as [Hne Hd].
  unfold ParseExpression; rewrite ParserE_S, ParserT1_S, ParserT2_S.
  unfold NextSub; cbn [new_Tokenizer in_ type_ number_ symbol_ fst snd].
  rewrite (skip_unknown_fixed ("-"%char :: ds)) by discriminate.
  cbn [peek]; replace ("-" =? "-")%char with true by reflexivity.
  rewrite ParserT3_S.
  replace (Consume {| in_ := "-"%char :: ds; type_ := kUnknown;
                      number_ := number0; symbol_ := symbol0 |})
    with {| in_ := ds; type_ := kSymbol; number_ := number0;
            symbol_ := "-"%char |} by reflexivity.
  destruct (@Consume_digits
              {| in_ := ds; type_ := kSymbol; number_ := number0;
                 symbol_ := "-"%char |} ds [] Hne Hd eq_refl) as [E _].
  unfold with_input in E; cbn [in_ type_ number_ symbol_] in E.
  rewrite app_nil_r in E; rewrite E; cbn [type_ number_].
  rewrite Consume_at_end by reflexivity; cbn [at_end type_].
  eexists; split; [reflexivity | split; reflexivity].
Qed.

(** *** The calculator at work *)

Lemma Consume_skips_unknown_witness :
  forallb unknown (chars " x ") = true /\
  Consume (with_input (tokenizer_of "") (chars " x " ++ chars "42+1"))
  = Consume (with_input (tokenizer_of "") (chars "42+1")) /\
  NextSub (with_input (tokenizer_of "") (chars " x " ++ chars "42+1"))
  = NextSub (with_input (tokenizer_of "") (chars "42+1")).
Proof.
  split; [reflexivity | ].
  apply (@Consume_skips_unknown (tokenizer_of "") (chars " x ") (chars "42+1"));
    reflexivity.
Defined.

Lemma Consume_number_witness :
  Consume (with_input (tokenizer_of "") (chars "42" ++ chars "+1")) =
  {| in_ := chars "+1"; type_ := kNumber; number_ := 42; symbol_ := "?" |}.
Proof.
  destruct (@Consume_number (tokenizer_of "") (chars "42") (chars "+1")
              ltac:(discriminate) eq_refl eq_refl) as [E _].
  exact E.
Defined.

Lemma ParseExpression_terminates_witness :
  exists p tok',
    ParseExpression 56 (tokenizer_of "(1+2)*3") = Some (p, tok') /\
    (List.length (in_ tok') <= 7)%nat.
Proof.
  apply (@ParseExpression_terminates (tokenizer_of "(1+2)*3") 56).
  simpl; lia.
Defined.

Lemma ParseExpression_sum_witness :
  sum_text small_sum = chars "1*2+3/4" /\
  exists tok',
    ParseExpression 13 (tokenizer_of "1*2+3/4")
    = Some (new_Operation "+"
              (new_Operation "*" (new_Const 1) (new_Const 2))
              (new_Operation "/" (new_Const 3) (new_Const 4)), tok') /\
    type_ tok' = kEnd /\ in_ tok' = [] /\
    expression_of (sum_ptr small_sum) = Some (sum_expression small_sum).
Proof.
  split; [reflexivity | ].
  apply (@ParseExpression_sum small_sum 0 "?" 13); [reflexivity | simpl; lia].
Defined.

Lemma ParseExpression_no_token_witness :
  exists tok',
    ParseExpression 4 (tokenizer_of " a b ") = Some (null_ptr, tok') /\
    type_ tok' = kEnd.
Proof.
  apply (@ParseExpression_no_token (chars " a b ") 0 "?" 4);
    [reflexivity | lia].
Defined.


Lemma ParseExpression_unary_minus_witness :
  exists tok',
    ParseExpression 4 (tokenizer_of "-5")
    = Some (new_Operation "-" (new_Const 0) (new_Const 5), tok') /\
    type_ tok' = kEnd /\
    result (Evaluate (Operation "-" (Const 0) (Const 5))) = Val (-5)%Z.
Proof.
  apply (@ParseExpression_unary_minus (chars "5") 0 "?" 4);
    [reflexivity | lia].
Defined.

Lemma Evaluate_lines_printed_witness :
  returns (sum_ptr small_sum) /\
  List.length (printed (Evaluate_ptr (sum_ptr small_sum))) = 5%nat.
Proof.
  assert (H : returns (sum_ptr small_sum)) by (exists 2%Z; reflexivity).
  split; [exact H | ].
  exact (proj1 (@Evaluate_lines_printed (sum_ptr small_sum) H)).
Defined.

Lemma Evaluate_sum_expression_witness :
  sum_ok overflowing_sum = true /\
  result (Evaluate_ptr (sum_ptr overflowing_sum)) = DivisionOverflow.
Proof.
  split; [reflexivity | ].
  destruct (@Evaluate_sum_expression overflowing_sum eq_refl) as [-> ->].
  reflexivity.
Defined.

Lemma ParseExpression_group_witness :
  exists tok',
    ParseExpression 18 (tokenizer_of "(1*2+3/4)")
    = Some (new_Operation "+"
              (new_Operation "*" (new_Const 1) (new_Const 2))
              (new_Operation "/" (new_Const 3) (new_Const 4)), tok') /\
    type_ tok' = kEnd /\ in_ tok' = [].
Proof.
  apply (@ParseExpression_group small_sum "(" (chars ")") 0 "?" 18);
    try reflexivity; simpl; lia.
Defined.

End CalculatorFacts.

(* ================================================================== *)
(** ** The renderer at work in the small world *)
(* ================================================================== *)

Module AxisWorldFacts.
Import AxisWorld.

#[local] Existing Instance substrate.
#[local] Existing Instance world.

Open Scope Z_scope.

Lemma axis_rlt_irrefl : forall a : Z, (a <? a) = false.
Proof. intros a; apply Z.ltb_irrefl. Qed.

Lemma axis_rlt_trans :
  forall a b c : Z, (a <? b) = true -> (b <? c) = true -> (a <? c) = true.
Proof. intros a b c Hab Hbc; apply Z.ltb_lt in Hab, Hbc; apply Z.ltb_lt; lia. Qed.

Lemma axis_Length_at_point :
  forall p : V3, (0 <? v_length (v_sub p p)) = false.
Proof. intros [[x y] z]; simpl; apply Z.ltb_ge; lia. Qed.

Lemma axis_smul_one : forall v : V3, v_scale 1 v = v.
Proof. intros [[x y] z]; unfold v_scale; f_equal; [f_equal | ]; lia. Qed.

Lemma axis_vadd_zero_r : forall v : V3, v_add v (0, 0, 0) = v.
Proof. intros [[x y] z]; unfold v_add; f_equal; [f_equal | ]; lia. Qed.

(** The planes of [four_planes] ahead of the ray [forward] are met at the
    distances 3 and 1 (first collection) and 2 (second collection). *)
Lemma FindNearestIntersection_global_minimum_witness :
  GetDistance
    (fst (FindNearestIntersection (sphere_objects four_planes) forward
            (fst (FindNearestIntersection (objects four_planes) forward
                    default_intersection false))
            true)) = 1 /\
  let first :=
    FindNearestIntersection (objects four_planes) forward
                            default_intersection false in
  let second :=
    FindNearestIntersection (sphere_objects four_planes) forward (fst first)
                            (is_some (snd first)) in
  (forall i, hit_in (objects four_planes) forward i \/
             hit_in (sphere_objects four_planes) forward i ->
     rle (GetDistance (fst second)) (GetDistance i) = true) /\
  (is_some (snd first) = true ->
     second = (fst first, None) \/
     rlt (GetDistance (fst second)) (GetDistance (fst first)) = true) /\
  (forall (objs : list Sph) flag b target,
     flag || is_some target = true ->
     let r := FindNearestIntersection_loop objs forward flag b target in
     r = (b, target) \/ rlt (GetDistance (fst r)) (GetDistance b) = true).
Proof.
  split; [reflexivity | ].
  exact (@FindNearestIntersection_global_minimum substrate
           axis_rlt_irrefl axis_rlt_trans Tri Sph Tri_Primitive Sph_Primitive
           (objects four_planes) (sphere_objects four_planes) forward
           default_intersection).
Defined.

(** A plane of dense glass refracts nothing: the ratio [1 / 2] is [0]. *)
Lemma GetColor_total_internal_reflection_witness :
  mode (options 2 kFull) = kFull /\
  rgt (vnth (albedo (material (sph_at 10 dense_glass))) 2) r0 = true /\
  Refract (GetDirection forward) (GetNormal wall_hit)
          (rdiv r1 (refraction_index (material (sph_at 10 dense_glass))))
  = None /\
  outcome (GetColor (render 1) glass_wall forward (options 2 kFull) wall_hit
                    (sph_at 10 dense_glass)) = UB EmptyOptional.
Proof.
  split; [reflexivity | split; [reflexivity | split; [reflexivity | ]]].
  apply (@GetColor_total_internal_reflection substrate world Sph Sph_Primitive);
    reflexivity.
Defined.

(** The fault of the plane of dense glass, reached from [RayCast]. *)
Lemma RayCast_dense_glass :
  render 2 glass_wall forward (options 1 kFull)
  = ([QObjects; QSphereObjects; QLights; QObjects; QSphereObjects],
     UB EmptyOptional).
Proof. reflexivity. Qed.


Lemma RayCast_depth_zero_witness :
  depth (options 0 kFull) = 0 /\
  outcome (render 1 four_planes forward (options 0 kFull)) = Ok vzero /\
  queries (render 1 four_planes forward (options 0 kFull)) = [].
Proof.
  split; [reflexivity | ].
  apply (@RayCast_depth_zero substrate world four_planes forward
           (options 0 kFull)); reflexivity.
Defined.

(** A plane of thin glass in front of a callee that returns (9, 9, 9). *)
Lemma GetColor_shaded_witness :
  exists diffusion specular,
    outcome (GetColor_lights lit_wall forward wall_hit (tri_at 10 thin_glass)
                             (lights lit_wall) vzero vzero)
    = Ok (diffusion, specular) /\
    outcome (GetColor (constant (vec 9 9 9)) lit_wall forward
                      (options 2 kFull) wall_hit (tri_at 10 thin_glass))
    = Ok (vadd (vadd (vadd (vec 5 5 5) (smul 1 (vadd diffusion specular)))
                     (smul 1 (vec 9 9 9)))
               (muls (vec 9 9 9) 1)).
Proof.
  apply (@GetColor_shaded substrate world Tri Tri_Primitive
           (constant (vec 9 9 9)) lit_wall forward (options 2 kFull) wall_hit
           (tri_at 10 thin_glass) (vec 9 9 9) (vec 9 9 9)).
  - reflexivity.
  - intros _; exists (vec 1 0 0); split; reflexivity.
  - intros _; reflexivity.
Defined.

Lemma GetColor_albedo_100_witness :
  exists diffusion specular,
    outcome (GetColor_lights lit_wall forward wall_hit (tri_at 10 matte)
                             (lights lit_wall) vzero vzero)
    = Ok (diffusion, specular) /\
    forall self,
      outcome (GetColor self lit_wall forward (options 2 kFull) wall_hit
                        (tri_at 10 matte))
      = Ok (vadd (vec 5 5 5) (vadd diffusion specular)).
Proof.
  destruct (@GetColor_albedo_100 substrate world axis_rlt_irrefl axis_smul_one
              eq_refl axis_vadd_zero_r Tri Tri_Primitive lit_wall forward
              (options 2 kFull) wall_hit (tri_at 10 matte)
              eq_refl eq_refl eq_refl eq_refl)
    as (diffusion & specular & Hl & Hc & _).
  exists diffusion, specular; split; [exact Hl | exact Hc].
Defined.

Lemma lit_wall_hit i :
  hit_in_scene lit_wall (light_ray_of lamp (vec 10 0 0)) i ->
  i = {| hit_distance := 7; hit_position := (10, 0, 0);
         hit_normal := (-1, 0, 0) |}.
Proof.
  intros [(o & [<- | []] & Hi) | (o & [] & _)].
  vm_compute in Hi; congruence.
Qed.

(** The lamp at 3 lights the point of the plane at 10 that faces it. *)
Lemma IsInShadow_nearest_hit_witness :
  (exists i, hit_in_scene lit_wall (light_ray_of lamp (vec 10 0 0)) i) /\
  (forall b, nearest_hit lit_wall (light_ray_of lamp (vec 10 0 0)) b ->
             GetPosition b = vec 10 0 0) /\
  outcome (IsInShadow lit_wall lamp (vec 10 0 0)) = Ok false.
Proof.
  assert (Hhit : exists i,
            hit_in_scene lit_wall (light_ray_of lamp (vec 10 0 0)) i).
  { eexists; left; exists (tri_at 10 matte); split;
      [left; reflexivity | reflexivity]. }
  assert (Hpoint : forall b,
            nearest_hit lit_wall (light_ray_of lamp (vec 10 0 0)) b ->
            GetPosition b = vec 10 0 0).
  { intros b (Hb & _); rewrite (lit_wall_hit Hb); reflexivity. }
  split; [exact Hhit | split; [exact Hpoint | ]].
  apply (@IsInShadow_nearest_hit substrate world axis_rlt_irrefl
           axis_rlt_trans axis_Length_at_point lit_wall lamp (vec 10 0 0)
           Hhit); exact Hpoint.
Defined.

Lemma lit_wall_behind i : ~ hit_in_scene lit_wall backward i.
Proof.
  intros [(o & [<- | []] & Hi) | (o & [] & _)].
  vm_compute in Hi; discriminate.
Qed.

(** The ray [backward] runs away from the only plane of [lit_wall]. *)
Lemma RayCast_miss_witness :
  (forall i, ~ hit_in_scene lit_wall backward i) /\
  0 < depth (options 2 kFull) /\
  outcome (render 1 lit_wall backward (options 2 kFull)) = Ok vzero.
Proof.
  split; [exact lit_wall_behind | split; [reflexivity | ]].
  apply (@RayCast_miss substrate world lit_wall backward (options 2 kFull)
           lit_wall_behind); reflexivity.
Defined.

(** With no primitive in the scene the point at 10 is reported as in
    shadow: it is ten away from the position of the default record. *)
Lemma IsInShadow_empty_scene_witness :
  objects empty_scene = [] /\ sphere_objects empty_scene = [] /\
  outcome (IsInShadow empty_scene lamp (vec 10 0 0)) = Ok true.
Proof.
  split; [reflexivity | split; [reflexivity | ]].
  apply (@IsInShadow_empty_scene substrate world empty_scene lamp (vec 10 0 0)
           eq_refl eq_refl); reflexivity.
Defined.






(** *** The further facts at work *)

Lemma four_planes_spheres_hit i :
  hit_in (sphere_objects four_planes) forward i -> GetDistance i = 2.
Proof.
  intros (o & [<- | [<- | []]] & Hi); vm_compute in Hi;
    [injection Hi as <-; reflexivity | discriminate].
Qed.

(** The plane at 7 is farther along [forward] than the plane at 6. *)
Lemma FindNearestIntersection_keeps_prior_witness :
  (forall i, hit_in (sphere_objects four_planes) forward i ->
     rlt (GetDistance i) (GetDistance near_hit) = false) /\
  FindNearestIntersection (sphere_objects four_planes) forward near_hit true
  = (near_hit, None).
Proof.
  assert (H : forall i, hit_in (sphere_objects four_planes) forward i ->
                rlt (GetDistance i) (GetDistance near_hit) = false)
    by (intros i Hi; rewrite (four_planes_spheres_hit Hi); reflexivity).
  split; [exact H | ].
  apply (@FindNearestIntersection_keeps_prior substrate Sph Sph_Primitive
           (sphere_objects four_planes) forward near_hit H).
Defined.

Lemma coincident_sphere_hit i :
  hit_in (sphere_objects coincident) forward i -> GetDistance i = 3.
Proof.
  intros (o & [<- | []] & Hi); vm_compute in Hi.
  injection Hi as <-; reflexivity.
Qed.

(** The planes of [coincident] are met at the same distance 3: the one of
    the first collection is shaded. *)
Lemma RayCast_prefers_triangle_witness :
  outcome (RayCast_body (render 0) coincident forward (options 1 kFull)) =
  outcome (GetColor (render 0) coincident forward (options 1 kFull)
             {| hit_distance := 3; hit_position := (8, 0, 0);
                hit_normal := (-1, 0, 0) |} (tri_at 8 matte)).
Proof.
  apply (@RayCast_prefers_triangle substrate world (render 0) coincident
           forward (options 1 kFull)
           {| hit_distance := 3; hit_position := (8, 0, 0);
              hit_normal := (-1, 0, 0) |} (tri_at 8 matte)).
  - simpl; lia.
  - reflexivity.
  - intros i Hi; rewrite (coincident_sphere_hit Hi); reflexivity.
Defined.

(** The depth mode at the depth -1 between the two mirrors. *)
Lemma RayCast_visualization_modes_witness :
  mode (options (-1) kDepth) <> kFull /\
  render 7 two_mirrors forward (options (-1) kDepth)
  = render 1 two_mirrors forward (options (-1) kDepth) /\
  outcome (render 1 two_mirrors forward (options (-1) kDepth))
  = Ok (vec 5 5 5).
Proof.
  assert (H : mode (options (-1) kDepth) <> kFull) by discriminate.
  split; [exact H | split; [ | reflexivity]].
  apply (@RayCast_visualization_modes substrate world two_mirrors forward
           (options (-1) kDepth) H 6).
Defined.

Lemma RayCast_fuel_irrelevant_witness :
  0 <= depth (options 3 kFull) /\
  render 4 two_mirrors forward (options 3 kFull)
  = render 9 two_mirrors forward (options 3 kFull).
Proof.
  split; [simpl; lia | ].
  apply (@RayCast_fuel_irrelevant substrate world two_mirrors forward
           (options 3 kFull) 4 9); simpl; lia.
Defined.

(** One light and the depth 3: at most 35 queries. *)
Lemma RayCast_queries_bounded_witness :
  0 <= depth (options 3 kFull) /\
  (List.length (queries (render 9 four_planes forward (options 3 kFull)))
   <= 35)%nat.
Proof.
  split; [simpl; lia | ].
  apply (@RayCast_queries_bounded substrate world four_planes forward
           (options 3 kFull) 9); simpl; lia.
Defined.

(** The nearest plane of [four_planes] along [forward] is at 6, one away
    from the origin of the ray. *)
Lemma RayCast_depth_mode_witness :
  exists b,
    nearest_hit four_planes forward b /\
    outcome (render 1 four_planes forward (options 2 kDepth)) =
    Ok (mkVector (GetDistance b) (GetDistance b) (GetDistance b)).
Proof.
  apply (@RayCast_depth_mode substrate world axis_rlt_irrefl axis_rlt_trans
           (fun _ _ => eq_refl) four_planes forward (options 2 kDepth) 0).
  - reflexivity.
  - simpl; lia.
  - exists near_hit; left; exists (tri_at 6 matte); split;
      [right; left; reflexivity | reflexivity].
Defined.

(** The render of two rows of three pixels of [lit_wall] in the depth
    mode. *)
Lemma Render_pixels_witness :
  outcome (@Render substrate world studio 1 "wall"%string small_camera
             (options 1 kDepth)) = Ok depth_image /\
  exists color_map,
    depth_image = @PostProc substrate world studio
                    (@newImage substrate world studio small_camera)
                    color_map (options 1 kDepth) /\
    @map_shape substrate color_map 2 3 /\
    forall i j, (i < 2)%nat -> (j < 3)%nat ->
      outcome (render 1 lit_wall
                 (@MakeRay substrate world studio small_camera i j)
                 (options 1 kDepth))
      = Ok (@pixel substrate color_map i j).
Proof.
  split; [reflexivity | ].
  apply (@Render_pixels substrate world studio 1 "wall"%string small_camera
           (options 1 kDepth) depth_image eq_refl).
Defined.

Lemma Render_depth_zero_witness :
  depth (options 0 kFull) = 0 /\
  @Render substrate world studio 1 "wall"%string small_camera (options 0 kFull)
  = ret (((2, 3)%nat,
          [[(0, 0, 0); (0, 0, 0); (0, 0, 0)];
           [(0, 0, 0); (0, 0, 0); (0, 0, 0)]])
         : @Image substrate world studio).
Proof.
  split; [reflexivity | ].
  apply (@Render_depth_zero substrate world studio 0 "wall"%string
           small_camera (options 0 kFull) eq_refl).
Defined.

(** The matte plane of [lit_wall] at the depth -3 of the shaded mode. *)
Lemma RayCast_no_bounce_witness :
  render 5 lit_wall forward (options (-3) kFull)
  = render 1 lit_wall forward (options (-3) kFull) /\
  outcome (render 1 lit_wall forward (options (-3) kFull)) = Ok (vec 10 10 10).
Proof.
  split; [ | reflexivity].
  apply (@RayCast_no_bounce substrate world lit_wall forward
           (options (-3) kFull)).
  - intros t [<- | []]; split; reflexivity.
  - intros s [].
Defined.

End AxisWorldFacts.
